(** * Declarative animated diagrams: timeline engine and grid layout

    A shallow embedding of [src/engine/useTimeline.ts],
    [src/engine/useGridLayout.ts] and the helpers of [src/types.ts].

    Modelling conventions.
    - A JavaScript [number] is an exact rational ([Q]); frame counts that the
      code obtains through [Math.round] are integers ([Z]).  Floating-point
      rounding and division by zero are outside the model; the [NaN] and
      [Infinity] that the group record can hold are constructors of their
      own.
    - [Record<string, T>] objects are finite maps ([gmap string T]) of the
      own keys; the records that are read under a key that may not have
      been assigned (the layout records, the group record) are read through
      [Js.get], which also sees the members inherited from
      [Object.prototype].
    - A [throw] is the [Throw] constructor of [result]; statements are
      executed in source order, so the first failing statement decides the
      error.
    - Fields of the configuration that neither engine reads (labels, icons,
      colours, font sizes) are left out of the records. *)

From Stdlib Require Import QArith Qround Qminmax Qabs Lqa ZArith Lia.
From stdpp Require Import base option list strings gmap fin_maps sorting.

Local Open Scope Q_scope.

(** ** JavaScript numbers *)

Module Js.

Definition ge (a b : Q) : bool := Qle_bool b a.
Definition gt (a b : Q) : bool := negb (Qle_bool a b).
Definition le (a b : Q) : bool := Qle_bool a b.
Definition lt (a b : Q) : bool := negb (Qle_bool b a).

(** [Math.round]: the nearest integer, ties towards [+∞].  The argument is
    an exact rational: where the engine rounds a product of two doubles, the
    product is exact here, and the two can fall on different sides of a
    half-integer (2.05 s at 30 fps is 61.5 exactly and a little less in
    doubles).  The properties below relate frame counts to each other and do
    not rest on which side such a product falls. *)
Definition round (x : Q) : Z := Qfloor (x + (1 # 2)).

(** [Math.max] of two and of three arguments. *)
Definition max (a b : Q) : Q := Qmax a b.
Definition max3 (a b c : Q) : Q := Qmax (Qmax a b) c.

(** [Math.abs]. *)
Definition abs (a : Q) : Q := Qabs a.

(** Truthiness of an optional string: [undefined] and [""] are falsy. *)
Definition truthy (s : option string) : bool :=
  match s with
  | Some s => negb (String.eqb s EmptyString)
  | None => false
  end.

(** [a ?? b]. *)
Definition nullish {A} (a : option A) (b : option A) : option A :=
  match a with
  | Some x => Some x
  | None => b
  end.

(** *** Plain objects used as maps

    The engine keeps its records in plain objects ([{}]) indexed by ids or
    group tags.  Such an object is modelled by the map of the properties
    assigned to it; reading it also sees what every plain object inherits
    from [Object.prototype]. *)

(** The property names of [Object.prototype]. *)
Definition objectPrototype : list string :=
  [ "constructor"; "__defineGetter__"; "__defineSetter__"; "hasOwnProperty";
    "__lookupGetter__"; "__lookupSetter__"; "isPrototypeOf";
    "propertyIsEnumerable"; "toString"; "valueOf"; "__proto__";
    "toLocaleString" ].

(** What [o[k]] evaluates to: a value that was assigned, a member inherited
    from [Object.prototype] (a function, or the prototype object itself for
    ["__proto__"]: truthy, not a number, and without any of the fields the
    engine reads), or [undefined].  An object assigned under ["__proto__"]
    becomes the prototype and is what [o["__proto__"]] reads back; the map
    keeps it under that key (its fields would then be inherited as well,
    which is not modelled: the statements about layouts are for elements not
    declared under that id). *)
Inductive Property (A : Type) : Type :=
| Own (v : A)
| Inherited
| Undefined.
Arguments Own {A} v.
Arguments Inherited {A}.
Arguments Undefined {A}.

Definition get {A} (o : gmap string A) (k : string) : Property A :=
  match o !! k with
  | Some v => Own v
  | None => if bool_decide (k ∈ objectPrototype) then Inherited else Undefined
  end.

(** [o[k] = v] for a number [v]: the setter of ["__proto__"] ignores a value
    that is not an object, any other key gets an own property. *)
Definition setNumber {A} (k : string) (v : A) (o : gmap string A)
  : gmap string A :=
  if bool_decide (k = "__proto__") then o else <[k := v]> o.

(** The message of the [TypeError] raised by reading property [prop] of
    [undefined], as V8 words it. *)
Definition typeError (prop : string) : string :=
  "Cannot read properties of undefined (reading '" +:+ prop +:+ "')".

End Js.

Coercion inject_Z : Z >-> Q.

(** ** Exceptions *)

Inductive result (A : Type) : Type :=
| Ok (a : A)
| Throw (msg : string).
Arguments Ok {A} a.
Arguments Throw {A} msg.

Definition rbind {A B} (r : result A) (k : A → result B) : result B :=
  match r with
  | Ok a => k a
  | Throw m => Throw m
  end.

#[global] Instance result_bind : MBind result :=
  fun A B k r => rbind r k.
#[global] Instance result_ret : MRet result := @Ok.

(** ** The interpolation primitive *)

(** Modelled from the spec: the engine imports [interpolate] from the
    [remotion] package, which is not part of the repository.  The spec asks
    for clamped, piecewise-linear ramps over a strictly increasing sequence
    of breakpoints; this module follows the package: a validity check on the
    breakpoints, the choice of a segment, and the clamped linear map on that
    segment. *)
Module Interp.

(** The validity check: every breakpoint is strictly above the one before
    it. *)
Fixpoint strictlyIncreasing (l : list Q) : bool :=
  match l with
  | a :: (b :: _) as tl => Js.gt b a && strictlyIncreasing tl
  | _ => true
  end.

(** Index of the segment the input falls in: the first inner breakpoint at
    or above the input ends the search. *)
Fixpoint findRangeFrom (input : Q) (inner : list Q) (i : nat) : nat :=
  match inner with
  | [] => i
  | [_] => i
  | x :: rest => if Js.ge x input then i else findRangeFrom input rest (S i)
  end.

Definition findRange (input : Q) (inputRange : list Q) : nat :=
  (findRangeFrom input (tail inputRange) 1 - 1)%nat.

(** The map on one segment, with both extrapolations set to ["clamp"] and
    the identity easing. *)
Definition interpolateSegment (input inMin inMax outMin outMax : Q) : Q :=
  let r := if Js.lt input inMin then inMin else input in
  let r := if Js.gt r inMax then inMax else r in
  if Qeq_bool outMin outMax then outMin
  else (r - inMin) / (inMax - inMin) * (outMax - outMin) + outMin.

Definition rangeError : string :=
  "inputRange must be strictly monotonically increasing".

(** The package first rejects a breakpoint that is not a finite number; the
    breakpoints passed to [interpolate] below are rationals, so a caller
    holding such a value raises the error itself.  The text of the errors
    depends on the version of the package: statements about a failure say
    that some error is raised, not which. *)
Definition finiteError : string :=
  "inputRange must contain only finite numbers".

(** Modelled from the spec: [interpolate] is imported from the [remotion]
    package, which is not part of the repository.  The spec asks for a
    clamped, piecewise-linear ramp over a strictly increasing sequence of
    breakpoints; the package rejects any other sequence with an error, which
    is what the guard in [eventEnvelope] is there to avoid.  Every call in the
    engine passes [extrapolateLeft = extrapolateRight = "clamp"]. *)
Definition interpolate (input : Q) (inputRange outputRange : list Q)
  : result Q :=
  if negb (Nat.leb 2 (length inputRange)) then
    Throw "inputRange must have at least 2 elements"
  else if negb (Nat.eqb (length inputRange) (length outputRange)) then
    Throw "inputRange and outputRange must have the same length"
  else if negb (strictlyIncreasing inputRange) then Throw rangeError
  else
    let i := findRange input inputRange in
    Ok (interpolateSegment input
          (nth i inputRange 0) (nth (S i) inputRange 0)
          (nth i outputRange 0) (nth (S i) outputRange 0)).

End Interp.

(** ** Configuration types ([src/types.ts]) *)

Record Point := { px : Q; py : Q }.

Inductive Edge := ELeft | ERight | ETop | EBottom.

(** The edge of a container reference: ["left" | "right"]. *)
Inductive SideEdge := SLeft | SRight.

Inductive ConnectionTarget :=
| NodeRef (id : string)
| ContainerRef (container : string) (edge : SideEdge).

Record GridConfig := {
  rows : Q;
  cols : Q;
  canvas : option (Q * Q);          (* width, height *)
  headerFrac : option Q;
  footerFrac : option Q;
  stepIndicatorFrac : option Q }.

Record NodeDef := {
  nd_id : string;
  nd_row : Q;
  nd_col : Q;
  nd_container : option string;
  nd_innerCol : option Q;
  nd_alignToInnerCol : option (string * Q);   (* containerId, innerCol *)
  nd_widthCols : option Q;
  nd_heightRows : option Q;
  nd_boxHeightFrac : option Q }.

Record ContainerDef := {
  cd_id : string;
  cd_fromRow : Q;
  cd_toRow : Q;
  cd_fromCol : Q;
  cd_toCol : Q;
  cd_innerCols : Q;
  cd_insetFrac : option Q }.

Record ConnectionDef := {
  cn_id : option string;
  cn_from : ConnectionTarget;
  cn_to : ConnectionTarget;
  cn_fromEdge : option Edge;
  cn_toEdge : option Edge;
  cn_label : option string;
  cn_waypoints : option (list Point) }.

Definition sideName (e : SideEdge) : string :=
  match e with SLeft => "left" | SRight => "right" end.

Definition targetId (t : ConnectionTarget) : string :=
  match t with
  | NodeRef id => id
  | ContainerRef c e => "container:" +:+ c +:+ ":" +:+ sideName e
  end.

(** [getConnectionId]. *)
Definition getConnectionId (def : ConnectionDef) : string :=
  if Js.truthy (cn_id def) then default EmptyString (cn_id def)
  else targetId (cn_from def) +:+ "->" +:+ targetId (cn_to def).

Record StepLabel := { sl_num : Z; sl_text : string }.

(** The four targeted actions of an [AnimationStep]. *)
Inductive StepAction := SFillBox | SDimBox | SDrawLine | SShowContainer.

#[warnings="-register-all"]
Inductive AnimationStep :=
| StepAct (action : StepAction) (target : string) (duration : option Q)
          (label : option StepLabel) (group : option string)
| StepHold (duration : Q)
| StepParallel (steps : list AnimationStep) (group : option string).

Inductive Phase :=
| PhaseHold (duration : Q)
| PhaseSequence (steps : list AnimationStep)
| PhaseDim (duration : Q)
| PhaseReveal (duration : Q).

Definition Timeline := list Phase.

Record ElementAnimState := {
  brightness : Q;
  drawProgress : Q;
  opacity : Q }.

Record CurrentStep := { cs_num : Z; cs_text : string; cs_progress : Q }.

Record TimelineState := {
  ts_nodes : gmap string ElementAnimState;
  ts_connections : gmap string ElementAnimState;
  ts_containers : gmap string ElementAnimState;
  currentStep : option CurrentStep;
  totalSteps : nat;
  indicatorOpacity : Q;
  globalOpacity : Q;
  globalFloor : Q }.

(** ** Timeline flattening ([src/engine/useTimeline.ts]) *)

Definition DEFAULT_FILL_DURATION : Q := 8 # 10.
Definition DEFAULT_DRAW_DURATION : Q := 4 # 10.
Definition DEFAULT_SHOW_DURATION : Q := 4 # 10.
Definition FADE_OUT_LOOKAHEAD_NODE : nat := 3.
Definition FADE_OUT_LOOKAHEAD_ARROW : nat := 2.
Definition FADE_OUT_S : Q := 4 # 10.
Definition DIM_NODE : Q := 3 # 10.
Definition DIM_ARROW : Q := 15 # 100.
Definition DIM_CONTAINER : Q := 3 # 10.

Inductive Action :=
| AFillBox | ADimBox | ADrawLine | AShowContainer | AHold | ADim | AReveal.

#[global] Instance Action_eq_dec : EqDecision Action.
Proof. solve_decision. Defined.

Inductive Source := SrcPhase | SrcStep.

#[global] Instance Source_eq_dec : EqDecision Source.
Proof. solve_decision. Defined.

Record FlatEvent := {
  action : Action;
  source : Source;
  target : option string;
  startFrame : Z;
  durationFrames : Z;
  step : option StepLabel;
  group : option string }.

Definition actionOf (a : StepAction) : Action :=
  match a with
  | SFillBox => AFillBox
  | SDimBox => ADimBox
  | SDrawLine => ADrawLine
  | SShowContainer => AShowContainer
  end.

Definition getDefaultDuration (a : StepAction) : Q :=
  match a with
  | SFillBox => DEFAULT_FILL_DURATION
  | SDimBox => DEFAULT_FILL_DURATION
  | SDrawLine => DEFAULT_DRAW_DURATION
  | SShowContainer => DEFAULT_SHOW_DURATION
  end.

(** The two variables [flattenTimeline] mutates: the event array and the
    cursor. *)
Record Flat := { events : list FlatEvent; cursor : Z }.

Definition push (e : FlatEvent) (durationFrames : Z) (s : Flat) : Flat :=
  {| events := events s ++ [e]; cursor := (cursor s + durationFrames)%Z |}.

Definition setCursor (c : Z) (s : Flat) : Flat :=
  {| events := events s; cursor := c |}.

(** The [for (const child of step.steps)] loop of a [parallel] step: every
    child restarts at [parallelStart]; the longest one is remembered. *)
Section Children.
Variable flattenChild : AnimationStep → Flat → Flat.
Variable parallelStart : Z.

Fixpoint forChildren (l : list AnimationStep) (s : Flat) (maxDuration : Z)
  : Flat * Z :=
  match l with
  | [] => (s, maxDuration)
  | child :: rest =>
      let s' := flattenChild child (setCursor parallelStart s) in
      forChildren rest s' (Z.max maxDuration (cursor s' - parallelStart))
  end.
End Children.

Section Flatten.
Variable fps : Q.

Fixpoint flattenStep (st : AnimationStep) (parentGroup : option string)
    (s : Flat) : Flat :=
  match st with
  | StepHold duration =>
      let durationFrames := Js.round (duration * fps) in
      push {| action := AHold; source := SrcStep; target := None;
              startFrame := cursor s; durationFrames := durationFrames;
              step := None; group := None |} durationFrames s
  | StepParallel steps g =>
      let parallelStart := cursor s in
      let group := Js.nullish g parentGroup in
      let '(s', maxDuration) :=
        forChildren (fun child => flattenStep child group) parallelStart
                    steps s 0%Z in
      setCursor (parallelStart + maxDuration) s'
  | StepAct a tgt duration label g =>
      let duration := default (getDefaultDuration a) duration in
      let durationFrames := Js.round (duration * fps) in
      let group := Js.nullish g parentGroup in
      push {| action := actionOf a; source := SrcStep; target := Some tgt;
              startFrame := cursor s; durationFrames := durationFrames;
              step := label; group := group |} durationFrames s
  end.

Definition phaseEvent (a : Action) (duration : Q) (s : Flat) : Flat :=
  let durationFrames := Js.round (duration * fps) in
  push {| action := a; source := SrcPhase; target := None;
          startFrame := cursor s; durationFrames := durationFrames;
          step := None; group := None |} durationFrames s.

Definition flattenPhase (s : Flat) (p : Phase) : Flat :=
  match p with
  | PhaseHold d => phaseEvent AHold d s
  | PhaseDim d => phaseEvent ADim d s
  | PhaseReveal d => phaseEvent AReveal d s
  | PhaseSequence steps =>
      foldl (fun s st => flattenStep st None s) s steps
  end.

Definition flattenTimeline (timeline : Timeline) : list FlatEvent :=
  events (foldl flattenPhase {| events := []; cursor := 0 |} timeline).

(** The latest end instant: [Math.max(...events.map(...))], 0 for no event. *)
Definition maxEnd (evs : list FlatEvent) : Z :=
  match evs with
  | [] => 0
  | e :: rest =>
      foldl (fun m e => Z.max m (startFrame e + durationFrames e))
            (startFrame e + durationFrames e)%Z rest
  end.

(** [calculateTotalDuration]. *)
Definition calculateTotalDuration (timeline : Timeline) : Z :=
  maxEnd (flattenTimeline timeline).
End Flatten.

(** ** Global floor and global opacity *)

Import Interp.

Definition isAction (a : Action) (e : FlatEvent) : bool :=
  bool_decide (action e = a).

Record Globals := { g_floor : Q; g_opacity : Q }.

(** The loop of the no-dim branch: the end of the leading phase events. *)
Fixpoint sequenceStartLoop (evs : list FlatEvent) (sequenceStart : Z) : Z :=
  match evs with
  | [] => sequenceStart
  | evt :: rest =>
      if bool_decide (source evt = SrcPhase)
         && (isAction AHold evt || isAction ADim evt || isAction AReveal evt)
      then sequenceStartLoop rest
             (Z.max sequenceStart (startFrame evt + durationFrames evt))
      else sequenceStart
  end.

(** The [if (frame >= dimEnd) ... else if (frame >= dimStart) ...] block of
    the dim branch, starting from [floor = 1] and [opacity = 1]. *)
Definition dimBranch (frame : Q) (dimStart dimEnd : Z) : result (Q * Q) :=
  let floor : Q := 1 in
  let opacity : Q := 1 in
  if Js.ge frame dimEnd then Ok (0, 0)
  else if Js.ge frame dimStart then
    o ← interpolate frame [dimStart : Q; dimEnd : Q] [1; 0]; Ok (1, o)
  else Ok (floor, opacity).

(** Once the post-dim content starts, opacity snaps back to 1. *)
Definition snapBack (frame : Q) (firstPostDimEvt : option FlatEvent)
    (opacity : Q) : Q :=
  match firstPostDimEvt with
  | Some e => if Js.ge frame (startFrame e) then 1 else opacity
  | None => opacity
  end.

(** The [if (revealEvt)] block. *)
Definition revealBranch (frame : Q) (floor : Q) (revealEvt : option FlatEvent)
  : result Q :=
  match revealEvt with
  | Some revealEvt =>
      let revealStart := startFrame revealEvt in
      let revealEnd := (revealStart + durationFrames revealEvt)%Z in
      if Js.ge frame revealEnd then Ok 1
      else if Js.ge frame revealStart then
        r ← interpolate frame [revealStart : Q; revealEnd : Q] [0; 1];
        Ok (Js.max floor r)
      else Ok floor
  | None => Ok floor
  end.

Definition firstPostDim (events : list FlatEvent) (dimEnd : Z)
  : option FlatEvent :=
  List.find (fun e => (dimEnd <=? startFrame e)%Z && negb (isAction ADim e))
            events.

Definition computeGlobals (events : list FlatEvent) (frame : Q)
  : result Globals :=
  let dimEvt := List.find (isAction ADim) events in
  let revealEvt := List.find (isAction AReveal) events in
  fo ← match dimEvt with
       | Some dimEvt =>
           let dimStart := startFrame dimEvt in
           let dimEnd := (dimStart + durationFrames dimEvt)%Z in
           let firstPostDimEvt := firstPostDim events dimEnd in
           fo ← dimBranch frame dimStart dimEnd;
           Ok (fo.1, snapBack frame firstPostDimEvt fo.2)
       | None =>
           let sequenceStart := sequenceStartLoop events 0 in
           if Js.ge frame sequenceStart then Ok (0, 1) else Ok (1, 1)
       end;
  floor ← revealBranch frame fo.1 revealEvt;
  Ok {| g_floor := floor; g_opacity := fo.2 |}.

(** ** Per-element evaluation *)

(** Loops with a body that may throw: [for (const x of l)] and
    [for (let i = 0; i < l.length; i++)]. *)
Fixpoint forEach {A St} (body : A → St → result St) (l : list A) (s : St)
  : result St :=
  match l with
  | [] => Ok s
  | x :: rest => s' ← body x s; forEach body rest s'
  end.

Fixpoint forIndex {A St} (body : nat → A → St → result St) (i : nat)
    (l : list A) (s : St) : result St :=
  match l with
  | [] => Ok s
  | x :: rest => s' ← body i x s; forIndex body (S i) rest s'
  end.

(** A number stored in [groupLatestTriggerFrame]: a frame, [Infinity] or
    [NaN]. *)
Inductive Trigger := Finite (frame : Z) | Infinity | NaN.

(** [Math.max(t, z)] for a stored value [t]. *)
Definition triggerMax (t : Trigger) (z : Z) : Trigger :=
  match t with
  | Finite x => Finite (Z.max x z)
  | Infinity => Infinity
  | NaN => NaN
  end.

(** [Math.max(o[g] ?? 0, z)]: an inherited member is not nullish and
    converts to [NaN]. *)
Definition latestOf (p : Js.Property Trigger) (z : Z) : Trigger :=
  match p with
  | Js.Own t => triggerMax t z
  | Js.Inherited => NaN
  | Js.Undefined => triggerMax (Finite 0) z
  end.

(** The [fadeOutStart] of an envelope: [null], a frame, or a value that is
    not a finite number ([NaN], or an inherited member of the group
    record). *)
Inductive FadeOutStart := NoFadeOut | FadeOutAt (frame : Z) | NotFinite.

Definition ownFadeOutStart (t : option Z) : FadeOutStart :=
  match t with
  | Some t => FadeOutAt t
  | None => NoFadeOut
  end.

(** The group of an event when [evt.group] is truthy. *)
Definition groupOf (evt : FlatEvent) : option string :=
  match group evt with
  | Some g => if Js.truthy (Some g) then Some g else None
  | None => None
  end.

Definition isTarget (evt : FlatEvent) (id : string) : bool :=
  bool_decide (target evt = Some id).

Record NodeAcc := { n_maxBright : Q; n_maxDraw : Q; n_dimAmount : Q }.
Record ConnAcc := { c_maxBright : Q; c_maxDraw : Q }.

(** The fade-out lookahead of an event: arrows 2, everything else 3. *)
Definition lookaheadOf (evt : FlatEvent) : nat :=
  if isAction ADrawLine evt then FADE_OUT_LOOKAHEAD_ARROW
  else FADE_OUT_LOOKAHEAD_NODE.

Section Evaluator.
Variables (frame fps : Q).
Variable animEvents : list FlatEvent.

Definition computeFadeOutStart (evtIndex : nat) (evt : FlatEvent)
  : option Z :=
  let triggerIdx := (evtIndex + lookaheadOf evt)%nat in
  if (length animEvents <=? triggerIdx)%nat then None
  else
    t ← animEvents !! triggerIdx;
    Some (startFrame t + durationFrames t)%Z.

(** First pass: the latest fade-out start of every group. *)
Definition groupStep (i : nat) (evt : FlatEvent) (m : gmap string Trigger)
  : gmap string Trigger :=
  match groupOf evt with
  | None => m
  | Some g =>
      match computeFadeOutStart i evt with
      | None => Js.setNumber g Infinity m
      | Some fadeOutStart =>
          Js.setNumber g (latestOf (Js.get m g) fadeOutStart) m
      end
  end.

Fixpoint groupPass (i : nat) (rest : list FlatEvent)
    (m : gmap string Trigger) : gmap string Trigger :=
  match rest with
  | [] => m
  | evt :: rest => groupPass (S i) rest (groupStep i evt m)
  end.

Definition groupLatestTriggerFrame : gmap string Trigger :=
  groupPass 0 animEvents ∅.

(** The [fadeOutStart] that [eventEnvelope] settles on before it evaluates
    the ramp: the trigger of the group, else the event's own. *)
Definition fadeOutStartOf (evt : FlatEvent) (evtIndex : nat)
  : FadeOutStart :=
  match groupOf evt with
  | Some g =>
      match Js.get groupLatestTriggerFrame g with
      | Js.Own Infinity => NoFadeOut
      | Js.Own (Finite groupTrigger) => FadeOutAt groupTrigger
      | Js.Own NaN => NotFinite
      | Js.Inherited => NotFinite
      | Js.Undefined => ownFadeOutStart (computeFadeOutStart evtIndex evt)
      end
  | None => ownFadeOutStart (computeFadeOutStart evtIndex evt)
  end.

(** With a [fadeOutStart] that is not a finite number neither the guard
    ([NaN <= fadeInEnd] is false) nor the addition repair it, and
    [interpolate] rejects the breakpoints. *)
Definition eventEnvelope (evt : FlatEvent) (evtIndex : nat) : result Q :=
  let onset := startFrame evt in
  let fadeInEnd := (onset + durationFrames evt)%Z in
  match fadeOutStartOf evt evtIndex with
  | NoFadeOut => interpolate frame [onset : Q; fadeInEnd : Q] [0; 1]
  | NotFinite => Throw finiteError
  | FadeOutAt fadeOutStart =>
      let fadeOutFrames := Js.round (FADE_OUT_S * fps) in
      let adjustedFadeOutStart :=
        if (fadeOutStart <=? fadeInEnd)%Z then (fadeInEnd + 1)%Z
        else fadeOutStart in
      let fadeOutEnd := (adjustedFadeOutStart + fadeOutFrames)%Z in
      interpolate frame
        [onset : Q; fadeInEnd : Q; adjustedFadeOutStart : Q; fadeOutEnd : Q]
        [0; 1; 1; 0]
  end.

Definition eventDrawProgress (evt : FlatEvent) : result Q :=
  interpolate frame
    [startFrame evt : Q; (startFrame evt + durationFrames evt)%Z : Q] [0; 1].

Definition elementState (dimLevel brightness drawProgress : Q)
  : ElementAnimState :=
  {| brightness := brightness;
     drawProgress := drawProgress;
     opacity := dimLevel + (1 - dimLevel) * brightness |}.

Variable globalFloor : Q.

(** *** Nodes *)

Definition nodeBody (id : string) (i : nat) (evt : FlatEvent) (a : NodeAcc)
  : result NodeAcc :=
  a ← (if isAction AFillBox evt && isTarget evt id then
         b ← eventEnvelope evt i;
         d ← eventDrawProgress evt;
         Ok {| n_maxBright := Js.max (n_maxBright a) b;
               n_maxDraw := Js.max (n_maxDraw a) d;
               n_dimAmount := n_dimAmount a |}
       else Ok a);
  if isAction ADimBox evt && isTarget evt id then
    d ← eventDrawProgress evt;
    Ok {| n_maxBright := n_maxBright a;
          n_maxDraw := n_maxDraw a;
          n_dimAmount := Js.max (n_dimAmount a) d |}
  else Ok a.

Definition nodeState (ndef : NodeDef) : result ElementAnimState :=
  a ← forIndex (nodeBody (nd_id ndef)) 0 animEvents
        {| n_maxBright := 0; n_maxDraw := 0; n_dimAmount := 0 |};
  let brightness :=
    Js.max (Js.max (n_maxBright a) globalFloor - n_dimAmount a) 0 in
  let drawProgress := Js.max (n_maxDraw a) globalFloor in
  Ok (elementState DIM_NODE brightness drawProgress).

Definition nodeStep (ndef : NodeDef) (m : gmap string ElementAnimState)
  : result (gmap string ElementAnimState) :=
  st ← nodeState ndef; Ok (<[nd_id ndef := st]> m).

(** *** Connections *)

Variable totalFrames : Z.

Definition flowEnd : Z :=
  match List.find (fun e => negb (isAction AHold e)) (rev animEvents) with
  | Some lastFlowEvent =>
      (startFrame lastFlowEvent + durationFrames lastFlowEvent
       + Js.round (2 * fps))%Z
  | None => totalFrames
  end.

Definition connBody (connId : string) (i : nat) (evt : FlatEvent)
    (a : ConnAcc) : result ConnAcc :=
  if isAction ADrawLine evt && isTarget evt connId then
    b ← eventEnvelope evt i;
    d ← eventDrawProgress evt;
    Ok {| c_maxBright := Js.max (c_maxBright a) b;
          c_maxDraw := Js.max (c_maxDraw a) d |}
  else Ok a.

Definition connState (connId : string) : result ElementAnimState :=
  a ← forIndex (connBody connId) 0 animEvents
        {| c_maxBright := 0; c_maxDraw := 0 |};
  let fadeInFrames := Js.round (DEFAULT_DRAW_DURATION * fps) in
  finalRamp ← interpolate frame
                [(flowEnd - fadeInFrames)%Z : Q; flowEnd : Q] [0; 1];
  let brightness := Js.max3 (c_maxBright a) finalRamp globalFloor in
  let drawProgress := Js.max3 (c_maxDraw a) globalFloor finalRamp in
  Ok (elementState DIM_ARROW brightness drawProgress).

Definition connStep (connId : string) (m : gmap string ElementAnimState)
  : result (gmap string ElementAnimState) :=
  st ← connState connId; Ok (<[connId := st]> m).

(** *** Containers *)

Variable nodes : list NodeDef.
Variable nodeStates : gmap string ElementAnimState.

Definition containerBody (id : string) (i : nat) (evt : FlatEvent)
    (maxBright : Q) : result Q :=
  if isAction AShowContainer evt && isTarget evt id then
    b ← eventEnvelope evt i; Ok (Js.max maxBright b)
  else Ok maxBright.

Definition innerNodeStep (id : string) (maxBright : Q) (ndef : NodeDef)
  : Q :=
  if bool_decide (nd_container ndef = Some id) then
    match nodeStates !! nd_id ndef with
    | Some st => Js.max maxBright (brightness st)
    | None => maxBright
    end
  else maxBright.

Definition containerState (cdef : ContainerDef) : result ElementAnimState :=
  maxBright ← forIndex (containerBody (cd_id cdef)) 0 animEvents 0;
  let maxBright := foldl (innerNodeStep (cd_id cdef)) maxBright nodes in
  let brightness := Js.max maxBright globalFloor in
  Ok (elementState DIM_CONTAINER brightness 1).

Definition containerStep (cdef : ContainerDef)
    (m : gmap string ElementAnimState)
  : result (gmap string ElementAnimState) :=
  st ← containerState cdef; Ok (<[cd_id cdef := st]> m).

(** *** Step indicator *)

Definition findCurrentStep : result (option CurrentStep) :=
  match List.find (fun e => bool_decide (is_Some (step e))
                            && Js.ge frame (startFrame e))
                  (rev animEvents) with
  | Some evt =>
      progress ← interpolate frame
                   [startFrame evt : Q;
                    (startFrame evt + durationFrames evt)%Z : Q] [0; 1];
      Ok (l ← step evt;
          Some {| cs_num := sl_num l; cs_text := sl_text l;
                  cs_progress := progress |})
  | None => Ok None
  end.

Definition indicator : result Q :=
  let fadeOutFrames := Js.round (FADE_OUT_S * fps) in
  sequenceIndicatorOpacity ←
    (if Js.ge frame flowEnd then Ok 0
     else interpolate frame
            [(flowEnd - fadeOutFrames * 2)%Z : Q; flowEnd : Q] [1; 0]);
  Ok (if Js.gt globalFloor (1 # 100) then 0 else sequenceIndicatorOpacity).
End Evaluator.

Definition isAnim (e : FlatEvent) : bool :=
  negb (isAction AHold e) && negb (isAction ADim e)
  && negb (isAction AReveal e).

(** The animation-only event list: [events.filter(...)]. *)
Definition animEventsOf (events : list FlatEvent) : list FlatEvent :=
  filter (fun e => isAnim e = true) events.

(** [useTimeline], with the two hook values [frame] and [fps] as arguments. *)
Definition useTimeline (timeline : Timeline) (nodes : list NodeDef)
    (connections : list ConnectionDef) (containers : list ContainerDef)
    (frame fps : Q) : result (option TimelineState) :=
  if (length timeline =? 0)%nat then Ok None
  else if Js.le fps 1 then Ok None
  else
    let events := flattenTimeline fps timeline in
    let totalFrames := maxEnd events in
    g ← computeGlobals events frame;
    let animEvents := animEventsOf events in
    let totalSteps :=
      length (filter (fun e => is_Some (step e)) animEvents) in
    let connIds := map getConnectionId connections in
    nodeStates ← forEach (nodeStep frame fps animEvents (g_floor g)) nodes ∅;
    connStates ← forEach (connStep frame fps animEvents (g_floor g)
                            totalFrames) connIds ∅;
    containerStates ← forEach (containerStep frame fps animEvents (g_floor g)
                                 nodes nodeStates) containers ∅;
    currentStep ← findCurrentStep frame animEvents;
    indicatorOpacity ← indicator frame fps animEvents (g_floor g) totalFrames;
    Ok (Some {| ts_nodes := nodeStates;
                ts_connections := connStates;
                ts_containers := containerStates;
                currentStep :=
                  if Js.gt indicatorOpacity (1 # 100) then currentStep
                  else None;
                totalSteps := totalSteps;
                indicatorOpacity := indicatorOpacity;
                globalOpacity := g_opacity g;
                globalFloor := g_floor g |}).

(** ** Grid layout ([src/engine/useGridLayout.ts]) *)

Module Layout.

Definition DEFAULT_CANVAS : Q * Q := (1920, 1080).
Definition DEFAULT_HEADER_FRAC : Q := 6 # 100.
Definition DEFAULT_FOOTER_FRAC : Q := 3 # 100.
Definition DEFAULT_STEP_INDICATOR_FRAC : Q := 5 # 100.
Definition DEFAULT_CONTAINER_INSET_FRAC : Q := 6 # 100.
Definition CONTAINER_LABEL_H : Q := 24.
Definition OUTER_BOX_W_FRAC : Q := 62 # 100.
Definition OUTER_BOX_H_FRAC : Q := 32 # 100.
Definition INNER_BOX_W_FRAC : Q := 58 # 100.
Definition INNER_BOX_H_FRAC : Q := 55 # 100.

(** The part of the theme the resolver reads: [spacing.page] and
    [spacing.element]. *)
Record Theme := { spacing_page : Q; spacing_element : Q }.

Record InnerGrid := {
  ig_left : Q; ig_top : Q; ig_cellWidth : Q; ig_cellHeight : Q }.

Record ResolvedContainer := {
  rc_def : ContainerDef;
  rc_left : Q;
  rc_top : Q;
  rc_width : Q;
  rc_height : Q;
  rc_labelHeight : Q;
  rc_innerGrid : InnerGrid }.

Record ResolvedNode := {
  rn_def : NodeDef;
  rn_center : Point;
  rn_width : Q;
  rn_height : Q;
  rn_isInner : bool }.

Record ResolvedConnection := {
  rx_def : ConnectionDef;
  rx_id : string;
  rx_points : list Point;
  rx_label : option string }.

Record ResolvedLayout := {
  l_nodes : gmap string ResolvedNode;
  l_containers : gmap string ResolvedContainer;
  l_connections : list ResolvedConnection;
  l_containerWidth : Q;
  l_containerHeight : Q;
  l_gridTop : Q;
  l_gridBottom : Q;
  l_cellWidth : Q;
  l_cellHeight : Q }.

Definition quote : string := String (Ascii.ascii_of_nat 34) EmptyString.

Definition nodeNotFound (id : string) : string :=
  "Node " +:+ quote +:+ id +:+ quote +:+ " not found in layout".

Definition containerNotFound (id : string) : string :=
  "Container " +:+ quote +:+ id +:+ quote +:+ " not found in layout".

(** [inferEdge]. *)
Definition inferEdge (from to : Point) : Edge :=
  let dx := px to - px from in
  let dy := py to - py from in
  if Js.gt (Js.abs dx) (Js.abs dy) then
    if Js.gt dx 0 then ERight else ELeft
  else
    if Js.gt dy 0 then EBottom else ETop.

Definition sideEdge (e : SideEdge) : Edge :=
  match e with SLeft => ELeft | SRight => ERight end.

Definition isHorizontal (e : Edge) : bool :=
  match e with ELeft | ERight => true | _ => false end.

(** [autoRoute]. *)
Definition autoRoute (from : Point) (fromEdge : Edge) (to : Point)
    (toEdge : Edge) : list Point :=
  if Js.lt (Js.abs (py from - py to)) 1 then [from; to]
  else if Js.lt (Js.abs (px from - px to)) 1 then [from; to]
  else if isHorizontal fromEdge && isHorizontal toEdge then
    let midX := (px from + px to) / 2 in
    [from; {| px := midX; py := py from |}; {| px := midX; py := py to |}; to]
  else if negb (isHorizontal fromEdge) && negb (isHorizontal toEdge) then
    [from; to]
  else
    let midY := (py from + py to) / 2 in
    [from; {| px := px from; py := midY |}; {| px := px to; py := midY |}; to].

Section Resolve.
Variable grid : GridConfig.
Variable theme : Theme.

Definition canvasSize : Q * Q := default DEFAULT_CANVAS (canvas grid).
Definition pad : Q := spacing_page theme.
Definition containerW : Q := canvasSize.1 - pad * 2.
Definition containerH : Q := canvasSize.2 - pad * 2.
Definition headerFracOf : Q := default DEFAULT_HEADER_FRAC (headerFrac grid).
Definition footerFracOf : Q := default DEFAULT_FOOTER_FRAC (footerFrac grid).
Definition stepFrac : Q :=
  default DEFAULT_STEP_INDICATOR_FRAC (stepIndicatorFrac grid).
Definition gridTop : Q := containerH * headerFracOf.
Definition gridBottom : Q := containerH * (1 - footerFracOf - stepFrac).
Definition gridW : Q := containerW.
Definition gridH : Q := gridBottom - gridTop.
Definition cellW : Q := gridW / cols grid.
Definition cellH : Q := gridH / rows grid.

Definition outerCellCenter (row col : Q) : Point :=
  {| px := cellW * col + cellW / 2;
     py := gridTop + cellH * row + cellH / 2 |}.

(** *** Containers *)

Definition resolveContainer (cdef : ContainerDef) : ResolvedContainer :=
  let insetFrac := default DEFAULT_CONTAINER_INSET_FRAC (cd_insetFrac cdef) in
  let mfPad := spacing_element theme in
  let left := cellW * cd_fromCol cdef + cellW * insetFrac in
  let right := cellW * (cd_toCol cdef + 1) - cellW * insetFrac in
  let rowMidY := py (outerCellCenter (cd_fromRow cdef) 0) in
  let top := rowMidY - cellH * (52 # 100) in
  let bottom := rowMidY + cellH * (52 # 100) in
  let w := right - left in
  let h := bottom - top in
  let innerLeft := left + mfPad in
  let innerRight := right - mfPad in
  let innerTop := top + mfPad + CONTAINER_LABEL_H in
  let innerBottom := bottom - mfPad in
  let innerW := innerRight - innerLeft in
  let innerH := innerBottom - innerTop in
  let innerCellW := innerW / cd_innerCols cdef in
  let innerCellH := innerH in
  {| rc_def := cdef; rc_left := left; rc_top := top; rc_width := w;
     rc_height := h; rc_labelHeight := CONTAINER_LABEL_H;
     rc_innerGrid := {| ig_left := innerLeft; ig_top := innerTop;
                        ig_cellWidth := innerCellW;
                        ig_cellHeight := innerCellH |} |}.

Definition resolveContainers (containers : list ContainerDef)
  : gmap string ResolvedContainer :=
  foldl (fun m cdef => <[cd_id cdef := resolveContainer cdef]> m) ∅
        containers.

Variable resolvedContainers : gmap string ResolvedContainer.

(** The guard [if (!c) throw] lets an inherited member through; reading
    [c.innerGrid.left] then fails on the missing [innerGrid]. *)
Definition innerCellCenter (containerId : string) (col : Q) : result Point :=
  match Js.get resolvedContainers containerId with
  | Js.Undefined => Throw (containerNotFound containerId)
  | Js.Inherited => Throw (Js.typeError "left")
  | Js.Own c =>
      let g := rc_innerGrid c in
      Ok {| px := ig_left g + ig_cellWidth g * col + ig_cellWidth g / 2;
            py := ig_top g + ig_cellHeight g / 2 |}
  end.

(** *** Nodes *)

(** The first placement mode applies when [container] is truthy and
    [innerCol] is present. *)
Definition innerPlacement (ndef : NodeDef) : option (string * Q) :=
  if Js.truthy (nd_container ndef) then
    c ← nd_container ndef; col ← nd_innerCol ndef; Some (c, col)
  else None.

Definition resolveNode (ndef : NodeDef) : result ResolvedNode :=
  let isInner := bool_decide (is_Some (nd_container ndef)) in
  cwh ← match innerPlacement ndef with
        | Some (container, innerCol) =>
            center ← innerCellCenter container innerCol;
            match Js.get resolvedContainers container with
            | Js.Own c =>
                Ok (center,
                    ig_cellWidth (rc_innerGrid c) * INNER_BOX_W_FRAC,
                    ig_cellHeight (rc_innerGrid c) * INNER_BOX_H_FRAC)
            | Js.Inherited => Throw (Js.typeError "cellWidth")
            | Js.Undefined => Throw (Js.typeError "innerGrid")
            end
        | None =>
            match nd_alignToInnerCol ndef with
            | Some (containerId, innerCol) =>
                p ← innerCellCenter containerId innerCol;
                let center :=
                  {| px := px p;
                     py := py (outerCellCenter (nd_row ndef) (nd_col ndef)) |}
                in
                Ok (center,
                    cellW * OUTER_BOX_W_FRAC,
                    cellH * default OUTER_BOX_H_FRAC (nd_boxHeightFrac ndef))
            | None =>
                let wCols := default 1 (nd_widthCols ndef) in
                let hRows := default 1 (nd_heightRows ndef) in
                let startCenter :=
                  outerCellCenter (nd_row ndef) (nd_col ndef) in
                let center :=
                  {| px := px startCenter + (cellW * (wCols - 1)) / 2;
                     py := py startCenter + (cellH * (hRows - 1)) / 2 |} in
                let w := cellW * (if Js.gt wCols 1 then wCols * (92 # 100)
                                  else OUTER_BOX_W_FRAC) in
                let defaultHFrac :=
                  if Js.gt hRows 1 then hRows * (72 # 100)
                  else if Js.gt wCols 1 then 52 # 100
                  else OUTER_BOX_H_FRAC in
                Ok (center, w,
                    cellH * default defaultHFrac (nd_boxHeightFrac ndef))
            end
        end;
  let '(center, w, h) := cwh in
  Ok {| rn_def := ndef; rn_center := center; rn_width := w; rn_height := h;
        rn_isInner := isInner |}.

Definition placeNode (ndef : NodeDef) (m : gmap string ResolvedNode)
  : result (gmap string ResolvedNode) :=
  n ← resolveNode ndef; Ok (<[nd_id ndef := n]> m).

Definition resolveNodes (nodes : list NodeDef)
  : result (gmap string ResolvedNode) :=
  forEach placeNode nodes ∅.

Variable resolvedNodes : gmap string ResolvedNode.

(** *** Edge anchors *)

(** An inherited member passes the guard; it has no [center], and reading
    [n.center.x] fails. *)
Definition nodeEdge (nodeId : string) (edge : Edge) : result Point :=
  match Js.get resolvedNodes nodeId with
  | Js.Undefined => Throw (nodeNotFound nodeId)
  | Js.Inherited => Throw (Js.typeError "x")
  | Js.Own n =>
      let hbw := rn_width n / 2 in
      let hbh := rn_height n / 2 in
      let c := rn_center n in
      Ok match edge with
         | ERight => {| px := px c + hbw; py := py c |}
         | ELeft => {| px := px c - hbw; py := py c |}
         | ETop => {| px := px c; py := py c - hbh |}
         | EBottom => {| px := px c; py := py c + hbh |}
         end
  end.

(** For an inherited member [c.left] is [undefined] and what is returned is
    no [Point].  Every call follows a [getTargetCenter] that has read
    [c.def.span] under the same key, so that an inherited member never gets
    here ([containerEdge_own] below); the case stands for a value that is
    not a point. *)
Definition containerEdge (containerId : string) (edge : SideEdge) (y : Q)
  : result Point :=
  match Js.get resolvedContainers containerId with
  | Js.Undefined => Throw (containerNotFound containerId)
  | Js.Inherited => Throw (Js.typeError "left")
  | Js.Own c =>
      Ok {| px := match edge with
                  | SLeft => rc_left c
                  | SRight => rc_left c + rc_width c
                  end;
            py := y |}
  end.

(** The center of an endpoint; [None] is [undefined], what [n.center] is
    for an inherited member that has passed the guard. *)
Definition getTargetCenter (target : ConnectionTarget)
  : result (option Point) :=
  match target with
  | NodeRef id =>
      match Js.get resolvedNodes id with
      | Js.Undefined => Throw (nodeNotFound id)
      | Js.Inherited => Ok None
      | Js.Own n => Ok (Some (rn_center n))
      end
  | ContainerRef container edge =>
      match Js.get resolvedContainers container with
      | Js.Undefined => Throw (containerNotFound container)
      | Js.Inherited => Throw (Js.typeError "span")
      | Js.Own c =>
          let y := py (outerCellCenter (cd_fromRow (rc_def c)) 0) in
          p ← containerEdge container edge y; Ok (Some p)
      end
  end.

(** *** Connections *)

(** [inferEdge(from, to)] on the centers as they come: reading [x] of an
    [undefined] center fails. *)
Definition inferEdgeOf (from to : option Point) : result Edge :=
  match from, to with
  | Some from, Some to => Ok (inferEdge from to)
  | _, _ => Throw (Js.typeError "x")
  end.

(** The edge chosen for one endpoint: the explicit override, else inferred
    for a node and taken from the reference for a container. *)
Definition endpointEdge (override : option Edge) (self : ConnectionTarget)
    (selfCenter otherCenter : option Point) : result Edge :=
  match override with
  | Some e => Ok e
  | None =>
      match self with
      | NodeRef _ => inferEdgeOf selfCenter otherCenter
      | ContainerRef _ edge =>
          Ok match edge with SLeft => ELeft | SRight => ERight end
      end
  end.

Definition anchorPoint (self : ConnectionTarget) (edge : Edge)
    (selfCenter : option Point) : result Point :=
  match self with
  | NodeRef id => nodeEdge id edge
  | ContainerRef container e =>
      match selfCenter with
      | Some center => containerEdge container e (py center)
      | None => Throw (Js.typeError "y")
      end
  end.

Definition resolveConnection (cdef : ConnectionDef)
  : result ResolvedConnection :=
  fromCenter ← getTargetCenter (cn_from cdef);
  toCenter ← getTargetCenter (cn_to cdef);
  fromEdge ←
    endpointEdge (cn_fromEdge cdef) (cn_from cdef) fromCenter toCenter;
  toEdge ← endpointEdge (cn_toEdge cdef) (cn_to cdef) toCenter fromCenter;
  fromPoint ← anchorPoint (cn_from cdef) fromEdge fromCenter;
  toPoint ← anchorPoint (cn_to cdef) toEdge toCenter;
  let points :=
    match cn_waypoints cdef with
    | Some waypoints => [fromPoint] ++ waypoints ++ [toPoint]
    | None => autoRoute fromPoint fromEdge toPoint toEdge
    end in
  Ok {| rx_def := cdef; rx_id := getConnectionId cdef; rx_points := points;
        rx_label := cn_label cdef |}.

Definition connectionStep (cdef : ConnectionDef)
    (acc : list ResolvedConnection) : result (list ResolvedConnection) :=
  c ← resolveConnection cdef; Ok (acc ++ [c]).

Definition resolveConnections (connections : list ConnectionDef)
  : result (list ResolvedConnection) :=
  forEach connectionStep connections [].
End Resolve.

(** [resolveLayout]. *)
Definition resolveLayout (grid : GridConfig) (nodes : list NodeDef)
    (containers : list ContainerDef) (connections : list ConnectionDef)
    (theme : Theme) : result ResolvedLayout :=
  let resolvedContainers := resolveContainers grid theme containers in
  resolvedNodes ← resolveNodes grid theme resolvedContainers nodes;
  resolvedConnections ←
    resolveConnections grid theme resolvedContainers resolvedNodes connections;
  Ok {| l_nodes := resolvedNodes;
        l_containers := resolvedContainers;
        l_connections := resolvedConnections;
        l_containerWidth := containerW grid theme;
        l_containerHeight := containerH grid theme;
        l_gridTop := gridTop grid theme;
        l_gridBottom := gridBottom grid theme;
        l_cellWidth := cellW grid theme;
        l_cellHeight := cellH grid theme |}.

End Layout.

(** ** The orchestrator's view ([src/engine/DiagramEngine.tsx]) *)

(** [STATIC_ANIM], the state the orchestrator falls back to. *)
Definition STATIC_ANIM : ElementAnimState :=
  {| brightness := 0; drawProgress := 1; opacity := 1 |}.

(** [timelineState?.nodes[node.def.id] ?? STATIC_ANIM]. *)
Definition nodeAnim (timelineState : option TimelineState)
    (node : Layout.ResolvedNode) : ElementAnimState :=
  match timelineState with
  | Some st => default STATIC_ANIM (ts_nodes st !! nd_id (Layout.rn_def node))
  | None => STATIC_ANIM
  end.

(** [timelineState?.connections[conn.id] ?? STATIC_ANIM]. *)
Definition connectionAnim (timelineState : option TimelineState)
    (conn : Layout.ResolvedConnection) : ElementAnimState :=
  match timelineState with
  | Some st => default STATIC_ANIM (ts_connections st !! Layout.rx_id conn)
  | None => STATIC_ANIM
  end.

(** [timelineState?.containers[container.def.id] ?? STATIC_ANIM]. *)
Definition containerAnim (timelineState : option TimelineState)
    (container : Layout.ResolvedContainer) : ElementAnimState :=
  match timelineState with
  | Some st =>
      default STATIC_ANIM (ts_containers st !! cd_id (Layout.rc_def container))
  | None => STATIC_ANIM
  end.

(** [timelineState?.globalOpacity ?? 1]. *)
Definition contentOpacity (timelineState : option TimelineState) : Q :=
  match timelineState with
  | Some st => globalOpacity st
  | None => 1
  end.

(** The condition under which the step indicator is rendered:
    [timelineState && timelineState.indicatorOpacity > 0
     && timelineState.currentStep]. *)
Definition indicatorShown (timelineState : option TimelineState) : bool :=
  match timelineState with
  | Some st =>
      Js.gt (indicatorOpacity st) 0 && bool_decide (is_Some (currentStep st))
  | None => false
  end.

(** * Vocabulary of the statements *)

(** ** Values in the unit interval *)

(** The clamped input of a segment. *)
Definition clampTo (x a b : Q) : Q :=
  let r := if Js.lt x a then a else x in
  if Js.gt r b then b else r.

(** A value in the unit interval. *)
Definition unitRange (v : Q) : Prop := 0 <= v ∧ v <= 1.

Definition nodeAccUnit (a : NodeAcc) : Prop :=
  unitRange (n_maxBright a) ∧ unitRange (n_maxDraw a)
  ∧ unitRange (n_dimAmount a).

Definition connAccUnit (a : ConnAcc) : Prop :=
  unitRange (c_maxBright a) ∧ unitRange (c_maxDraw a).

(** ** Stages of an evaluation *)

(** The stages of a successful [useTimeline] call. *)
Record Stages (timeline : Timeline) (nodes : list NodeDef)
    (connections : list ConnectionDef) (containers : list ContainerDef)
    (frame fps : Q) (st : TimelineState) : Prop := {
  stage_fps : 1 < fps;
  stage_globals :
    computeGlobals (flattenTimeline fps timeline) frame
    = Ok {| g_floor := globalFloor st; g_opacity := globalOpacity st |};
  stage_nodes :
    forEach (nodeStep frame fps
               (animEventsOf (flattenTimeline fps timeline)) (globalFloor st))
            nodes ∅ = Ok (ts_nodes st);
  stage_connections :
    forEach (connStep frame fps
               (animEventsOf (flattenTimeline fps timeline)) (globalFloor st)
               (maxEnd (flattenTimeline fps timeline)))
            (map getConnectionId connections) ∅ = Ok (ts_connections st);
  stage_containers :
    forEach (containerStep frame fps
               (animEventsOf (flattenTimeline fps timeline)) (globalFloor st)
               nodes (ts_nodes st))
            containers ∅ = Ok (ts_containers st) }.

(** No [dimBox] ramp on node [id] has advanced at [frame]. *)
Definition noDimAdvanced (anim : list FlatEvent) (frame : Q) (id : string)
  : Prop :=
  ∀ e, e ∈ anim → isAction ADimBox e = true → isTarget e id = true →
       frame <= startFrame e.

(** ** Fade-out triggers and groups *)

(** The end instant of an event. *)
Definition endFrame (e : FlatEvent) : Z := (startFrame e + durationFrames e)%Z.

(** The fade-out start after the guard of [eventEnvelope]: a start that is
    not after the fade-in end is moved to one frame after it. *)
Definition adjustedStart (fadeOutStart fadeInEnd : Z) : Z :=
  if (fadeOutStart <=? fadeInEnd)%Z then (fadeInEnd + 1)%Z else fadeOutStart.

(** [k] is the index of a member of group [g] among the events [pre]. *)
Definition member (pre : list FlatEvent) (g : string) (k : nat)
    (ek : FlatEvent) : Prop :=
  pre !! k = Some ek ∧ groupOf ek = Some g.

(** What the number [T] stored for group [g] says about the members of [g]
    among the events [pre] of the list [anim]: a frame is the latest of 0 and
    the members' own triggers, all of which exist, and the tag is not a name
    of [Object.prototype]; [Infinity] comes from a member without lookahead
    target; [NaN] from a tag that names a member of [Object.prototype] while
    every member has a lookahead target. *)
Definition settled (anim pre : list FlatEvent) (g : string) (T : Trigger)
  : Prop :=
  match T with
  | Finite t =>
      (g ∉ Js.objectPrototype) ∧ (0 <= t)%Z
      ∧ (∀ k ek, member pre g k ek →
           ∃ tk, computeFadeOutStart anim k ek = Some tk ∧ (tk <= t)%Z)
      ∧ (t = 0%Z ∨ ∃ k ek, member pre g k ek
                            ∧ computeFadeOutStart anim k ek = Some t)
  | Infinity =>
      ∃ k ek, member pre g k ek ∧ computeFadeOutStart anim k ek = None
  | NaN =>
      g ∈ Js.objectPrototype
      ∧ ∀ k ek, member pre g k ek →
                is_Some (computeFadeOutStart anim k ek)
  end.

(** What the record holds once the events [pre] of the list [anim] have been
    visited. *)
Record PassInv (anim : list FlatEvent) (m : gmap string Trigger)
    (pre : list FlatEvent) : Prop := {
  inv_proto : m !! "__proto__" = None;
  inv_stored : ∀ g k ek, member pre g k ek → g ≠ "__proto__" →
      is_Some (m !! g);
  inv_settled : ∀ g T, m !! g = Some T → settled anim pre g T }.

(** ** Flattened steps and phases *)

(** The frames a step takes, as the flattener counts them: the rounded
    duration of a leaf, the longest child of a [parallel]. *)
Fixpoint stepFrames (fps : Q) (st : AnimationStep) : Z :=
  match st with
  | StepAct a _ d _ _ =>
      Js.round (default (getDefaultDuration a) d * fps)
  | StepHold d => Js.round (d * fps)
  | StepParallel steps _ => foldl Z.max 0%Z (map (stepFrames fps) steps)
  end.

(** The events a step appends when flattened from cursor [c]. *)
Definition newEvents (fps : Q) (st : AnimationStep) (pg : option string)
    (c : Z) : list FlatEvent :=
  events (flattenStep fps st pg {| events := []; cursor := c |}).

(** All explicit durations of a step tree are non-negative. *)
Fixpoint nonnegStep (st : AnimationStep) : Prop :=
  match st with
  | StepAct _ _ d _ _ => from_option (fun d => 0 <= d) True d
  | StepHold d => 0 <= d
  | StepParallel steps _ =>
      fold_right (fun child rest => nonnegStep child ∧ rest) True steps
  end.

(** All durations of a phase are non-negative. *)
Definition nonnegPhase (p : Phase) : Prop :=
  match p with
  | PhaseHold d | PhaseDim d | PhaseReveal d => 0 <= d
  | PhaseSequence steps => Forall nonnegStep steps
  end.

(** The events a phase appends when flattened from cursor [c]. *)
Definition phaseEvents (fps : Q) (p : Phase) (c : Z) : list FlatEvent :=
  events (flattenPhase fps {| events := []; cursor := c |} p).

(** The events of [new] lie between the cursors [c] and [c']. *)
Definition within (c c' : Z) (new : list FlatEvent) : Prop :=
  ∀ e, e ∈ new → (c <= startFrame e)%Z ∧ (endFrame e <= c')%Z.

(** The loop of a [sequence] phase. *)
Definition flattenSteps (fps : Q) (s : Flat) (steps : list AnimationStep)
  : Flat :=
  foldl (fun s st => flattenStep fps st None s) s steps.

(** The flattener's state at cursor [c] with no event yet. *)
Definition fresh (c : Z) : Flat := {| events := []; cursor := c |}.

(** The group a child step declares itself. *)
Definition ownGroup (st : AnimationStep) : option string :=
  match st with
  | StepAct _ _ _ _ g => g
  | StepHold _ => None
  | StepParallel _ g => g
  end.

(** The group clause of C6 read literally: an event of a child carries the
    child's own group, else the group of the parallel node [g]. *)
Definition groupAsStated (fps : Q) (steps : list AnimationStep)
    (g pg : option string) (c : Z) : Prop :=
  ∀ child e, child ∈ steps →
             e ∈ newEvents fps child (Js.nullish g pg) c →
             group e = Js.nullish (ownGroup child) g.

(** ** References of a layout *)

(** The container a node is placed by: the one it lives in when [container]
    and [innerCol] are set, else the one it is aligned to. *)
Definition nodeContainerRef (ndef : NodeDef) : option string :=
  match Layout.innerPlacement ndef with
  | Some (container, _) => Some container
  | None => fst <$> nd_alignToInnerCol ndef
  end.

(** An endpoint names an unknown id; when the id is not the name of a member
    of [Object.prototype], the error raised is the one of the guard. *)
Definition missingTarget (nodeIds containerIds : list string)
    (t : ConnectionTarget) (msg : string) : Prop :=
  match t with
  | NodeRef id =>
      (id ∉ nodeIds)
      ∧ (id ∉ Js.objectPrototype → msg = Layout.nodeNotFound id)
  | ContainerRef cid _ =>
      (cid ∉ containerIds)
      ∧ (cid ∉ Js.objectPrototype → msg = Layout.containerNotFound cid)
  end.

(** The node or container id an endpoint refers to. *)
Definition referencedId (t : ConnectionTarget) : string :=
  match t with
  | NodeRef id => id
  | ContainerRef cid _ => cid
  end.

Definition targetPresent (nodeIds containerIds : list string)
    (t : ConnectionTarget) : Prop :=
  match t with
  | NodeRef id => id ∈ nodeIds
  | ContainerRef cid _ => cid ∈ containerIds
  end.

(** The records of a layout hold, or lack, what an endpoint refers to; the
    error raised for a lacking id that is not the name of a member of
    [Object.prototype] is the one of the guard. *)
Definition present (rc : gmap string Layout.ResolvedContainer)
    (rn : gmap string Layout.ResolvedNode) (t : ConnectionTarget) : Prop :=
  match t with
  | NodeRef id => is_Some (rn !! id)
  | ContainerRef cid _ => is_Some (rc !! cid)
  end.

Definition missing (rc : gmap string Layout.ResolvedContainer)
    (rn : gmap string Layout.ResolvedNode) (t : ConnectionTarget)
    (msg : string) : Prop :=
  match t with
  | NodeRef id =>
      rn !! id = None
      ∧ (id ∉ Js.objectPrototype → msg = Layout.nodeNotFound id)
  | ContainerRef cid _ =>
      rc !! cid = None
      ∧ (cid ∉ Js.objectPrototype → msg = Layout.containerNotFound cid)
  end.

(** A failed resolution has met a dangling reference. *)
Definition namesDangling (nodes : list NodeDef) (containers : list ContainerDef)
    (connections : list ConnectionDef) (msg : string) : Prop :=
  (∃ n cid, n ∈ nodes ∧ nodeContainerRef n = Some cid
            ∧ (cid ∉ map cd_id containers)
            ∧ (cid ∉ Js.objectPrototype
               → msg = Layout.containerNotFound cid))
  ∨ (∃ c t, c ∈ connections ∧ (t = cn_from c ∨ t = cn_to c)
            ∧ missingTarget (map nd_id nodes) (map cd_id containers) t msg).

(** The ids of a diagram are plain: nothing is declared under the id
    [__proto__], which would install the element as the prototype of the
    record, and no id that is looked up without being declared is the name
    of a member of [Object.prototype]. *)
Definition plainIds (nodes : list NodeDef) (containers : list ContainerDef)
    (connections : list ConnectionDef) : Prop :=
  ("__proto__" ∉ map nd_id nodes)
  ∧ ("__proto__" ∉ map cd_id containers)
  ∧ (∀ n cid, n ∈ nodes → nodeContainerRef n = Some cid →
              cid ∉ map cd_id containers → cid ∉ Js.objectPrototype)
  ∧ (∀ c t, c ∈ connections → t = cn_from c ∨ t = cn_to c →
            ¬ targetPresent (map nd_id nodes) (map cd_id containers) t →
            referencedId t ∉ Js.objectPrototype).

(** ** Paths *)

(** Two points on a common horizontal or vertical line. *)
Definition axisAligned (p q : Point) : Prop := px p = px q ∨ py p = py q.

(** An event of the content that follows a dim phase ending at [dimEnd]: it
    starts at or after that instant and is no dim event. *)
Definition postDim (dimEnd : Z) (e : FlatEvent) : Prop :=
  (dimEnd <= startFrame e)%Z ∧ action e ≠ ADim.


(** ** Events that an element loop evaluates *)

(** The event is ramped for a declared element: a [fillBox] or [dimBox] on a
    declared node, a [drawLine] on a declared connection or a
    [showContainer] on a declared container. *)
Definition evaluatedFor (nodes : list NodeDef)
    (connections : list ConnectionDef) (containers : list ContainerDef)
    (evt : FlatEvent) : Prop :=
  (∃ n, n ∈ nodes ∧ (action evt = AFillBox ∨ action evt = ADimBox)
        ∧ target evt = Some (nd_id n))
  ∨ (∃ c, c ∈ connections ∧ action evt = ADrawLine
          ∧ target evt = Some (getConnectionId c))
  ∨ (∃ k, k ∈ containers ∧ action evt = AShowContainer
          ∧ target evt = Some (cd_id k)).

(** ** Frames and labels of a timeline *)

(** The frames a phase takes: its rounded duration, or the frames of the
    steps of a sequence one after the other. *)
Definition phaseFrames (fps : Q) (p : Phase) : Z :=
  match p with
  | PhaseHold d | PhaseDim d | PhaseReveal d => Js.round (d * fps)
  | PhaseSequence steps =>
      fold_right (fun st n => (stepFrames fps st + n)%Z) 0%Z steps
  end.

Definition timelineFrames (fps : Q) (timeline : Timeline) : Z :=
  fold_right (fun p n => (phaseFrames fps p + n)%Z) 0%Z timeline.

(** The labelled action steps of a step tree, of a phase, of a timeline. *)
Fixpoint labelledSteps (st : AnimationStep) : nat :=
  match st with
  | StepAct _ _ _ l _ => match l with Some _ => 1 | None => 0 end
  | StepHold _ => 0
  | StepParallel steps _ =>
      fold_right (fun child n => (labelledSteps child + n)%nat) 0%nat steps
  end.

Definition labelledOfPhase (p : Phase) : nat :=
  match p with
  | PhaseSequence steps =>
      fold_right (fun st n => (labelledSteps st + n)%nat) 0%nat steps
  | _ => 0
  end.

Definition labelledOfTimeline (timeline : Timeline) : nat :=
  fold_right (fun p n => (labelledOfPhase p + n)%nat) 0%nat timeline.

(** The labelled events of an event list. *)
Definition labelled (evs : list FlatEvent) : list FlatEvent :=
  filter (fun e => is_Some (step e)) evs.

(** ** Chronological order *)

(** The events are listed by non-decreasing start frame. *)
Definition chronological (evs : list FlatEvent) : Prop :=
  StronglySorted (fun a b => (startFrame a <= startFrame b)%Z) evs.

(** The flattener's state is in order: its events are chronological and none
    starts after the cursor. *)
Definition inOrder (s : Flat) : Prop :=
  chronological (events s)
  ∧ ∀ e, e ∈ events s → (startFrame e <= cursor s)%Z.

(** ** Sample configurations *)

Definition plainNode (id : string) (row col : Q) : NodeDef :=
  {| nd_id := id; nd_row := row; nd_col := col; nd_container := None;
     nd_innerCol := None; nd_alignToInnerCol := None; nd_widthCols := None;
     nd_heightRows := None; nd_boxHeightFrac := None |}.

Definition plainConnection (from to : ConnectionTarget) : ConnectionDef :=
  {| cn_id := None; cn_from := from; cn_to := to; cn_fromEdge := None;
     cn_toEdge := None; cn_label := None; cn_waypoints := None |}.

Definition plainContainer (id : string) (fromCol toCol innerCols : Q)
  : ContainerDef :=
  {| cd_id := id; cd_fromRow := 0; cd_toRow := 0; cd_fromCol := fromCol;
     cd_toCol := toCol; cd_innerCols := innerCols; cd_insetFrac := None |}.

(** The request-flow diagram of the README. *)
Definition requestFlow : Timeline :=
  [ PhaseHold 1;
    PhaseSequence
      [ StepAct SFillBox "client" None
          (Some {| sl_num := 1; sl_text := "User sends request" |}) None;
        StepAct SDrawLine "client->api" None None None;
        StepAct SFillBox "api" None
          (Some {| sl_num := 2; sl_text := "API processes" |}) None;
        StepAct SDrawLine "api->db" None None None;
        StepAct SFillBox "db" None
          (Some {| sl_num := 3; sl_text := "Query database" |}) None ];
    PhaseReveal 1;
    PhaseHold 2 ].

Definition requestNodes : list NodeDef :=
  [plainNode "client" 0 0; plainNode "api" 0 1; plainNode "db" 0 2].

Definition requestConnections : list ConnectionDef :=
  [ plainConnection (NodeRef "client") (NodeRef "api");
    plainConnection (NodeRef "api") (NodeRef "db") ].

(** A timeline with both bookends: hold, dim, walkthrough, reveal. *)
Definition bookended : Timeline :=
  [ PhaseHold 1;
    PhaseDim 1;
    PhaseSequence
      [ StepAct SFillBox "client" None None None;
        StepAct SDrawLine "client->api" None None None ];
    PhaseReveal 1 ].

(** A reveal phase listed before the dim phase. *)
Definition revealedBeforeDim : Timeline :=
  [ PhaseReveal 1;
    PhaseDim 1;
    PhaseSequence [StepAct SFillBox "client" None None None] ].

(** A dim phase of negative length. *)
Definition negativeDim : Timeline := [PhaseHold 1; PhaseDim (-1 # 3)].

(** A connection that no [drawLine] step targets. *)
Definition undrawn : list ConnectionDef :=
  requestConnections ++ [plainConnection (NodeRef "client") (NodeRef "db")].

(** A node dimmed during the walkthrough, then revealed. *)
Definition dimmedThenRevealed : Timeline :=
  [ PhaseSequence [StepAct SDimBox "cache" None None None];
    PhaseReveal 1 ].

(** Two sample walkthroughs with a synchronization group. *)
Definition grouped : Timeline :=
  [ PhaseSequence
      [ StepAct SFillBox "a" None None (Some "g");
        StepAct SFillBox "b" None None None;
        StepAct SDrawLine "a->b" None None (Some "g");
        StepAct SFillBox "c" None None None;
        StepAct SFillBox "d" None None None;
        StepAct SFillBox "e" None None None ] ].

Definition groupedNearEnd : Timeline :=
  [ PhaseSequence
      [ StepAct SFillBox "a" None None (Some "g");
        StepAct SFillBox "b" None None None;
        StepAct SFillBox "c" None None None;
        StepAct SFillBox "d" None None None;
        StepAct SDrawLine "d->a" None None (Some "g") ] ].

(** A walkthrough whose only step takes no frame. *)
Definition zeroFrame : Timeline :=
  [PhaseSequence [StepAct SFillBox "a" (Some 0) None None]].

(** A long step started together with three short ones. *)
Definition longInParallel : Timeline :=
  [ PhaseSequence
      [ StepParallel
          [ StepAct SFillBox "a" (Some 2) None None;
            StepAct SFillBox "b" None None None;
            StepAct SFillBox "c" None None None;
            StepAct SFillBox "d" None None None ] None ] ].

(** Steps whose group tag is the empty string. *)
Definition emptyTagged : Timeline :=
  [ PhaseSequence
      [ StepAct SFillBox "a" None None (Some EmptyString);
        StepAct SFillBox "b" None None (Some EmptyString);
        StepAct SFillBox "c" None None None;
        StepAct SFillBox "d" None None None;
        StepAct SFillBox "e" None None (Some EmptyString) ] ].

(** A group near the end whose first member takes no frame. *)
Definition zeroFrameGrouped : Timeline :=
  [ PhaseSequence
      [ StepAct SFillBox "a" (Some 0) None (Some "g");
        StepAct SFillBox "b" None None (Some "g") ] ].

(** A group tagged with the name of a member of [Object.prototype]. *)
Definition constructorTagged : Timeline :=
  [ PhaseSequence
      [ StepAct SFillBox "a" None None (Some "constructor");
        StepAct SFillBox "b" None None None;
        StepAct SFillBox "c" None None None;
        StepAct SFillBox "d" None None None ] ].

(** A group on a walkthrough that a negative hold has moved before frame
    0. *)
Definition negativeGrouped : Timeline :=
  [ PhaseSequence
      [ StepHold (-10);
        StepAct SFillBox "a" None None (Some "g");
        StepAct SFillBox "b" None None (Some "g");
        StepAct SFillBox "c" None None None;
        StepAct SFillBox "d" None None None;
        StepAct SFillBox "e" None None None ] ].

(** The grid of the README: one row, three columns. *)
Definition requestGrid : GridConfig :=
  {| rows := 1; cols := 3; canvas := None; headerFrac := None;
     footerFrac := None; stepIndicatorFrac := None |}.

Definition defaultTheme : Layout.Theme :=
  {| Layout.spacing_page := 48; Layout.spacing_element := 16 |}.

(** A pipeline container above a node, joined from the container's left
    border. *)
Definition tallGrid : GridConfig :=
  {| rows := 3; cols := 2; canvas := None; headerFrac := None;
     footerFrac := None; stepIndicatorFrac := None |}.

Definition pipeToStore : ConnectionDef :=
  plainConnection (ContainerRef "pipe" SLeft) (NodeRef "store").

(** A node that lives in the container "pipe" and also carries an alignment
    to a container that does not exist. *)
Definition shadowedAlignment : NodeDef :=
  {| nd_id := "worker"; nd_row := 0; nd_col := 0;
     nd_container := Some "pipe"; nd_innerCol := Some 0;
     nd_alignToInnerCol := Some ("ghost", 0); nd_widthCols := None;
     nd_heightRows := None; nd_boxHeightFrac := None |}.

(** A node living in inner column 1 of the container "pipe", and a node two
    rows below aligned to that column. *)
Definition stageNode : NodeDef :=
  {| nd_id := "stage"; nd_row := 0; nd_col := 0;
     nd_container := Some "pipe"; nd_innerCol := Some 1;
     nd_alignToInnerCol := None; nd_widthCols := None;
     nd_heightRows := None; nd_boxHeightFrac := None |}.

Definition feedNode : NodeDef :=
  {| nd_id := "feed"; nd_row := 2; nd_col := 0; nd_container := None;
     nd_innerCol := None; nd_alignToInnerCol := Some ("pipe", 1);
     nd_widthCols := None; nd_heightRows := None;
     nd_boxHeightFrac := None |}.

(** * Properties *)

(** ** Comparisons and rounding *)

Lemma ge_true a b : Js.ge a b = true ↔ b <= a.
Proof. apply Qle_bool_iff. Qed.

Lemma ge_false a b : Js.ge a b = false ↔ a < b.
Proof.
  unfold Js.ge. rewrite <- not_true_iff_false, Qle_bool_iff.
  split; [apply Qnot_le_lt | apply Qlt_not_le].
Qed.

Lemma gt_true a b : Js.gt a b = true ↔ b < a.
Proof.
  unfold Js.gt. rewrite negb_true_iff. apply ge_false.
Qed.

Lemma gt_false a b : Js.gt a b = false ↔ a <= b.
Proof.
  unfold Js.gt. rewrite negb_false_iff. apply Qle_bool_iff.
Qed.

Lemma lt_true a b : Js.lt a b = true ↔ a < b.
Proof. unfold Js.lt. rewrite negb_true_iff. apply (ge_false a b). Qed.

Lemma lt_false a b : Js.lt a b = false ↔ b <= a.
Proof. unfold Js.lt. rewrite negb_false_iff. apply Qle_bool_iff. Qed.

Lemma Zle_inj (a b : Z) : (a <= b)%Z ↔ (a : Q) <= (b : Q).
Proof. rewrite Zle_Qle. reflexivity. Qed.

Lemma Zlt_inj (a b : Z) : (a < b)%Z ↔ (a : Q) < (b : Q).
Proof. rewrite Zlt_Qlt. reflexivity. Qed.

Lemma max_le_1 a b : a <= 1 → b <= 1 → Js.max a b <= 1.
Proof. intros. apply Q.max_lub; assumption. Qed.

Lemma max_ge_0_l a b : 0 <= a → 0 <= Js.max a b.
Proof. intros. apply Qle_trans with a; [assumption | apply Q.le_max_l]. Qed.

(** ** The interpolation primitive on two and four breakpoints *)

Lemma interpolate2 x a b o1 o2 :
  interpolate x [a; b] [o1; o2] =
  if Js.gt b a then Ok (interpolateSegment x a b o1 o2) else Throw rangeError.
Proof.
  unfold interpolate. simpl. destruct (Js.gt b a); reflexivity.
Qed.

Lemma ramp_fraction a b r :
  a < b → a <= r → r <= b → 0 <= (r - a) / (b - a) ∧ (r - a) / (b - a) <= 1.
Proof.
  intros Hab Har Hrb. split.
  - apply Qle_shift_div_l; lra.
  - apply Qle_shift_div_r; lra.
Qed.

Lemma ramp_fraction_end a b : a < b → (b - a) / (b - a) == 1.
Proof. intros. field. lra. Qed.

Lemma ramp_fraction_start a b : (a - a) / (b - a) == 0.
Proof. unfold Qdiv. ring. Qed.

Lemma clampTo_range x a b : a <= b → a <= clampTo x a b ∧ clampTo x a b <= b.
Proof.
  intros Hab. unfold clampTo.
  destruct (Js.lt x a) eqn:E1.
  - destruct (Js.gt a b) eqn:E2.
    + apply gt_true in E2. lra.
    + lra.
  - apply lt_false in E1. destruct (Js.gt x b) eqn:E2.
    + lra.
    + apply gt_false in E2. lra.
Qed.

Lemma clampTo_high x a b : a <= b → b <= x → clampTo x a b == b.
Proof.
  intros Hab Hx. unfold clampTo.
  destruct (Js.lt x a) eqn:E1.
  - apply lt_true in E1. destruct (Js.gt a b) eqn:E2; lra.
  - destruct (Js.gt x b) eqn:E2; [reflexivity|].
    apply gt_false in E2. lra.
Qed.

Lemma clampTo_low x a b : a <= b → x <= a → clampTo x a b == a.
Proof.
  intros Hab Hx. unfold clampTo.
  destruct (Js.lt x a) eqn:E1.
  - destruct (Js.gt a b) eqn:E2; [apply gt_true in E2; lra | reflexivity].
  - apply lt_false in E1. destruct (Js.gt x b) eqn:E2.
    + apply gt_true in E2. lra.
    + lra.
Qed.

Lemma clampTo_inside x a b : a <= x → x <= b → clampTo x a b = x.
Proof.
  intros Hax Hxb. unfold clampTo.
  destruct (Js.lt x a) eqn:E1; [apply lt_true in E1; lra|].
  destruct (Js.gt x b) eqn:E2; [apply gt_true in E2; lra|reflexivity].
Qed.

Lemma segment_up x a b :
  interpolateSegment x a b 0 1 == (clampTo x a b - a) / (b - a).
Proof.
  unfold interpolateSegment. fold (clampTo x a b). simpl. ring.
Qed.

Lemma segment_down x a b :
  interpolateSegment x a b 1 0 == 1 - (clampTo x a b - a) / (b - a).
Proof.
  unfold interpolateSegment. fold (clampTo x a b). simpl. ring.
Qed.

Lemma segment_flat x a b : interpolateSegment x a b 1 1 = 1.
Proof. reflexivity. Qed.

Lemma segment_up_range x a b :
  a < b → 0 <= interpolateSegment x a b 0 1 ∧ interpolateSegment x a b 0 1 <= 1.
Proof.
  intros Hab. rewrite segment_up.
  destruct (clampTo_range x a b) as [H1 H2]; [lra|].
  apply ramp_fraction; assumption.
Qed.

Lemma segment_down_range x a b :
  a < b → 0 <= interpolateSegment x a b 1 0 ∧ interpolateSegment x a b 1 0 <= 1.
Proof.
  intros Hab. rewrite segment_down.
  destruct (clampTo_range x a b) as [H1 H2]; [lra|].
  destruct (ramp_fraction a b (clampTo x a b)); [assumption ..|]. lra.
Qed.

Lemma segment_up_end x a b : a < b → b <= x → interpolateSegment x a b 0 1 == 1.
Proof.
  intros Hab Hx. rewrite segment_up, clampTo_high by lra.
  apply ramp_fraction_end. assumption.
Qed.

Lemma segment_up_start x a b : a < b → x <= a → interpolateSegment x a b 0 1 == 0.
Proof.
  intros Hab Hx. rewrite segment_up, clampTo_low by lra.
  apply ramp_fraction_start.
Qed.

Lemma interpolate4 x a b c d :
  interpolate x [a; b; c; d] [0; 1; 1; 0] =
  if Js.gt b a && (Js.gt c b && Js.gt d c) then
    Ok (if Js.ge b x then interpolateSegment x a b 0 1
        else if Js.ge c x then interpolateSegment x b c 1 1
        else interpolateSegment x c d 1 0)
  else Throw rangeError.
Proof.
  unfold interpolate, findRange. simpl.
  destruct (Js.gt b a), (Js.gt c b), (Js.gt d c); simpl; try reflexivity.
  destruct (Js.ge b x); [reflexivity|].
  destruct (Js.ge c x); reflexivity.
Qed.

Lemma unit_0 : unitRange 0.
Proof. split; lra. Qed.

Lemma unit_1 : unitRange 1.
Proof. split; lra. Qed.

Lemma unit_max a b : unitRange a → unitRange b → unitRange (Js.max a b).
Proof.
  intros [Ha0 Ha1] [Hb0 Hb1]. split.
  - apply max_ge_0_l. assumption.
  - apply max_le_1; assumption.
Qed.

Lemma interpolate_up_unit x a b v :
  interpolate x [a; b] [0; 1] = Ok v → unitRange v.
Proof.
  rewrite interpolate2. destruct (Js.gt b a) eqn:E; [|discriminate].
  intros [= <-]. apply gt_true in E. apply segment_up_range. assumption.
Qed.

Lemma interpolate_up_end x a b v :
  interpolate x [a; b] [0; 1] = Ok v → b <= x → v == 1.
Proof.
  rewrite interpolate2. destruct (Js.gt b a) eqn:E; [|discriminate].
  intros [= <-] Hx. apply gt_true in E. apply segment_up_end; assumption.
Qed.

Lemma interpolate_up_start x a b v :
  interpolate x [a; b] [0; 1] = Ok v → x <= a → v == 0.
Proof.
  rewrite interpolate2. destruct (Js.gt b a) eqn:E; [|discriminate].
  intros [= <-] Hx. apply gt_true in E. apply segment_up_start; assumption.
Qed.

Lemma interpolate_envelope_unit x a b c d v :
  interpolate x [a; b; c; d] [0; 1; 1; 0] = Ok v → unitRange v.
Proof.
  rewrite interpolate4.
  destruct (Js.gt b a) eqn:E1; [|discriminate].
  destruct (Js.gt c b) eqn:E2; [|discriminate].
  destruct (Js.gt d c) eqn:E3; [|discriminate].
  apply gt_true in E1, E2, E3. simpl. intros [= <-].
  destruct (Js.ge b x).
  - apply segment_up_range. assumption.
  - destruct (Js.ge c x).
    + rewrite segment_flat. apply unit_1.
    + apply segment_down_range. assumption.
Qed.

(** ** Loops *)

Lemma forIndex_invariant {A St} (P : St → Prop)
    (body : nat → A → St → result St) l :
  (∀ i x s s', x ∈ l → P s → body i x s = Ok s' → P s') →
  ∀ i s s', P s → forIndex body i l s = Ok s' → P s'.
Proof.
  induction l as [|x l IH]; intros Hbody i s s' Hs; simpl.
  - intros [= <-]. assumption.
  - destruct (body i x s) as [s1|] eqn:E; [|discriminate].
    cbn. apply IH.
    + intros j y t t' Hy. apply Hbody. right. assumption.
    + eapply Hbody; [left | exact Hs | exact E].
Qed.

(** A loop whose body stores [f x] under [key x]: what the final record
    holds. *)
Section Assign.
Context {A V : Type}.
Variables (key : A → string) (f : A → result V).
Variable body : A → gmap string V → result (gmap string V).
Hypothesis body_eq :
  ∀ x m, body x m = (v ← f x; Ok (<[key x := v]> m)).

Lemma assign_lookup l (m0 m : gmap string V) :
  forEach body l m0 = Ok m →
  ∀ k v, m !! k = Some v →
         m0 !! k = Some v ∨ ∃ x, x ∈ l ∧ key x = k ∧ f x = Ok v.
Proof.
  revert m0. induction l as [|x l IH]; intros m0; simpl.
  - intros [= <-] k v Hk. left. assumption.
  - rewrite body_eq. destruct (f x) as [vx|] eqn:E; [|discriminate].
    cbn. intros H k v Hk.
    destruct (IH _ H k v Hk) as [H0 | (y & Hy & Hky & Hfy)].
    + destruct (decide (key x = k)) as [Heq|Hne].
      * subst k. rewrite lookup_insert_eq in H0. injection H0 as <-.
        right. exists x. split; [left|]. split; [reflexivity | assumption].
      * rewrite lookup_insert_ne in H0 by assumption. left. assumption.
    + right. exists y. split; [right; assumption|]. split; assumption.
Qed.

Lemma assign_keeps l (m0 m : gmap string V) :
  forEach body l m0 = Ok m → ∀ k, is_Some (m0 !! k) → is_Some (m !! k).
Proof.
  revert m0. induction l as [|x l IH]; intros m0; simpl.
  - intros [= <-] k Hk. assumption.
  - rewrite body_eq. destruct (f x) as [vx|] eqn:E; [|discriminate].
    cbn. intros H k Hk. apply (IH _ H).
    rewrite lookup_insert_is_Some. destruct (decide (key x = k)); auto.
Qed.

Lemma assign_all l (m0 m : gmap string V) :
  forEach body l m0 = Ok m → ∀ x, x ∈ l → ∃ v, f x = Ok v.
Proof.
  revert m0. induction l as [|x l IH]; intros m0; simpl.
  - intros _ y Hy. inversion Hy.
  - rewrite body_eq. destruct (f x) as [vx|] eqn:E; [|discriminate].
    cbn. intros H y Hy. apply list_elem_of_In in Hy. destruct Hy as [<-|Hy].
    + eauto.
    + apply (IH _ H). apply list_elem_of_In. exact Hy.
Qed.

Lemma assign_defined l (m0 m : gmap string V) :
  forEach body l m0 = Ok m →
  ∀ x, x ∈ l → ∃ v y, m !! key x = Some v ∧ y ∈ l ∧ key y = key x
                      ∧ f y = Ok v.
Proof.
  revert m0. induction l as [|x l IH]; intros m0; simpl.
  - intros _ y Hy. inversion Hy.
  - rewrite body_eq. destruct (f x) as [vx|] eqn:E; [|discriminate].
    cbn. intros H y Hy.
    apply list_elem_of_In in Hy. destruct Hy as [<-|Hy].
    + assert (Hin : is_Some (<[key x := vx]> m0 !! key x))
        by (rewrite lookup_insert_eq; eauto).
      destruct (assign_keeps l _ _ H (key x) Hin) as [v Hv].
      destruct (assign_lookup l _ _ H _ _ Hv) as [H0|(z & Hz & Hkz & Hfz)].
      * rewrite lookup_insert_eq in H0. injection H0 as <-.
        exists vx, x. split; [assumption|]. split; [left|].
        split; [reflexivity|assumption].
      * exists v, z. split; [assumption|]. split; [right; assumption|].
        split; assumption.
    + apply list_elem_of_In in Hy.
      destruct (IH _ H y Hy) as (v & z & Hv & Hz & Hkz & Hfz).
      exists v, z. split; [assumption|]. split; [right; assumption|].
      split; assumption.
Qed.
End Assign.

(** ** Envelopes and accumulators stay in the unit interval *)

Lemma bind_Ok {A B} (r : result A) (k : A → result B) v :
  r ≫= k = Ok v → ∃ a, r = Ok a ∧ k a = Ok v.
Proof. destruct r as [a|]; [eauto | discriminate]. Qed.

Lemma max_eq a b c : a <= c → b <= c → c <= a ∨ c <= b → Js.max a b == c.
Proof.
  intros Ha Hb Hc. apply Qle_antisym.
  - apply Q.max_lub; assumption.
  - destruct Hc as [Hc|Hc].
    + apply Qle_trans with a; [assumption | apply Q.le_max_l].
    + apply Qle_trans with b; [assumption | apply Q.le_max_r].
Qed.

Lemma eventEnvelope_unit frame fps anim evt i v :
  eventEnvelope frame fps anim evt i = Ok v → unitRange v.
Proof.
  unfold eventEnvelope. destruct (fadeOutStartOf anim evt i).
  - apply interpolate_up_unit.
  - apply interpolate_envelope_unit.
  - discriminate.
Qed.

Lemma eventDrawProgress_unit frame evt v :
  eventDrawProgress frame evt = Ok v → unitRange v.
Proof. apply interpolate_up_unit. Qed.

Lemma nodeBody_unit frame fps anim id i evt a a' :
  nodeAccUnit a → nodeBody frame fps anim id i evt a = Ok a' → nodeAccUnit a'.
Proof.
  intros Ha H. unfold nodeBody in H.
  apply bind_Ok in H as (a1 & H1 & H2).
  assert (Ha1 : nodeAccUnit a1).
  { destruct (isAction AFillBox evt && isTarget evt id).
    - apply bind_Ok in H1 as (b & Hb & H1).
      apply bind_Ok in H1 as (d & Hd & H1).
      apply eventEnvelope_unit in Hb. apply eventDrawProgress_unit in Hd.
      injection H1 as <-. destruct Ha as (? & ? & ?).
      split; [|split]; cbn; auto using unit_max.
    - injection H1 as <-. assumption. }
  destruct (isAction ADimBox evt && isTarget evt id).
  - apply bind_Ok in H2 as (d & Hd & H2).
    apply eventDrawProgress_unit in Hd.
    injection H2 as <-. destruct Ha1 as (? & ? & ?).
    split; [|split]; cbn; auto using unit_max.
  - injection H2 as <-. assumption.
Qed.

Lemma nodeLoop_unit frame fps anim id a :
  forIndex (nodeBody frame fps anim id) 0 anim
    {| n_maxBright := 0; n_maxDraw := 0; n_dimAmount := 0 |} = Ok a →
  nodeAccUnit a.
Proof.
  apply (forIndex_invariant nodeAccUnit).
  - intros i x s s' _. apply nodeBody_unit.
  - split; [|split]; cbn; apply unit_0.
Qed.

Lemma connLoop_unit frame fps anim id a :
  forIndex (connBody frame fps anim id) 0 anim
    {| c_maxBright := 0; c_maxDraw := 0 |} = Ok a →
  connAccUnit a.
Proof.
  apply (forIndex_invariant connAccUnit).
  - intros i evt s s' _ (Hb & Hd). unfold connBody.
    destruct (isAction ADrawLine evt && isTarget evt id).
    + destruct (eventEnvelope frame fps anim evt i) as [b|] eqn:Eb;
        [|discriminate].
      destruct (eventDrawProgress frame evt) as [d|] eqn:Ed; cbn;
        [|discriminate].
      apply eventEnvelope_unit in Eb. apply eventDrawProgress_unit in Ed.
      intros [= <-]. split; cbn; apply unit_max; assumption.
    + intros [= <-]. split; assumption.
  - split; cbn; apply unit_0.
Qed.

Lemma containerLoop_unit frame fps anim id b :
  forIndex (containerBody frame fps anim id) 0 anim 0 = Ok b → unitRange b.
Proof.
  apply (forIndex_invariant unitRange).
  - intros i evt s s' _ Hs. unfold containerBody.
    destruct (isAction AShowContainer evt && isTarget evt id).
    + destruct (eventEnvelope frame fps anim evt i) as [v|] eqn:Eb; cbn;
        [|discriminate].
      apply eventEnvelope_unit in Eb. intros [= <-].
      apply unit_max; assumption.
    + intros [= <-]. assumption.
  - apply unit_0.
Qed.

(** ** What an element state is made of *)

Lemma nodeState_inv frame fps anim floor ndef s :
  nodeState frame fps anim floor ndef = Ok s →
  ∃ a, forIndex (nodeBody frame fps anim (nd_id ndef)) 0 anim
         {| n_maxBright := 0; n_maxDraw := 0; n_dimAmount := 0 |} = Ok a
       ∧ s = elementState DIM_NODE
               (Js.max (Js.max (n_maxBright a) floor - n_dimAmount a) 0)
               (Js.max (n_maxDraw a) floor).
Proof.
  unfold nodeState. intros H.
  apply bind_Ok in H as (a & Ha & [= <-]). eauto.
Qed.

Lemma connState_inv frame fps anim floor total id s :
  connState frame fps anim floor total id = Ok s →
  ∃ a finalRamp,
    forIndex (connBody frame fps anim id) 0 anim
      {| c_maxBright := 0; c_maxDraw := 0 |} = Ok a
    ∧ interpolate frame
        [(flowEnd fps anim total
          - Js.round (DEFAULT_DRAW_DURATION * fps))%Z : Q;
         flowEnd fps anim total : Q] [0; 1] = Ok finalRamp
    ∧ s = elementState DIM_ARROW
            (Js.max3 (c_maxBright a) finalRamp floor)
            (Js.max3 (c_maxDraw a) floor finalRamp).
Proof.
  unfold connState. intros H.
  apply bind_Ok in H as (a & Ha & H).
  apply bind_Ok in H as (r & Hr & [= <-]). eauto.
Qed.

Lemma containerState_inv frame fps anim floor nodes nodeStates cdef s :
  containerState frame fps anim floor nodes nodeStates cdef = Ok s →
  ∃ b, forIndex (containerBody frame fps anim (cd_id cdef)) 0 anim 0 = Ok b
       ∧ s = elementState DIM_CONTAINER
               (Js.max (foldl (innerNodeStep nodeStates (cd_id cdef)) b nodes)
                       floor) 1.
Proof.
  unfold containerState. intros H.
  apply bind_Ok in H as (b & Hb & [= <-]). eauto.
Qed.

Lemma useTimeline_stages timeline nodes connections containers frame fps st :
  useTimeline timeline nodes connections containers frame fps = Ok (Some st) →
  Stages timeline nodes connections containers frame fps st.
Proof.
  unfold useTimeline.
  destruct (length timeline =? 0)%nat; [discriminate|].
  destruct (Js.le fps 1) eqn:Efps; [discriminate|].
  intros H.
  apply bind_Ok in H as ([fl op] & Eg & H).
  apply bind_Ok in H as (ns & En & H).
  apply bind_Ok in H as (cs & Ec & H).
  apply bind_Ok in H as (ks & Ek & H).
  apply bind_Ok in H as (cur & _ & H).
  apply bind_Ok in H as (ind & _ & [= <-]).
  constructor; cbn; try assumption.
  apply (ge_false 1 fps). exact Efps.
Qed.

(** ** The global floor and opacity *)

Lemma dimBranch_cases frame (dimStart dimEnd : Z) :
  (dimEnd <= frame ∧ dimBranch frame dimStart dimEnd = Ok (0, 0))
  ∨ (dimStart <= frame ∧ frame < dimEnd
     ∧ dimBranch frame dimStart dimEnd
       = Ok (1, interpolateSegment frame dimStart dimEnd 1 0))
  ∨ (frame < dimStart ∧ frame < dimEnd
     ∧ dimBranch frame dimStart dimEnd = Ok (1, 1)).
Proof.
  unfold dimBranch.
  destruct (Js.ge frame dimEnd) eqn:E1.
  - left. apply ge_true in E1. auto.
  - apply ge_false in E1. destruct (Js.ge frame dimStart) eqn:E2.
    + right; left. apply ge_true in E2. rewrite interpolate2.
      assert (Hlt : (dimStart : Q) < dimEnd) by lra.
      apply gt_true in Hlt. rewrite Hlt. auto.
    + right; right. apply ge_false in E2. auto.
Qed.

Lemma revealBranch_cases frame floor r :
  let revealStart := startFrame r in
  let revealEnd := (revealStart + durationFrames r)%Z in
  (revealEnd <= frame ∧ revealBranch frame floor (Some r) = Ok 1)
  ∨ (revealStart <= frame ∧ frame < revealEnd
     ∧ revealBranch frame floor (Some r)
       = Ok (Js.max floor (interpolateSegment frame revealStart revealEnd 0 1)))
  ∨ (frame < revealStart ∧ frame < revealEnd
     ∧ revealBranch frame floor (Some r) = Ok floor).
Proof.
  intros revealStart revealEnd. unfold revealBranch.
  fold revealStart. fold revealEnd.
  destruct (Js.ge frame revealEnd) eqn:E1.
  - left. apply ge_true in E1. auto.
  - apply ge_false in E1. destruct (Js.ge frame revealStart) eqn:E2.
    + right; left. apply ge_true in E2. rewrite interpolate2.
      assert (Hlt : (revealStart : Q) < revealEnd) by lra.
      apply gt_true in Hlt. rewrite Hlt. auto.
    + right; right. apply ge_false in E2. auto.
Qed.

Lemma revealBranch_unit frame floor r v :
  unitRange floor → revealBranch frame floor r = Ok v → unitRange v.
Proof.
  intros Hf. destruct r as [r|]; [|intros [= <-]; assumption].
  destruct (revealBranch_cases frame floor r)
    as [[_ ->] | [(H1 & H2 & ->) | (_ & _ & ->)]]; intros [= <-].
  - apply unit_1.
  - apply unit_max; [assumption|]. apply segment_up_range. lra.
  - assumption.
Qed.

Lemma revealBranch_total frame floor r :
  ∃ v, revealBranch frame floor r = Ok v.
Proof.
  destruct r as [r|]; [|cbn; eauto].
  destruct (revealBranch_cases frame floor r)
    as [[_ ->] | [(_ & _ & ->) | (_ & _ & ->)]]; eauto.
Qed.

Lemma dimBranch_unit frame dimStart dimEnd fo :
  dimBranch frame dimStart dimEnd = Ok fo → unitRange fo.1 ∧ unitRange fo.2.
Proof.
  destruct (dimBranch_cases frame dimStart dimEnd)
    as [[_ ->] | [(H1 & H2 & ->) | (_ & _ & ->)]]; intros [= <-]; cbn.
  - split; apply unit_0.
  - split; [apply unit_1|]. apply segment_down_range. lra.
  - split; apply unit_1.
Qed.

Lemma dimBranch_total frame dimStart dimEnd :
  ∃ fo, dimBranch frame dimStart dimEnd = Ok fo.
Proof.
  destruct (dimBranch_cases frame dimStart dimEnd)
    as [[_ ->] | [(_ & _ & ->) | (_ & _ & ->)]]; eauto.
Qed.

Lemma snapBack_unit frame e o : unitRange o → unitRange (snapBack frame e o).
Proof.
  intros Ho. unfold snapBack. destruct e as [e|]; [|assumption].
  destruct (Js.ge frame (startFrame e)); [apply unit_1 | assumption].
Qed.

(** [computeGlobals] never throws, and both values lie in [[0,1]]. *)
Lemma computeGlobals_total events frame :
  ∃ g, computeGlobals events frame = Ok g.
Proof.
  unfold computeGlobals.
  destruct (List.find (isAction ADim) events) as [d|].
  - destruct (dimBranch_total frame (startFrame d)
                (startFrame d + durationFrames d)) as [fo ->]. cbn.
    destruct (revealBranch_total frame fo.1
                (List.find (isAction AReveal) events)) as [v ->].
    cbn. eauto.
  - destruct (Js.ge frame _); cbn;
      match goal with
      | |- context [revealBranch ?f ?x ?r] =>
          destruct (revealBranch_total f x r) as [v ->]
      end; cbn; eauto.
Qed.

Lemma computeGlobals_unit events frame g :
  computeGlobals events frame = Ok g → unitRange (g_floor g) ∧ unitRange (g_opacity g).
Proof.
  unfold computeGlobals. intros H.
  apply bind_Ok in H as (fo & Hfo & H).
  apply bind_Ok in H as (v & Hv & [= <-]). cbn.
  assert (Hu : unitRange fo.1 ∧ unitRange fo.2).
  { destruct (List.find (isAction ADim) events) as [d|].
    - apply bind_Ok in Hfo as (fo' & Hfo' & [= <-]). cbn.
      apply dimBranch_unit in Hfo' as [? ?].
      split; [assumption | apply snapBack_unit; assumption].
    - destruct (Js.ge frame _); injection Hfo as <-.
      + split; [exact unit_0 | exact unit_1].
      + split; exact unit_1. }
  destruct Hu as [Hu1 Hu2]. split; [|assumption].
  eapply revealBranch_unit; [exact Hu1 | exact Hv].
Qed.

Lemma revealBranch_lit frame floor r v :
  floor == 1 → revealBranch frame floor r = Ok v → v == 1.
Proof.
  intros Hf. destruct r as [r|]; [|intros [= <-]; assumption].
  destruct (revealBranch_cases frame floor r)
    as [[_ ->] | [(H1 & H2 & ->) | (_ & _ & ->)]]; intros [= <-].
  - reflexivity.
  - destruct (segment_up_range frame (startFrame r)
                (startFrame r + durationFrames r)%Z) as [_ Hle]; [lra|].
    apply max_eq; [lra | assumption | left; lra].
  - assumption.
Qed.

Lemma revealBranch_dark frame r v :
  revealBranch frame 0 (Some r) = Ok v →
  let rs := startFrame r in
  let re := (rs + durationFrames r)%Z in
  (frame < re → frame <= rs → v == 0)
  ∧ (rs <= frame → frame < re → v == (frame - rs) / (re - rs))
  ∧ (re <= frame → v == 1).
Proof.
  intros H rs re.
  destruct (revealBranch_cases frame 0 r)
    as [[H1 E] | [(H1 & H2 & E) | (H1 & H2 & E)]];
    rewrite E in H; injection H as <-; fold rs re in H1 |- *.
  - split; [|split]; intros; first [lra | reflexivity].
  - fold rs re in H2.
    destruct (segment_up_range frame rs re) as [Hge Hle]; [lra|].
    assert (Hmax : Js.max 0 (interpolateSegment frame rs re 0 1)
                   == interpolateSegment frame rs re 0 1)
      by (apply max_eq; [assumption | lra | right; lra]).
    split; [|split]; intros.
    + rewrite Hmax. apply segment_up_start; lra.
    + rewrite Hmax, segment_up, clampTo_inside by lra. reflexivity.
    + lra.
  - fold rs re in H2. split; [|split]; intros; first [lra | reflexivity].
Qed.

Lemma segment_down_inside x a b :
  a <= x → x <= b → interpolateSegment x a b 1 0 == 1 - (x - a) / (b - a).
Proof.
  intros. rewrite segment_down, clampTo_inside by assumption. reflexivity.
Qed.

Lemma postDim_test dimEnd e :
  (dimEnd <=? startFrame e)%Z && negb (isAction ADim e) = true
  ↔ postDim dimEnd e.
Proof.
  unfold postDim, isAction. rewrite andb_true_iff, Z.leb_le, negb_true_iff.
  rewrite bool_decide_eq_false. reflexivity.
Qed.

Lemma find_first {A} (f : A → bool) pre e post :
  Forall (fun x => f x = false) pre → f e = true →
  List.find f (pre ++ e :: post) = Some e.
Proof.
  induction 1 as [|x pre Hx _ IH]; intros He; cbn.
  - rewrite He. reflexivity.
  - rewrite Hx. apply IH. exact He.
Qed.

(** The search of the first event after the dim phase finds the first
    listed one. *)
Lemma firstPostDim_first dimEnd pre e post :
  postDim dimEnd e → Forall (fun x => ¬ postDim dimEnd x) pre →
  firstPostDim (pre ++ e :: post) dimEnd = Some e.
Proof.
  intros He Hpre. unfold firstPostDim. apply find_first.
  - eapply Forall_impl; [exact Hpre|]. intros x Hx. cbn beta in *.
    destruct ((dimEnd <=? startFrame x)%Z && negb (isAction ADim x)) eqn:E;
      [|reflexivity].
    exfalso. apply Hx. apply postDim_test. exact E.
  - apply postDim_test. exact He.
Qed.

Lemma snapBack_first events dimEnd frame o pre e post :
  events = pre ++ e :: post →
  postDim dimEnd e → Forall (fun x => ¬ postDim dimEnd x) pre →
  startFrame e <= frame →
  snapBack frame (firstPostDim events dimEnd) o = 1.
Proof.
  intros -> He Hpre Hle. rewrite (firstPostDim_first _ _ _ _ He Hpre).
  unfold snapBack. apply ge_true in Hle. rewrite Hle. reflexivity.
Qed.

Lemma snapBack_before events dimEnd frame o :
  (∀ e, e ∈ events → postDim dimEnd e → frame < startFrame e) →
  snapBack frame (firstPostDim events dimEnd) o = o.
Proof.
  intros Hall. unfold snapBack.
  destruct (firstPostDim events dimEnd) as [e|] eqn:He; [|reflexivity].
  apply find_some in He as [Hin He]. apply postDim_test in He.
  apply list_elem_of_In in Hin.
  pose proof (Hall e Hin He) as Hlt. apply ge_false in Hlt.
  rewrite Hlt. reflexivity.
Qed.

(** C4, as the code has it.  With a dim event [d] in the event list (the
    first one, as [events.find] picks it), [computeGlobals] returns and:
    strictly before the start of [d] the floor and the opacity are 1, for a
    dim phase of non-negative length; within [d] the floor is 1 and the
    opacity is the linear ramp from 1 down to 0; from the start of the first
    listed event that is no dim and starts at or after the end of [d] the
    opacity is 1 again, and from the end of [d] until then it is 0; from the
    end of [d] on the floor is 0 until the first reveal event of the list
    starts, follows the reveal ramp during it and is 1 from its end on,
    wherever that reveal is listed; without a reveal event it stays 0. *)
Theorem dim_bookend events frame d :
  List.find (isAction ADim) events = Some d →
  let dimStart := startFrame d in
  let dimEnd := (dimStart + durationFrames d)%Z in
  ∃ g, computeGlobals events frame = Ok g
    ∧ ((0 <= durationFrames d)%Z → frame < dimStart →
       g_floor g == 1 ∧ g_opacity g == 1)
    ∧ (dimStart <= frame → frame < dimEnd →
       g_floor g == 1
       ∧ g_opacity g == 1 - (frame - dimStart) / (dimEnd - dimStart))
    ∧ (∀ pre e post,
         events = pre ++ e :: post →
         postDim dimEnd e → Forall (fun x => ¬ postDim dimEnd x) pre →
         startFrame e <= frame →
         g_opacity g == 1)
    ∧ (dimEnd <= frame →
       (∀ e, e ∈ events → postDim dimEnd e → frame < startFrame e) →
       g_opacity g == 0)
    ∧ (dimEnd <= frame →
       match List.find (isAction AReveal) events with
       | None => g_floor g == 0
       | Some r =>
           let rs := startFrame r in
           let re := (rs + durationFrames r)%Z in
           (frame < re → frame <= rs → g_floor g == 0)
           ∧ (rs <= frame → frame < re →
              g_floor g == (frame - rs) / (re - rs))
           ∧ (re <= frame → g_floor g == 1)
       end).
Proof.
  intros Hd dimStart dimEnd.
  destruct (computeGlobals_total events frame) as [g Hg].
  exists g. split; [exact Hg|].
  unfold computeGlobals in Hg. rewrite Hd in Hg.
  fold dimStart dimEnd in Hg.
  apply bind_Ok in Hg as (fo & Hfo & Hg).
  apply bind_Ok in Hfo as (fo' & Hfo' & [= <-]).
  apply bind_Ok in Hg as (v & Hv & [= <-]). cbn [g_floor g_opacity fst snd] in *.
  assert (Hsnap : ∀ pre e post,
            events = pre ++ e :: post →
            postDim dimEnd e → Forall (fun x => ¬ postDim dimEnd x) pre →
            startFrame e <= frame →
            snapBack frame (firstPostDim events dimEnd) fo'.2 == 1).
  { intros pre e post Hev He Hpre Hle.
    rewrite (snapBack_first events dimEnd frame _ pre e post Hev He Hpre Hle).
    reflexivity. }
  destruct (dimBranch_cases frame dimStart dimEnd)
    as [[H1 E] | [(H1 & H2 & E) | (H1 & H2 & E)]];
    rewrite E in Hfo'; injection Hfo' as <-; cbn [fst snd] in *.
  - (* at or after the end of the dim phase *)
    split; [|split; [|split; [|split]]].
    + intros Hdur Hlt.
      assert ((dimStart : Q) <= dimEnd)
        by (apply (proj1 (Zle_inj dimStart dimEnd)); unfold dimEnd; lia).
      exfalso. lra.
    + intros. exfalso. lra.
    + exact Hsnap.
    + intros _ Hall. rewrite snapBack_before by exact Hall. reflexivity.
    + intros _. destruct (List.find (isAction AReveal) events) as [r|].
      * apply revealBranch_dark. exact Hv.
      * injection Hv as <-. reflexivity.
  - (* within the dim phase *)
    assert (Hfloor : v == 1) by (eapply revealBranch_lit; [|exact Hv]; reflexivity).
    split; [|split; [|split; [|split]]].
    + intros. exfalso. lra.
    + intros _ _. split; [exact Hfloor|].
      unfold snapBack. destruct (firstPostDim events dimEnd) as [e|] eqn:He.
      * apply find_some in He as [_ He]. apply andb_true_iff in He as [He _].
        apply Z.leb_le in He. apply (proj1 (Zle_inj _ _)) in He.
        assert (Hlt : frame < startFrame e) by lra.
        apply ge_false in Hlt. rewrite Hlt.
        apply segment_down_inside; lra.
      * apply segment_down_inside; lra.
    + exact Hsnap.
    + intros. exfalso. lra.
    + intros. exfalso. lra.
  - (* before the dim phase *)
    assert (Hfloor : v == 1) by (eapply revealBranch_lit; [|exact Hv]; reflexivity).
    split; [|split; [|split; [|split]]].
    + intros _ _. split; [exact Hfloor|].
      unfold snapBack. destruct (firstPostDim events dimEnd) as [e|];
        [destruct (Js.ge frame (startFrame e))|]; reflexivity.
    + intros. exfalso. lra.
    + exact Hsnap.
    + intros. exfalso. lra.
    + intros. exfalso. lra.
Qed.

(** ** The entries of the returned state *)

Section Entries.
Variables (timeline : Timeline) (nodes : list NodeDef).
Variables (connections : list ConnectionDef) (containers : list ContainerDef).
Variables (frame fps : Q) (st : TimelineState).
Hypothesis stages : Stages timeline nodes connections containers frame fps st.

Let events := flattenTimeline fps timeline.
Let anim := animEventsOf events.

Lemma floor_unit : unitRange (globalFloor st).
Proof.
  destruct (computeGlobals_unit _ _ _ (stage_globals _ _ _ _ _ _ _ stages))
    as [H _]. exact H.
Qed.

Lemma opacity_unit : unitRange (globalOpacity st).
Proof.
  destruct (computeGlobals_unit _ _ _ (stage_globals _ _ _ _ _ _ _ stages))
    as [_ H]. exact H.
Qed.

Lemma node_entry id s :
  ts_nodes st !! id = Some s →
  ∃ a, nodeAccUnit a
    ∧ forIndex (nodeBody frame fps anim id) 0 anim
        {| n_maxBright := 0; n_maxDraw := 0; n_dimAmount := 0 |} = Ok a
    ∧ s = elementState DIM_NODE
            (Js.max (Js.max (n_maxBright a) (globalFloor st)
                     - n_dimAmount a) 0)
            (Js.max (n_maxDraw a) (globalFloor st)).
Proof.
  intros Hs.
  destruct (assign_lookup nd_id (nodeState frame fps anim (globalFloor st))
              (nodeStep frame fps anim (globalFloor st))
              (fun _ _ => eq_refl) nodes ∅ (ts_nodes st)
              (stage_nodes _ _ _ _ _ _ _ stages) id s Hs)
    as [H0 | (n & _ & <- & Hn)].
  - rewrite lookup_empty in H0. discriminate.
  - apply nodeState_inv in Hn as (a & Ha & ->).
    exists a. split; [eapply nodeLoop_unit; exact Ha|]. split; [exact Ha|].
    reflexivity.
Qed.

Lemma node_defined n :
  n ∈ nodes → ∃ s, ts_nodes st !! nd_id n = Some s.
Proof.
  intros Hn.
  destruct (assign_defined nd_id (nodeState frame fps anim (globalFloor st))
              (nodeStep frame fps anim (globalFloor st))
              (fun _ _ => eq_refl) nodes ∅ (ts_nodes st)
              (stage_nodes _ _ _ _ _ _ _ stages) n Hn)
    as (s & _ & Hs & _). eauto.
Qed.

Lemma conn_entry id s :
  ts_connections st !! id = Some s →
  ∃ a finalRamp, connAccUnit a ∧ unitRange finalRamp
    ∧ interpolate frame
        [(flowEnd fps anim (maxEnd events)
          - Js.round (DEFAULT_DRAW_DURATION * fps))%Z : Q;
         flowEnd fps anim (maxEnd events) : Q] [0; 1] = Ok finalRamp
    ∧ s = elementState DIM_ARROW
            (Js.max3 (c_maxBright a) finalRamp (globalFloor st))
            (Js.max3 (c_maxDraw a) (globalFloor st) finalRamp).
Proof.
  intros Hs.
  destruct (assign_lookup (fun x : string => x)
              (connState frame fps anim (globalFloor st) (maxEnd events))
              (connStep frame fps anim (globalFloor st) (maxEnd events))
              (fun _ _ => eq_refl) (map getConnectionId connections) ∅
              (ts_connections st)
              (stage_connections _ _ _ _ _ _ _ stages) id s Hs)
    as [H0 | (n & _ & <- & Hn)].
  - rewrite lookup_empty in H0. discriminate.
  - apply connState_inv in Hn as (a & r & Ha & Hr & ->).
    exists a, r. split; [eapply connLoop_unit; exact Ha|].
    split; [eapply interpolate_up_unit; exact Hr|].
    split; [exact Hr | reflexivity].
Qed.

Lemma conn_defined c :
  c ∈ connections → ∃ s, ts_connections st !! getConnectionId c = Some s.
Proof.
  intros Hc.
  assert (Hin : getConnectionId c ∈ map getConnectionId connections)
    by (apply list_elem_of_fmap; eauto).
  destruct (assign_defined (fun x : string => x)
              (connState frame fps anim (globalFloor st) (maxEnd events))
              (connStep frame fps anim (globalFloor st) (maxEnd events))
              (fun _ _ => eq_refl) (map getConnectionId connections) ∅
              (ts_connections st)
              (stage_connections _ _ _ _ _ _ _ stages) _ Hin)
    as (s & _ & Hs & _). eauto.
Qed.

Lemma node_brightness_unit id s :
  ts_nodes st !! id = Some s → unitRange (brightness s).
Proof.
  intros Hs. apply node_entry in Hs as (a & (Hb & _ & Hd) & _ & ->). cbn.
  destruct floor_unit as [Hf0 Hf1]. destruct Hb as [Hb0 Hb1].
  destruct Hd as [Hd0 Hd1]. split.
  - apply Q.le_max_r.
  - apply Q.max_lub; [|lra].
    pose proof (max_le_1 (n_maxBright a) (globalFloor st) Hb1 Hf1). lra.
Qed.

Lemma innerNodes_unit id (l : list NodeDef) b :
  unitRange b → unitRange (foldl (innerNodeStep (ts_nodes st) id) b l).
Proof.
  revert b. induction l as [|n l IH]; intros b Hb; cbn; [assumption|].
  apply IH. unfold innerNodeStep.
  destruct (bool_decide (nd_container n = Some id)); [|assumption].
  destruct (ts_nodes st !! nd_id n) as [s|] eqn:E; [|assumption].
  apply unit_max; [assumption|]. eapply node_brightness_unit. exact E.
Qed.

Lemma container_entry id s :
  ts_containers st !! id = Some s →
  ∃ b, unitRange b
    ∧ s = elementState DIM_CONTAINER (Js.max b (globalFloor st)) 1.
Proof.
  intros Hs.
  destruct (assign_lookup cd_id
              (containerState frame fps anim (globalFloor st) nodes
                 (ts_nodes st))
              (containerStep frame fps anim (globalFloor st) nodes
                 (ts_nodes st))
              (fun _ _ => eq_refl) containers ∅ (ts_containers st)
              (stage_containers _ _ _ _ _ _ _ stages) id s Hs)
    as [H0 | (n & _ & <- & Hn)].
  - rewrite lookup_empty in H0. discriminate.
  - apply containerState_inv in Hn as (b & Hb & ->).
    eexists. split; [|reflexivity].
    apply innerNodes_unit. eapply containerLoop_unit. exact Hb.
Qed.

Lemma container_defined c :
  c ∈ containers → ∃ s, ts_containers st !! cd_id c = Some s.
Proof.
  intros Hc.
  destruct (assign_defined cd_id
              (containerState frame fps anim (globalFloor st) nodes
                 (ts_nodes st))
              (containerStep frame fps anim (globalFloor st) nodes
                 (ts_nodes st))
              (fun _ _ => eq_refl) containers ∅ (ts_containers st)
              (stage_containers _ _ _ _ _ _ _ stages) c Hc)
    as (s & _ & Hs & _). eauto.
Qed.
End Entries.

(** ** Opacity *)

(** C9. In every returned state the opacity of an element is
    [dimFloor + (1 - dimFloor) * brightness] with the dim floor of its kind
    (0.3 for nodes, 0.15 for connections, 0.3 for containers), so a
    brightness in [[0,1]] gives an opacity in [[dimFloor, 1]]. *)
Theorem opacity_derivation timeline nodes connections containers frame fps st :
  useTimeline timeline nodes connections containers frame fps = Ok (Some st) →
  let derived (dimFloor : Q) (s : ElementAnimState) :=
    opacity s = dimFloor + (1 - dimFloor) * brightness s
    ∧ (0 <= brightness s → brightness s <= 1 →
       0 <= dimFloor ∧ dimFloor <= opacity s ∧ opacity s <= 1) in
  (∀ id s, ts_nodes st !! id = Some s → derived (3 # 10) s)
  ∧ (∀ id s, ts_connections st !! id = Some s → derived (15 # 100) s)
  ∧ (∀ id s, ts_containers st !! id = Some s → derived (3 # 10) s).
Proof.
  intros H derived. apply useTimeline_stages in H.
  split; [|split]; intros id s Hs.
  - eapply node_entry in Hs as (a & _ & _ & ->); [|exact H].
    split; [reflexivity|]. cbn.
    unfold DIM_NODE, DIM_ARROW, DIM_CONTAINER. intros. split; [|split]; lra.
  - eapply conn_entry in Hs as (a & r & _ & _ & _ & ->); [|exact H].
    split; [reflexivity|]. cbn.
    unfold DIM_NODE, DIM_ARROW, DIM_CONTAINER. intros. split; [|split]; lra.
  - eapply container_entry in Hs as (b & _ & ->); [|exact H].
    split; [reflexivity|]. cbn.
    unfold DIM_NODE, DIM_ARROW, DIM_CONTAINER. intros. split; [|split]; lra.
Qed.

Lemma opacity_derivation_witness :
  ∃ st, useTimeline requestFlow requestNodes requestConnections [] 100 30
        = Ok (Some st)
    ∧ ∀ id s, ts_connections st !! id = Some s →
        opacity s = (15 # 100) + (1 - (15 # 100)) * brightness s.
Proof.
  assert (H : ∃ st, useTimeline requestFlow requestNodes requestConnections
                      [] 100 30 = Ok (Some st))
    by (eexists; vm_compute; reflexivity).
  destruct H as [st H]. exists st. split; [exact H|].
  intros id s Hs.
  destruct (opacity_derivation _ _ _ _ _ _ _ H) as (_ & Hc & _).
  exact (proj1 (Hc id s Hs)).
Defined.

(** Every returned brightness, draw progress and opacity lies in [[0,1]]. *)
Lemma states_unit timeline nodes connections containers frame fps st :
  useTimeline timeline nodes connections containers frame fps = Ok (Some st) →
  let inUnit (s : ElementAnimState) :=
    unitRange (brightness s) ∧ unitRange (drawProgress s) ∧ unitRange (opacity s) in
  (∀ id s, ts_nodes st !! id = Some s → inUnit s)
  ∧ (∀ id s, ts_connections st !! id = Some s → inUnit s)
  ∧ (∀ id s, ts_containers st !! id = Some s → inUnit s).
Proof.
  intros H inUnit. apply useTimeline_stages in H.
  pose proof (floor_unit _ _ _ _ _ _ _ H) as Hf.
  assert (Hop : ∀ d b, 0 <= d → d <= 1 → unitRange b → unitRange (d + (1 - d) * b)).
  { intros d b Hd0 Hd1 [Hb0 Hb1]. split; nra. }
  split; [|split]; intros id s Hs.
  - pose proof (node_brightness_unit _ _ _ _ _ _ _ H id s Hs) as Hb.
    eapply node_entry in Hs as (a & (_ & Hd & _) & _ & ->); [|exact H].
    split; [exact Hb|]. split; [apply unit_max; assumption|].
    apply Hop; [vm_compute; discriminate .. | exact Hb].
  - eapply conn_entry in Hs as (a & r & (Hb & Hd) & Hr & _ & ->); [|exact H].
    assert (unitRange (Js.max3 (c_maxBright a) r (globalFloor st)))
      by (unfold Js.max3; repeat apply unit_max; assumption).
    split; [assumption|].
    split; [unfold Js.max3; repeat apply unit_max; assumption|].
    apply Hop; [vm_compute; discriminate .. | assumption].
  - eapply container_entry in Hs as (b & Hb & ->); [|exact H].
    assert (unitRange (Js.max b (globalFloor st))) by (apply unit_max; assumption).
    split; [assumption|]. split; [apply unit_1|].
    apply Hop; [vm_compute; discriminate .. | assumption].
Qed.

Lemma dim_bookend_witness :
  ∃ d g, List.find (isAction ADim) (flattenTimeline 30 bookended) = Some d
    ∧ computeGlobals (flattenTimeline 30 bookended) 45 = Ok g
    ∧ g_floor g == 1
    ∧ g_opacity g == 1 # 2.
Proof.
  eexists.
  assert (Hd : List.find (isAction ADim) (flattenTimeline 30 bookended)
               = Some {| action := ADim; source := SrcPhase; target := None;
                         startFrame := 30; durationFrames := 30;
                         step := None; group := None |})
    by (vm_compute; reflexivity).
  destruct (dim_bookend _ 45 _ Hd) as (g & Hg & _ & Hin & _).
  exists g. split; [exact Hd|]. split; [exact Hg|].
  destruct Hin as [Hf Ho]; [vm_compute; discriminate | vm_compute; reflexivity|].
  split; [exact Hf|]. rewrite Ho. vm_compute. reflexivity.
Defined.

(** C4 as stated fails.  With the reveal listed before the dim, the reveal is
    over when the dim starts and the floor is 1, not 0, at the end of the
    dim and ever after.  And with a dim phase of negative length the floor
    is 0, not 1, at an instant strictly before the start of the dim. *)
Lemma dim_bookend_counterexample :
  (let events := flattenTimeline 30 revealedBeforeDim in
   ∃ d r g,
     List.find (isAction ADim) events = Some d
     ∧ List.find (isAction AReveal) events = Some r
     ∧ (startFrame r + durationFrames r <= startFrame d)%Z
     ∧ (startFrame d + durationFrames d)%Z = 60%Z
     ∧ computeGlobals events 60 = Ok g
     ∧ g_floor g == 1 ∧ ¬ g_floor g == 0)
  ∧ (let events := flattenTimeline 30 negativeDim in
     ∃ d g,
       List.find (isAction ADim) events = Some d
       ∧ startFrame d = 30%Z
       ∧ computeGlobals events 25 = Ok g
       ∧ g_floor g == 0 ∧ ¬ g_floor g == 1).
Proof.
  split; cbn zeta.
  - do 3 eexists. split; [vm_compute; reflexivity|].
    split; [vm_compute; reflexivity|]. split; [vm_compute; discriminate|].
    split; [vm_compute; reflexivity|]. split; [vm_compute; reflexivity|].
    split; [vm_compute; reflexivity | vm_compute; discriminate].
  - do 2 eexists. split; [vm_compute; reflexivity|].
    split; [vm_compute; reflexivity|]. split; [vm_compute; reflexivity|].
    split; [vm_compute; reflexivity | vm_compute; discriminate].
Qed.

(** ** Connections after the flow has ended *)

Lemma animEventsOf_isAnim events e :
  e ∈ animEventsOf events → isAnim e = true.
Proof.
  unfold animEventsOf. rewrite list_elem_of_filter. intros [H _]. exact H.
Qed.

Lemma isAnim_not_hold e : isAnim e = true → isAction AHold e = false.
Proof.
  unfold isAnim. destruct (isAction AHold e); [discriminate | reflexivity].
Qed.

(** The last flow event is the last animation event. *)
Lemma flowEnd_last fps events total lastEvt :
  last (animEventsOf events) = Some lastEvt →
  flowEnd fps (animEventsOf events) total
  = (startFrame lastEvt + durationFrames lastEvt + Js.round (2 * fps))%Z.
Proof.
  intros Hlast. unfold flowEnd.
  assert (Hin : lastEvt ∈ animEventsOf events).
  { apply last_Some in Hlast as [l' ->]. set_solver. }
  apply last_Some in Hlast as [l' Hl']. rewrite Hl', rev_unit. cbn.
  rewrite (isAnim_not_hold _ (animEventsOf_isAnim _ _ Hin)). reflexivity.
Qed.

Lemma max3_settled a b c :
  a <= 1 → c <= 1 → b == 1 → Js.max3 a b c == 1 ∧ Js.max3 a c b == 1.
Proof.
  intros Ha Hc Hb. unfold Js.max3. split.
  - apply max_eq; [|assumption|].
    + apply Q.max_lub; lra.
    + left. rewrite <- Hb at 1. apply Q.le_max_r.
  - apply max_eq; [|lra|right; lra].
    apply Q.max_lub; assumption.
Qed.

(** C5. Let [flowEnd] be the end of the last animation event plus the frames
    of two seconds.  In every state returned for an instant at or after
    [flowEnd], every connection of the configuration, drawn by an event or
    not, has brightness 1 and draw progress 1. *)
Theorem connection_settlement timeline nodes connections containers frame fps
    st lastEvt :
  useTimeline timeline nodes connections containers frame fps = Ok (Some st) →
  last (animEventsOf (flattenTimeline fps timeline)) = Some lastEvt →
  (startFrame lastEvt + durationFrames lastEvt + Js.round (2 * fps))%Z
  <= frame →
  ∀ c, c ∈ connections →
       ∃ s, ts_connections st !! getConnectionId c = Some s
            ∧ brightness s == 1 ∧ drawProgress s == 1.
Proof.
  intros H Hlast Hframe c Hc. apply useTimeline_stages in H.
  destruct (conn_defined _ _ _ _ _ _ _ H c Hc) as [s Hs].
  exists s. split; [exact Hs|].
  eapply conn_entry in Hs as (a & r & (Hb & Hd) & _ & Hr & ->); [|exact H].
  rewrite (flowEnd_last _ _ _ _ Hlast) in Hr.
  apply interpolate_up_end in Hr; [|exact Hframe].
  destruct (floor_unit _ _ _ _ _ _ _ H) as [_ Hf].
  destruct Hb as [_ Hb]. destruct Hd as [_ Hd]. cbn. split.
  - apply (max3_settled _ _ _ Hb Hf Hr).
  - apply (max3_settled _ _ _ Hd Hf Hr).
Qed.

Lemma connection_settlement_witness :
  ∃ st s, useTimeline requestFlow requestNodes undrawn [] 186 30
          = Ok (Some st)
    ∧ ts_connections st !! "client->db" = Some s
    ∧ brightness s == 1 ∧ drawProgress s == 1.
Proof.
  assert (H : ∃ st, useTimeline requestFlow requestNodes undrawn [] 186 30
                    = Ok (Some st))
    by (eexists; vm_compute; reflexivity).
  destruct H as [st H]. exists st.
  destruct (connection_settlement requestFlow requestNodes undrawn [] 186 30
              st
              {| action := AFillBox; source := SrcStep; target := Some "db";
                 startFrame := 102; durationFrames := 24;
                 step := Some {| sl_num := 3; sl_text := "Query database" |};
                 group := None |}
              H ltac:(vm_compute; reflexivity) ltac:(vm_compute; discriminate)
              (plainConnection (NodeRef "client") (NodeRef "db"))
              ltac:(unfold undrawn; set_solver))
    as (s & Hs & Hb & Hd).
  exists s. split; [exact H|]. split; [exact Hs|]. split; assumption.
Defined.

(** ** Floor dominance *)

Lemma nodeLoop_noDim frame fps anim id a :
  noDimAdvanced anim frame id →
  forIndex (nodeBody frame fps anim id) 0 anim
    {| n_maxBright := 0; n_maxDraw := 0; n_dimAmount := 0 |} = Ok a →
  n_dimAmount a == 0.
Proof.
  intros Hno.
  apply (forIndex_invariant (fun a => n_dimAmount a == 0));
    [|reflexivity].
  intros i e s s' He Hs H. unfold nodeBody in H.
  apply bind_Ok in H as (a1 & H1 & H2).
  assert (Ha1 : n_dimAmount a1 == 0).
  { destruct (isAction AFillBox e && isTarget e id).
    - apply bind_Ok in H1 as (b & _ & H1).
      apply bind_Ok in H1 as (d & _ & [= <-]). exact Hs.
    - injection H1 as <-. exact Hs. }
  destruct (isAction ADimBox e && isTarget e id) eqn:E.
  - apply andb_true_iff in E as [E1 E2].
    apply bind_Ok in H2 as (d & Hd & [= <-]). cbn.
    apply interpolate_up_start in Hd; [|apply Hno; assumption].
    apply max_eq; [lra | lra | left; lra].
  - injection H2 as <-. exact Ha1.
Qed.

(** X25. In every state returned with the global floor at 1, every
    connection and every container has brightness 1 and draw progress 1, and
    every node has draw progress 1, and brightness 1 when no [dimBox] ramp on
    it has advanced. *)
Theorem floor_lifts_elements timeline nodes connections containers frame fps
    st :
  useTimeline timeline nodes connections containers frame fps = Ok (Some st) →
  globalFloor st == 1 →
  (∀ c, c ∈ connections →
        ∃ s, ts_connections st !! getConnectionId c = Some s
             ∧ brightness s == 1 ∧ drawProgress s == 1)
  ∧ (∀ c, c ∈ containers →
          ∃ s, ts_containers st !! cd_id c = Some s
               ∧ brightness s == 1 ∧ drawProgress s == 1)
  ∧ (∀ n, n ∈ nodes →
          ∃ s, ts_nodes st !! nd_id n = Some s
               ∧ drawProgress s == 1
               ∧ (noDimAdvanced (animEventsOf (flattenTimeline fps timeline))
                    frame (nd_id n) →
                  brightness s == 1)).
Proof.
  intros H Hfloor. apply useTimeline_stages in H.
  split; [|split].
  - intros c Hc. destruct (conn_defined _ _ _ _ _ _ _ H c Hc) as [s Hs].
    exists s. split; [exact Hs|].
    eapply conn_entry in Hs as (a & r & (Hb & Hd) & Hr & _ & ->); [|exact H].
    destruct Hb as [_ Hb]. destruct Hd as [_ Hd]. destruct Hr as [_ Hr].
    cbn. unfold Js.max3. split.
    + apply max_eq; [apply Q.max_lub; assumption | lra | right; lra].
    + apply max_eq; [|assumption|].
      * apply Q.max_lub; [assumption | lra].
      * left. rewrite <- Hfloor at 1. apply Q.le_max_r.
  - intros c Hc. destruct (container_defined _ _ _ _ _ _ _ H c Hc) as [s Hs].
    exists s. split; [exact Hs|].
    eapply container_entry in Hs as (b & [_ Hb] & ->); [|exact H].
    cbn. split; [|reflexivity].
    apply max_eq; [assumption | lra | right; lra].
  - intros n Hn. destruct (node_defined _ _ _ _ _ _ _ H n Hn) as [s Hs].
    exists s. split; [exact Hs|].
    eapply node_entry in Hs as (a & (Hb & Hd & Hm) & Ha & ->); [|exact H].
    destruct Hb as [_ Hb]. destruct Hd as [_ Hd]. destruct Hm as [_ Hm].
    assert (Hmax : Js.max (n_maxBright a) (globalFloor st) == 1)
      by (apply max_eq; [assumption | lra | right; lra]).
    cbn. split.
    + apply max_eq; [assumption | lra | right; lra].
    + intros Hno. apply (nodeLoop_noDim _ _ _ _ _ Hno) in Ha.
      apply max_eq; [lra | lra | left; lra].
Qed.

Lemma floor_lifts_elements_witness :
  ∃ st s, useTimeline requestFlow requestNodes requestConnections [] 160 30
          = Ok (Some st)
    ∧ globalFloor st == 1
    ∧ ts_nodes st !! "client" = Some s
    ∧ brightness s == 1 ∧ drawProgress s == 1.
Proof.
  assert (H : ∃ st, useTimeline requestFlow requestNodes requestConnections
                      [] 160 30 = Ok (Some st) ∧ globalFloor st == 1)
    by (eexists; split; vm_compute; reflexivity).
  destruct H as (st & H & Hf). exists st.
  destruct (floor_lifts_elements _ _ _ _ _ _ _ H Hf) as (_ & _ & Hn).
  destruct (Hn (plainNode "client" 0 0) ltac:(unfold requestNodes; left))
    as (s & Hs & Hd & Hb).
  exists s. split; [exact H|]. split; [exact Hf|]. split; [exact Hs|].
  split; [|exact Hd]. apply Hb.
  assert (Hall : Forall (fun e => isAction ADimBox e = false)
                   (animEventsOf (flattenTimeline 30 requestFlow)))
    by (vm_compute; repeat constructor).
  intros e He Ha. rewrite Forall_forall in Hall.
  rewrite (Hall e He) in Ha. discriminate.
Defined.

(** C1.  The floor is meant to be a brightness minimum for every element,
    and the connection and container loops apply it last.  The node loop
    subtracts the [dimBox] amount after it: at the end of the reveal the
    floor is 1 and the container is returned with brightness 1, yet the node
    that a completed [dimBox] targets is returned with brightness 0. *)
Theorem dimmed_node_below_floor :
  ∃ st s k, useTimeline dimmedThenRevealed [plainNode "cache" 0 0] []
              [plainContainer "pipe" 0 1 2] 54 30 = Ok (Some st)
    ∧ globalFloor st == 1
    ∧ ts_containers st !! "pipe" = Some k
    ∧ brightness k == 1 ∧ drawProgress k == 1
    ∧ ts_nodes st !! "cache" = Some s
    ∧ drawProgress s == 1
    ∧ brightness s == 0 ∧ ¬ brightness s == 1.
Proof.
  do 3 eexists. split; [vm_compute; reflexivity|].
  split; [vm_compute; reflexivity|].
  split; [vm_compute; reflexivity|].
  split; [vm_compute; reflexivity|].
  split; [vm_compute; reflexivity|].
  split; [vm_compute; reflexivity|].
  split; [vm_compute; reflexivity|].
  split; [vm_compute; reflexivity | vm_compute; discriminate].
Qed.

(** ** Fade-out triggers *)

Lemma computeFadeOutStart_lookup anim i evt :
  computeFadeOutStart anim i evt
  = endFrame <$> anim !! (i + lookaheadOf evt)%nat.
Proof.
  unfold computeFadeOutStart.
  destruct (length anim <=? i + lookaheadOf evt)%nat eqn:E.
  - apply Nat.leb_le in E. rewrite (lookup_ge_None_2 _ _ E). reflexivity.
  - destruct (anim !! (i + lookaheadOf evt)%nat); reflexivity.
Qed.

Lemma computeFadeOutStart_None anim i evt :
  computeFadeOutStart anim i evt = None
  ↔ (length anim <= i + lookaheadOf evt)%nat.
Proof.
  rewrite computeFadeOutStart_lookup, fmap_None. apply lookup_ge_None.
Qed.

(** The plain fade-in ramp of an event without fade-out. *)
Lemma envelope_without_fade_out frame fps anim evt i :
  fadeOutStartOf anim evt i = NoFadeOut →
  eventEnvelope frame fps anim evt i
  = interpolate frame [startFrame evt : Q; endFrame evt : Q] [0; 1]
  ∧ ((0 < durationFrames evt)%Z →
     ∃ v, eventEnvelope frame fps anim evt i = Ok v
          ∧ v == (clampTo frame (startFrame evt) (endFrame evt)
                  - startFrame evt) / (endFrame evt - startFrame evt)
          ∧ (endFrame evt <= frame → v == 1)).
Proof.
  intros Hnone. unfold eventEnvelope. rewrite Hnone.
  split; [reflexivity|]. intros Hdur.
  assert (Hlt : (startFrame evt : Q) < endFrame evt)
    by (apply (proj1 (Zlt_inj _ _)); unfold endFrame; lia).
  fold (endFrame evt). rewrite interpolate2.
  rewrite (proj2 (gt_true _ _) Hlt).
  eexists. split; [reflexivity|]. split.
  - apply segment_up.
  - intros Hend. apply segment_up_end; assumption.
Qed.

Lemma segment_down_end x a b : a < b → b <= x → interpolateSegment x a b 1 0 == 0.
Proof.
  intros Hab Hx. rewrite segment_down, clampTo_high by lra.
  rewrite ramp_fraction_end by assumption. lra.
Qed.

(** The envelope of an event whose fade-out starts at [t]: up, a plateau,
    down. *)
Lemma envelope_with_fade_out frame fps anim evt i t :
  fadeOutStartOf anim evt i = FadeOutAt t →
  let start := adjustedStart t (endFrame evt) in
  let fadeOutFrames := Js.round (FADE_OUT_S * fps) in
  eventEnvelope frame fps anim evt i
  = interpolate frame
      [startFrame evt : Q; endFrame evt : Q; start : Q;
       (start + fadeOutFrames)%Z : Q] [0; 1; 1; 0]
  ∧ ((0 < durationFrames evt)%Z → (0 < fadeOutFrames)%Z →
     ∃ v, eventEnvelope frame fps anim evt i = Ok v
          ∧ unitRange v
          ∧ (frame <= startFrame evt → v == 0)
          ∧ (endFrame evt <= frame → frame <= start → v == 1)
          ∧ (start <= frame → frame <= (start + fadeOutFrames)%Z →
             v == 1 - (frame - start) / fadeOutFrames)
          ∧ ((start + fadeOutFrames)%Z <= frame → v == 0)).
Proof.
  intros Hfade start fadeOutFrames.
  assert (Heq : eventEnvelope frame fps anim evt i
                = interpolate frame
                    [startFrame evt : Q; endFrame evt : Q; start : Q;
                     (start + fadeOutFrames)%Z : Q] [0; 1; 1; 0]).
  { unfold eventEnvelope. rewrite Hfade. reflexivity. }
  split; [exact Heq|]. intros Hdur Hfo. rewrite Heq.
  assert (H1z : (startFrame evt < endFrame evt)%Z) by (unfold endFrame; lia).
  assert (H2z : (endFrame evt < start)%Z).
  { unfold start, adjustedStart. destruct (Z.leb_spec t (endFrame evt)); lia. }
  assert (H3z : (start < start + fadeOutFrames)%Z) by lia.
  pose proof (proj1 (Zlt_inj _ _) H1z) as H1.
  pose proof (proj1 (Zlt_inj _ _) H2z) as H2.
  pose proof (proj1 (Zlt_inj _ _) H3z) as H3.
  rewrite interpolate4.
  rewrite (proj2 (gt_true _ _) H1), (proj2 (gt_true _ _) H2),
    (proj2 (gt_true _ _) H3). cbn [andb].
  eexists. split; [reflexivity|].
  assert (Hlen : inject_Z (start + fadeOutFrames) - inject_Z start
                 == inject_Z fadeOutFrames)
    by (rewrite inject_Z_plus; ring).
  destruct (Js.ge (endFrame evt) frame) eqn:E1.
  - apply ge_true in E1.
    destruct (segment_up_range frame (startFrame evt) (endFrame evt) H1)
      as [Hb0 Hb1].
    split; [split; assumption|]. split; [|split; [|split]].
    + intros Hx. apply segment_up_start; assumption.
    + intros Hx _. apply segment_up_end; assumption.
    + intros Hx. exfalso. lra.
    + intros Hx. exfalso. lra.
  - apply ge_false in E1. destruct (Js.ge start frame) eqn:E2.
    + apply ge_true in E2. rewrite segment_flat.
      split; [split; lra|]. split; [|split; [|split]].
      * intros Hx. exfalso. lra.
      * intros _ _. reflexivity.
      * intros Hx _.
        assert (Hz : frame - inject_Z start == 0) by lra.
        rewrite Hz. unfold Qdiv. ring.
      * intros Hx. exfalso. lra.
    + apply ge_false in E2.
      destruct (segment_down_range frame start (start + fadeOutFrames)%Z H3)
        as [Hb0 Hb1].
      split; [split; assumption|]. split; [|split; [|split]].
      * intros Hx. exfalso. lra.
      * intros _ Hx. exfalso. lra.
      * intros _ Hx. rewrite segment_down_inside by lra.
        rewrite Hlen. reflexivity.
      * intros Hx. apply segment_down_end; assumption.
Qed.

(** C2, as the code has it.  An ungrouped animation event at index [i] takes
    as fade-out trigger the end instant of the event [N] places later in the
    animation list, [N = 2] for a [drawLine] and [N = 3] otherwise.  With such
    an event the envelope is the ramp over the event's start, its end, the
    fade-out start and the fade-out end, where the fade-out starts at the
    trigger, or one frame after the event's own end when the trigger is not
    later than it; for an event and a fade-out of at least one frame each it
    is 0 up to the start, 1 from the end to the fade-out start, and falls
    linearly to 0 over the fade-out frames.  Without such an event there is
    no fade-out: the envelope is the clamped linear fade-in ramp, which for
    an event of at least one frame is 1 from the fade-in end on. *)
Theorem fade_out_lookahead frame fps anim i evt :
  anim !! i = Some evt →
  groupOf evt = None →
  let N := if isAction ADrawLine evt then 2%nat else 3%nat in
  let fadeOutFrames := Js.round (FADE_OUT_S * fps) in
  computeFadeOutStart anim i evt = endFrame <$> anim !! (i + N)%nat
  ∧ match anim !! (i + N)%nat with
    | Some later =>
        let start := adjustedStart (endFrame later) (endFrame evt) in
        eventEnvelope frame fps anim evt i
        = interpolate frame
            [startFrame evt : Q; endFrame evt : Q; start : Q;
             (start + fadeOutFrames)%Z : Q] [0; 1; 1; 0]
        ∧ ((0 < durationFrames evt)%Z → (0 < fadeOutFrames)%Z →
           ∃ v, eventEnvelope frame fps anim evt i = Ok v
                ∧ (frame <= startFrame evt → v == 0)
                ∧ (endFrame evt <= frame → frame <= start → v == 1)
                ∧ (start <= frame → frame <= (start + fadeOutFrames)%Z →
                   v == 1 - (frame - start) / fadeOutFrames)
                ∧ ((start + fadeOutFrames)%Z <= frame → v == 0))
    | None =>
        eventEnvelope frame fps anim evt i
        = interpolate frame [startFrame evt : Q; endFrame evt : Q] [0; 1]
        ∧ ((0 < durationFrames evt)%Z →
           ∃ v, eventEnvelope frame fps anim evt i = Ok v
                ∧ v == (clampTo frame (startFrame evt) (endFrame evt)
                        - startFrame evt) / (endFrame evt - startFrame evt)
                ∧ (endFrame evt <= frame → v == 1))
    end.
Proof.
  intros _ Hg N fadeOutFrames.
  assert (Hown : computeFadeOutStart anim i evt
                 = endFrame <$> anim !! (i + N)%nat)
    by apply computeFadeOutStart_lookup.
  split; [exact Hown|].
  assert (Hf : fadeOutStartOf anim evt i
               = ownFadeOutStart (endFrame <$> anim !! (i + N)%nat)).
  { unfold fadeOutStartOf. rewrite Hg, Hown. reflexivity. }
  destruct (anim !! (i + N)%nat) as [later|]; cbn in Hf.
  - destruct (envelope_with_fade_out frame fps anim evt i _ Hf)
      as [Heq Hval].
    split; [exact Heq|]. intros Hdur Hfo.
    destruct (Hval Hdur Hfo) as (v & Hv & _ & H0 & H1 & H2 & H3).
    exists v. auto.
  - apply envelope_without_fade_out. exact Hf.
Qed.

Lemma fade_out_lookahead_witness :
  let anim := animEventsOf (flattenTimeline 30 requestFlow) in
  ∃ evt v, anim !! 0%nat = Some evt ∧ groupOf evt = None
           ∧ computeFadeOutStart anim 0 evt = Some 102%Z
           ∧ eventEnvelope 108 30 anim evt 0 = Ok v ∧ v == 1 # 2.
Proof.
  intros anim.
  assert (H : ∃ evt later,
            anim !! 0%nat = Some evt ∧ groupOf evt = None
            ∧ isAction ADrawLine evt = false
            ∧ anim !! 3%nat = Some later
            ∧ endFrame later = 102%Z ∧ endFrame evt = 54%Z
            ∧ (0 < durationFrames evt)%Z).
  { do 2 eexists. split; [vm_compute; reflexivity|].
    split; [vm_compute; reflexivity|]. split; [vm_compute; reflexivity|].
    split; [vm_compute; reflexivity|]. split; [vm_compute; reflexivity|].
    split; vm_compute; reflexivity. }
  destruct H as (evt & later & H0 & Hg & Hd & H3 & Hl & He & Hdur).
  pose proof (fade_out_lookahead 108 30 anim 0 evt H0 Hg) as Hthm.
  cbn zeta in Hthm. rewrite Hd in Hthm. cbn [Nat.add] in Hthm.
  rewrite H3 in Hthm. destruct Hthm as [Hown [_ Hval]].
  destruct (Hval Hdur ltac:(vm_compute; reflexivity))
    as (v & Hv & _ & _ & Hfall & _).
  exists evt, v. split; [exact H0|]. split; [exact Hg|].
  split; [rewrite Hown; cbn; rewrite Hl; reflexivity|].
  split; [exact Hv|].
  rewrite Hfall; rewrite Hl, He; vm_compute; first [reflexivity | discriminate].
Defined.

(** C2 as stated fails.  An event that takes no frame has no envelope at
    all, so nothing stays at 1: the interpolation rejects its breakpoints at
    every instant.  And the fade-out need not start at the trigger: a long
    step started together with three short ones has the trigger 24, before
    its own end 60, and its fade-out starts at 61. *)
Lemma fade_out_lookahead_counterexample :
  (let anim := animEventsOf (flattenTimeline 30 zeroFrame) in
   ∃ evt, anim !! 0%nat = Some evt ∧ groupOf evt = None
          ∧ anim !! 3%nat = None ∧ endFrame evt <= 10
          ∧ ∀ frame, ∃ msg, eventEnvelope frame 30 anim evt 0 = Throw msg)
  ∧ (let anim := animEventsOf (flattenTimeline 30 longInParallel) in
     ∃ evt v w, anim !! 0%nat = Some evt ∧ groupOf evt = None
                ∧ computeFadeOutStart anim 0 evt = Some 24%Z
                ∧ endFrame evt = 60%Z
                ∧ eventEnvelope 61 30 anim evt 0 = Ok v ∧ v == 1
                ∧ eventEnvelope 67 30 anim evt 0 = Ok w ∧ w == 1 # 2).
Proof.
  split.
  - cbn zeta. eexists. split; [vm_compute; reflexivity|].
    split; [vm_compute; reflexivity|]. split; [vm_compute; reflexivity|].
    split; [vm_compute; discriminate|].
    intros frame. exists rangeError.
    unfold eventEnvelope. cbn [fadeOutStartOf groupOf group].
    change (fadeOutStartOf
              (animEventsOf (flattenTimeline 30 zeroFrame))
              {| action := AFillBox; source := SrcStep; target := Some "a";
                 startFrame := 0; durationFrames := 0; step := None;
                 group := None |} 0) with NoFadeOut.
    rewrite interpolate2. reflexivity.
  - cbn zeta. do 3 eexists. split; [vm_compute; reflexivity|].
    split; [vm_compute; reflexivity|]. split; [vm_compute; reflexivity|].
    split; [vm_compute; reflexivity|]. split; [vm_compute; reflexivity|].
    split; [vm_compute; reflexivity|]. split; vm_compute; reflexivity.
Qed.

(** ** The first pass over the groups *)

Lemma setNumber_eq {A} g (v : A) (m : gmap string A) :
  g ≠ "__proto__" → Js.setNumber g v m !! g = Some v.
Proof.
  intros H. unfold Js.setNumber. rewrite bool_decide_eq_false_2 by exact H.
  apply lookup_insert_eq.
Qed.

Lemma setNumber_ne {A} g g' (v : A) (m : gmap string A) :
  g ≠ g' → Js.setNumber g v m !! g' = m !! g'.
Proof.
  intros H. unfold Js.setNumber.
  destruct (bool_decide (g = "__proto__")); [reflexivity|].
  apply lookup_insert_ne. exact H.
Qed.

Lemma setNumber_proto {A} g (v : A) (m : gmap string A) :
  Js.setNumber "__proto__" v m = m
  ∧ (m !! "__proto__" = None → Js.setNumber g v m !! "__proto__" = None).
Proof.
  split; [reflexivity|]. intros H. unfold Js.setNumber.
  destruct (bool_decide (g = "__proto__")) eqn:E; [exact H|].
  apply bool_decide_eq_false in E. rewrite lookup_insert_ne by exact E.
  exact H.
Qed.

Lemma proto_inherited : "__proto__" ∈ Js.objectPrototype.
Proof.
  unfold Js.objectPrototype. do 10 right. left.
Qed.

Section GroupPass.
Variable anim : list FlatEvent.

Lemma member_snoc pre e g k ek :
  member (pre ++ [e]) g k ek ↔
  member pre g k ek ∨ (k = length pre ∧ ek = e ∧ groupOf e = Some g).
Proof.
  unfold member. rewrite lookup_app_Some. split.
  - intros [[H | [Hle H]] Hg]; [left; auto|].
    right. destruct (k - length pre)%nat as [|n] eqn:E; [|discriminate].
    injection H as <-. split; [lia|]. auto.
  - intros [[H Hg] | (-> & -> & Hg)]; [auto|].
    split; [|exact Hg]. right. split; [lia|].
    rewrite Nat.sub_diag. reflexivity.
Qed.

(** An event of another group leaves what is stored for [g] as it is. *)
Lemma settled_other pre e g T :
  groupOf e ≠ Some g → settled anim pre g T → settled anim (pre ++ [e]) g T.
Proof.
  intros Hne. destruct T as [t| |]; cbn.
  - intros (Hn & H0 & Hall & Hatt). split; [exact Hn|]. split; [exact H0|].
    split.
    + intros k ek Hm. apply member_snoc in Hm as [Hm | (_ & _ & Hg)];
        [auto | contradiction].
    + destruct Hatt as [-> | (k & ek & Hm & Hs)]; [left; reflexivity|].
      right. exists k, ek. split; [apply member_snoc; auto | exact Hs].
  - intros (k & ek & Hm & Hs). exists k, ek.
    split; [apply member_snoc; auto | exact Hs].
  - intros [Hin Hall]. split; [exact Hin|].
    intros k ek Hm. apply member_snoc in Hm as [Hm | (_ & _ & Hg)];
      [auto | contradiction].
Qed.

Lemma PassInv_empty : PassInv anim ∅ [].
Proof.
  constructor.
  - apply lookup_empty.
  - intros g k ek [H _]. rewrite lookup_nil in H. discriminate.
  - intros g T H. rewrite lookup_empty in H. discriminate.
Qed.

(** An event without group, or tagged ["__proto__"], stores nothing. *)
Lemma PassInv_skip m pre e :
  PassInv anim m pre →
  (∀ g, groupOf e = Some g → g = "__proto__") →
  PassInv anim m (pre ++ [e]).
Proof.
  intros [Hp Hs Hset] Hskip. constructor.
  - exact Hp.
  - intros g k ek Hm Hne. apply member_snoc in Hm as [Hm | (_ & _ & Hg)].
    + eapply Hs; eassumption.
    + exfalso. apply Hne. apply Hskip. exact Hg.
  - intros g T HT. apply settled_other; [|apply Hset; exact HT].
    intros Hg. apply Hskip in Hg. subst g. rewrite Hp in HT. discriminate.
Qed.

(** An event of group [g0] stores [T], which says the right thing about the
    members visited so far. *)
Lemma PassInv_store m pre e g0 T :
  PassInv anim m pre →
  groupOf e = Some g0 → g0 ≠ "__proto__" →
  settled anim (pre ++ [e]) g0 T →
  PassInv anim (Js.setNumber g0 T m) (pre ++ [e]).
Proof.
  intros [Hp Hs Hset] Hg0 Hne HT. constructor.
  - apply setNumber_proto. exact Hp.
  - intros g k ek Hm Hg. destruct (decide (g0 = g)) as [<-|Hd].
    + rewrite setNumber_eq by exact Hne. eauto.
    + rewrite setNumber_ne by exact Hd.
      apply member_snoc in Hm as [Hm | (_ & _ & Hg')]; [|congruence].
      eapply Hs; eassumption.
  - intros g T' HT'. destruct (decide (g0 = g)) as [<-|Hd].
    + rewrite setNumber_eq in HT' by exact Hne. injection HT' as <-. exact HT.
    + rewrite setNumber_ne in HT' by exact Hd.
      apply settled_other; [congruence | apply Hset; exact HT'].
Qed.

Lemma PassInv_step m pre e :
  PassInv anim m pre →
  PassInv anim (groupStep anim (length pre) e m) (pre ++ [e]).
Proof.
  intros Hinv. pose proof Hinv as [Hp Hs Hset]. unfold groupStep.
  destruct (groupOf e) as [g0|] eqn:Eg;
    [|apply PassInv_skip; [exact Hinv | rewrite Eg; discriminate]].
  destruct (decide (g0 = "__proto__")) as [->|Hne].
  { assert (Hsame : ∀ T, Js.setNumber "__proto__" T m = m) by reflexivity.
    destruct (computeFadeOutStart anim (length pre) e); rewrite Hsame;
      apply PassInv_skip; try exact Hinv; rewrite Eg; intros g [= <-];
      reflexivity. }
  assert (Hnew : member (pre ++ [e]) g0 (length pre) e)
    by (apply member_snoc; right; auto).
  destruct (computeFadeOutStart anim (length pre) e) as [f|] eqn:Ef.
  2: { apply PassInv_store; [exact Hinv | exact Eg | exact Hne|].
       cbn. exists (length pre), e. auto. }
  apply PassInv_store; [exact Hinv | exact Eg | exact Hne|].
  unfold Js.get. destruct (m !! g0) as [T|] eqn:Em.
  - (* the group has a stored number already *)
    pose proof (Hset _ _ Em) as HT. destruct T as [x| |]; cbn in HT |- *.
    + destruct HT as (Hn & H0 & Hall & Hatt).
      split; [exact Hn|]. split; [lia|]. split.
      * intros k ek Hm. apply member_snoc in Hm as [Hm | (-> & -> & _)].
        -- destruct (Hall _ _ Hm) as (tk & Htk & Hle).
           exists tk. split; [exact Htk | lia].
        -- exists f. split; [exact Ef | lia].
      * destruct (Z.max_spec x f) as [[_ ->] | [_ ->]].
        -- right. exists (length pre), e. auto.
        -- destruct Hatt as [-> | (k & ek & Hm & Hk)]; [left; reflexivity|].
           right. exists k, ek. split; [apply member_snoc; auto | exact Hk].
    + destruct HT as (k & ek & Hm & Hk). exists k, ek.
      split; [apply member_snoc; auto | exact Hk].
    + destruct HT as [Hin Hall]. split; [exact Hin|].
      intros k ek Hm. apply member_snoc in Hm as [Hm | (-> & -> & _)];
        [auto | rewrite Ef; eauto].
  - (* first member of the group *)
    assert (Hfirst : ∀ k ek, member (pre ++ [e]) g0 k ek →
                             k = length pre ∧ ek = e).
    { intros k ek Hm. apply member_snoc in Hm as [Hm | (-> & -> & _)];
        [|auto].
      destruct (Hs _ _ _ Hm Hne) as [T HT]. congruence. }
    destruct (bool_decide (g0 ∈ Js.objectPrototype)) eqn:Ein; cbn.
    + apply bool_decide_eq_true in Ein. split; [exact Ein|].
      intros k ek Hm. destruct (Hfirst _ _ Hm) as [-> ->].
      rewrite Ef. eauto.
    + apply bool_decide_eq_false in Ein. split; [exact Ein|].
      split; [lia|]. split.
      * intros k ek Hm. destruct (Hfirst _ _ Hm) as [-> ->].
        exists f. split; [exact Ef | lia].
      * destruct (Z.max_spec 0 f) as [[_ ->] | [_ ->]].
        -- right. exists (length pre), e. auto.
        -- left. reflexivity.
Qed.

Lemma PassInv_loop rest pre m :
  PassInv anim m pre →
  PassInv anim (groupPass anim (length pre) rest m) (pre ++ rest).
Proof.
  revert pre m. induction rest as [|e rest IH]; intros pre m Hinv; cbn.
  - rewrite app_nil_r. exact Hinv.
  - replace (pre ++ e :: rest) with ((pre ++ [e]) ++ rest)
      by (rewrite <- app_assoc; reflexivity).
    replace (S (length pre)) with (length (pre ++ [e]))
      by (rewrite length_app; cbn; lia).
    apply IH. apply PassInv_step. exact Hinv.
Qed.

Lemma PassInv_final : PassInv anim (groupLatestTriggerFrame anim) anim.
Proof. apply (PassInv_loop anim [] ∅ PassInv_empty). Qed.
End GroupPass.

Lemma groupOf_Some evt g :
  group evt = Some g → g ≠ EmptyString → groupOf evt = Some g.
Proof.
  intros Hg Hne. unfold groupOf. rewrite Hg. cbn.
  destruct (String.eqb_spec g EmptyString); [contradiction | reflexivity].
Qed.

Lemma groupOf_group evt g : groupOf evt = Some g → group evt = Some g.
Proof.
  unfold groupOf. destruct (group evt) as [g'|]; [|discriminate].
  destruct (Js.truthy (Some g')); congruence.
Qed.

(** The fade-out start of a grouped event is read from the entry of its
    group; a group tagged ["__proto__"] has none and reads the prototype. *)
Lemma fadeOutStartOf_member anim g i ei :
  member anim g i ei →
  (g = "__proto__" ∧ fadeOutStartOf anim ei i = NotFinite)
  ∨ (g ≠ "__proto__"
     ∧ ∃ T, groupLatestTriggerFrame anim !! g = Some T
            ∧ settled anim anim g T
            ∧ fadeOutStartOf anim ei i
              = match T with
                | Finite t => FadeOutAt t
                | Infinity => NoFadeOut
                | NaN => NotFinite
                end).
Proof.
  intros Hm. pose proof (PassInv_final anim) as [Hp Hs Hset].
  unfold fadeOutStartOf, Js.get. destruct Hm as [Hi Hg]. rewrite Hg.
  destruct (decide (g = "__proto__")) as [->|Hne].
  - left. split; [reflexivity|]. rewrite Hp.
    rewrite bool_decide_eq_true_2 by apply proto_inherited. reflexivity.
  - right. split; [exact Hne|].
    destruct (Hs g i ei (conj Hi Hg) Hne) as [T HT]. exists T.
    split; [exact HT|]. split; [apply Hset; exact HT|].
    rewrite HT. destruct T; reflexivity.
Qed.

(** C3, as the code has it.  Two animation events with the same group tag,
    a non-empty tag that does not name a member of [Object.prototype], get
    the same fade-out start, read from the record that the first pass over
    the animation list has built.  When every member of the group has a
    lookahead target it is an instant: the latest of 0 and the members' own
    lookahead triggers, and the envelope of each member is the ramp over its
    own start and end, that common instant after the guard, and the end of
    the fade-out.  When a member has no lookahead target there is none. *)
Theorem group_synchrony anim g i j ei ej :
  anim !! i = Some ei → group ei = Some g →
  anim !! j = Some ej → group ej = Some g →
  g ≠ EmptyString → g ∉ Js.objectPrototype →
  fadeOutStartOf anim ei i = fadeOutStartOf anim ej j
  ∧ ((∃ k ek, anim !! k = Some ek ∧ group ek = Some g
              ∧ computeFadeOutStart anim k ek = None) →
     fadeOutStartOf anim ei i = NoFadeOut)
  ∧ ((∀ k ek, anim !! k = Some ek → group ek = Some g →
              is_Some (computeFadeOutStart anim k ek)) →
     ∃ t, fadeOutStartOf anim ei i = FadeOutAt t
          ∧ groupLatestTriggerFrame anim !! g = Some (Finite t)
          ∧ (0 <= t)%Z
          ∧ (∀ k ek, anim !! k = Some ek → group ek = Some g →
               ∃ tk, computeFadeOutStart anim k ek = Some tk ∧ (tk <= t)%Z)
          ∧ (t = 0%Z ∨ ∃ k ek, anim !! k = Some ek ∧ group ek = Some g
                               ∧ computeFadeOutStart anim k ek = Some t)
          ∧ ∀ frame fps,
              let start := adjustedStart t (endFrame ei) in
              eventEnvelope frame fps anim ei i
              = interpolate frame
                  [startFrame ei : Q; endFrame ei : Q; start : Q;
                   (start + Js.round (FADE_OUT_S * fps))%Z : Q]
                  [0; 1; 1; 0]).
Proof.
  intros Hi Hgi Hj Hgj Hne Hproto.
  assert (Hnp : g ≠ "__proto__")
    by (intros ->; apply Hproto, proto_inherited).
  assert (Hmem : ∀ k ek, anim !! k = Some ek → group ek = Some g →
                         member anim g k ek)
    by (intros k ek Hk Hgk; split; [exact Hk | apply groupOf_Some; assumption]).
  destruct (fadeOutStartOf_member _ _ _ _ (Hmem _ _ Hi Hgi))
    as [[-> _] | (_ & T & HT & Hset & Hfi)]; [contradiction|].
  destruct (fadeOutStartOf_member _ _ _ _ (Hmem _ _ Hj Hgj))
    as [[-> _] | (_ & T' & HT' & _ & Hfj)]; [contradiction|].
  rewrite HT in HT'. injection HT' as <-.
  split; [rewrite Hfi, Hfj; reflexivity|]. split.
  - intros (k & ek & Hk & Hgk & Hnone). rewrite Hfi.
    destruct T as [t| |]; cbn in Hset; [|reflexivity|].
    + destruct Hset as (_ & _ & Hall & _).
      destruct (Hall _ _ (Hmem _ _ Hk Hgk)) as (tk & Htk & _). congruence.
    + destruct Hset as [Hin _]. contradiction.
  - intros Hall. destruct T as [t| |]; cbn in Hset.
    + destruct Hset as (_ & H0 & Hle & Hatt). exists t.
      split; [exact Hfi|]. split; [exact HT|]. split; [exact H0|]. split.
      * intros k ek Hk Hgk. apply Hle. apply Hmem; assumption.
      * split.
        -- destruct Hatt as [-> | (k & ek & [Hk Hgk] & Hs)];
             [left; reflexivity|].
           right. exists k, ek. split; [exact Hk|].
           split; [apply groupOf_group; exact Hgk | exact Hs].
        -- intros frame fps.
           apply (envelope_with_fade_out frame fps anim ei i t Hfi).
    + destruct Hset as (k & ek & [Hk Hgk] & Hnone).
      destruct (Hall k ek Hk (groupOf_group _ _ Hgk)) as [tk Htk]. congruence.
    + destruct Hset as [Hin _]. contradiction.
Qed.

Lemma group_synchrony_witness :
  let anim := animEventsOf (flattenTimeline 30 grouped) in
  ∃ ei ej, anim !! 0%nat = Some ei ∧ anim !! 2%nat = Some ej
    ∧ computeFadeOutStart anim 0 ei = Some 84%Z
    ∧ computeFadeOutStart anim 2 ej = Some 108%Z
    ∧ fadeOutStartOf anim ei 0 = FadeOutAt 108
    ∧ fadeOutStartOf anim ej 2 = FadeOutAt 108.
Proof.
  intros anim.
  assert (H : ∃ ei ej,
            anim !! 0%nat = Some ei ∧ anim !! 2%nat = Some ej
            ∧ group ei = Some "g" ∧ group ej = Some "g"
            ∧ computeFadeOutStart anim 0 ei = Some 84%Z
            ∧ computeFadeOutStart anim 2 ej = Some 108%Z).
  { do 2 eexists. split; [vm_compute; reflexivity|].
    split; [vm_compute; reflexivity|]. split; [vm_compute; reflexivity|].
    split; [vm_compute; reflexivity|]. split; vm_compute; reflexivity. }
  destruct H as (ei & ej & H0 & H2 & Hg0 & Hg2 & Hown0 & Hown2).
  assert (Hmembers : ∀ k ek, anim !! k = Some ek → group ek = Some "g" →
                             (k = 0%nat ∧ ek = ei) ∨ (k = 2%nat ∧ ek = ej)).
  { intros k ek Hk Hg.
    destruct k as [|[|[|[|[|[|k]]]]]].
    - left. split; [reflexivity | congruence].
    - exfalso. revert Hk Hg. vm_compute. intros [= <-]. discriminate.
    - right. split; [reflexivity | congruence].
    - exfalso. revert Hk Hg. vm_compute. intros [= <-]. discriminate.
    - exfalso. revert Hk Hg. vm_compute. intros [= <-]. discriminate.
    - exfalso. revert Hk Hg. vm_compute. intros [= <-]. discriminate.
    - exfalso. revert Hk. vm_compute. destruct k; discriminate. }
  destruct (group_synchrony anim "g" 0 2 ei ej H0 Hg0 H2 Hg2)
    as (Heq & _ & Hfinite).
  - discriminate.
  - unfold Js.objectPrototype.
    repeat (apply not_elem_of_cons; split; [discriminate|]).
    apply not_elem_of_nil.
  - destruct Hfinite as (t & Hf & _ & _ & Hle & Hatt & _).
    + intros k ek Hk Hg.
      destruct (Hmembers k ek Hk Hg) as [[-> ->] | [-> ->]];
        [rewrite Hown0 | rewrite Hown2]; eauto.
    + assert (Ht : t = 108%Z).
      { destruct (Hle 2%nat ej H2 Hg2) as (t2 & Ht2 & Hle2).
        rewrite Hown2 in Ht2. injection Ht2 as <-.
        destruct Hatt as [-> | (k & ek & Hk & Hg & Hown)]; [lia|].
        destruct (Hmembers k ek Hk Hg) as [[-> ->] | [-> ->]].
        - rewrite Hown0 in Hown. injection Hown as <-. lia.
        - rewrite Hown2 in Hown. injection Hown as <-. reflexivity. }
      subst t. exists ei, ej. split; [exact H0|]. split; [exact H2|].
      split; [exact Hown0|]. split; [exact Hown2|].
      split; [exact Hf | rewrite <- Heq; exact Hf].
Defined.

(** C3 as stated fails for the empty tag: the engine tests the tag for
    truthiness, so two events tagged with the empty string are not grouped;
    each keeps its own lookahead trigger, and at frame 108 the first has
    faded out while the second is fully lit.  And the common instant need
    not be a member's trigger: the first pass starts from 0, so a group whose
    triggers are all negative gets 0. *)
Lemma group_synchrony_counterexample :
  (let anim := animEventsOf (flattenTimeline 30 emptyTagged) in
   ∃ ei ej v w,
     anim !! 0%nat = Some ei ∧ group ei = Some EmptyString
     ∧ anim !! 1%nat = Some ej ∧ group ej = Some EmptyString
     ∧ fadeOutStartOf anim ei 0 = FadeOutAt 96
     ∧ fadeOutStartOf anim ej 1 = FadeOutAt 120
     ∧ eventEnvelope 108 30 anim ei 0 = Ok v ∧ v == 0
     ∧ eventEnvelope 108 30 anim ej 1 = Ok w ∧ w == 1)
  ∧ (let anim := animEventsOf (flattenTimeline 30 negativeGrouped) in
     ∃ ei ej,
       anim !! 0%nat = Some ei ∧ group ei = Some "g"
       ∧ anim !! 1%nat = Some ej ∧ group ej = Some "g"
       ∧ (∀ k ek, anim !! k = Some ek → group ek = Some "g" →
                  k = 0%nat ∨ k = 1%nat)
       ∧ computeFadeOutStart anim 0 ei = Some (-204)%Z
       ∧ computeFadeOutStart anim 1 ej = Some (-180)%Z
       ∧ fadeOutStartOf anim ei 0 = FadeOutAt 0
       ∧ fadeOutStartOf anim ej 1 = FadeOutAt 0).
Proof.
  split; cbn zeta.
  - do 4 eexists.
    split; [vm_compute; reflexivity|]. split; [vm_compute; reflexivity|].
    split; [vm_compute; reflexivity|]. split; [vm_compute; reflexivity|].
    split; [vm_compute; reflexivity|]. split; [vm_compute; reflexivity|].
    split; [vm_compute; reflexivity|]. split; [vm_compute; reflexivity|].
    split; vm_compute; reflexivity.
  - do 2 eexists.
    split; [vm_compute; reflexivity|]. split; [vm_compute; reflexivity|].
    split; [vm_compute; reflexivity|]. split; [vm_compute; reflexivity|].
    split.
    { intros k ek Hk Hg.
      destruct k as [|[|[|[|[|k]]]]]; [auto | auto | exfalso ..].
      - revert Hk Hg. vm_compute. intros [= <-]. discriminate.
      - revert Hk Hg. vm_compute. intros [= <-]. discriminate.
      - revert Hk Hg. vm_compute. intros [= <-]. discriminate.
      - revert Hk. vm_compute. destruct k; discriminate. }
    split; [vm_compute; reflexivity|]. split; [vm_compute; reflexivity|].
    split; vm_compute; reflexivity.
Qed.

(** C10, as the code has it.  When a member of a group, with a non-empty tag
    other than ["__proto__"], has no lookahead target, no event of the group
    fades out: the envelope of each one is its fade-in ramp and, for a member
    of at least one frame, stays at 1 from its own fade-in end on, whatever
    the triggers of the other members. *)
Theorem group_never_fade anim g k ek :
  anim !! k = Some ek → group ek = Some g →
  g ≠ EmptyString → g ≠ "__proto__" →
  (length anim <= k + (if isAction ADrawLine ek then 2 else 3))%nat →
  ∀ i ei, anim !! i = Some ei → group ei = Some g →
    fadeOutStartOf anim ei i = NoFadeOut
    ∧ ∀ frame fps,
        eventEnvelope frame fps anim ei i
        = interpolate frame [startFrame ei : Q; endFrame ei : Q] [0; 1]
        ∧ ((0 < durationFrames ei)%Z →
           ∃ v, eventEnvelope frame fps anim ei i = Ok v
                ∧ v == (clampTo frame (startFrame ei) (endFrame ei)
                        - startFrame ei) / (endFrame ei - startFrame ei)
                ∧ (endFrame ei <= frame → v == 1)).
Proof.
  intros Hk Hgk Hne Hnp Hlen i ei Hi Hgi.
  assert (Hmk : member anim g k ek)
    by (split; [exact Hk | apply groupOf_Some; assumption]).
  assert (Hmi : member anim g i ei)
    by (split; [exact Hi | apply groupOf_Some; assumption]).
  assert (Hnone : computeFadeOutStart anim k ek = None)
    by (apply computeFadeOutStart_None; exact Hlen).
  destruct (fadeOutStartOf_member _ _ _ _ Hmi)
    as [[-> _] | (_ & T & HT & Hset & Hfi)]; [contradiction|].
  assert (HT' : T = Infinity).
  { destruct T as [t| |]; cbn in Hset; [|reflexivity|].
    - destruct Hset as (_ & _ & Hall & _).
      destruct (Hall _ _ Hmk) as (tk & Htk & _). congruence.
    - destruct Hset as [_ Hall]. destruct (Hall _ _ Hmk) as [tk Htk].
      congruence. }
  subst T. split; [exact Hfi|]. intros frame fps.
  apply envelope_without_fade_out. exact Hfi.
Qed.

Lemma group_never_fade_witness :
  let anim := animEventsOf (flattenTimeline 30 groupedNearEnd) in
  ∃ ei v, anim !! 0%nat = Some ei
    ∧ computeFadeOutStart anim 0 ei = Some 96%Z
    ∧ eventEnvelope 1000 30 anim ei 0 = Ok v ∧ v == 1.
Proof.
  intros anim.
  assert (H0 : ∃ ei, anim !! 0%nat = Some ei)
    by (eexists; vm_compute; reflexivity).
  destruct H0 as [ei H0].
  assert (H4 : ∃ ek, anim !! 4%nat = Some ek ∧ group ek = Some "g"
                     ∧ isAction ADrawLine ek = true)
    by (eexists; vm_compute; auto).
  destruct H4 as (ek & H4 & Hg4 & Hd4).
  assert (Hei : group ei = Some "g" ∧ (0 < durationFrames ei)%Z
                ∧ endFrame ei <= 1000
                ∧ computeFadeOutStart anim 0 ei = Some 96%Z).
  { revert H0. vm_compute. intros [= <-]. repeat split; discriminate. }
  destruct Hei as (Hg0 & Hdur & Hend & Hown).
  destruct (group_never_fade anim "g" 4 ek H4 Hg4 ltac:(discriminate)
              ltac:(discriminate)
              ltac:(rewrite Hd4; vm_compute; lia) 0%nat ei H0 Hg0)
    as [_ Henv].
  destruct (Henv 1000 30) as [_ Hv].
  destruct (Hv Hdur) as (v & Hv1 & _ & Hv2).
  exists ei, v. split; [exact H0|]. split; [exact Hown|].
  split; [exact Hv1 | exact (Hv2 Hend)].
Defined.

(** C10 as stated fails.  Events tagged with the empty string are not
    grouped: the last one has no lookahead target, yet the first one fades
    out and is at 0 long after its fade-in.  And a member that takes no
    frame has no envelope at all: the interpolation rejects its
    breakpoints. *)
Lemma group_never_fade_counterexample :
  (let anim := animEventsOf (flattenTimeline 30 emptyTagged) in
   ∃ ek ei v,
     anim !! 4%nat = Some ek ∧ group ek = Some EmptyString
     ∧ computeFadeOutStart anim 4 ek = None
     ∧ anim !! 0%nat = Some ei ∧ group ei = Some EmptyString
     ∧ endFrame ei <= 1000
     ∧ eventEnvelope 1000 30 anim ei 0 = Ok v ∧ v == 0)
  ∧ (let anim := animEventsOf (flattenTimeline 30 zeroFrameGrouped) in
     ∃ ek ei,
       anim !! 1%nat = Some ek ∧ group ek = Some "g"
       ∧ computeFadeOutStart anim 1 ek = None
       ∧ anim !! 0%nat = Some ei ∧ group ei = Some "g"
       ∧ endFrame ei <= 10
       ∧ ∃ msg, eventEnvelope 10 30 anim ei 0 = Throw msg).
Proof.
  split.
  - cbn zeta. do 3 eexists.
    split; [vm_compute; reflexivity|]. split; [vm_compute; reflexivity|].
    split; [vm_compute; reflexivity|]. split; [vm_compute; reflexivity|].
    split; [vm_compute; reflexivity|]. split; [vm_compute; discriminate|].
    split; vm_compute; reflexivity.
  - cbn zeta. do 2 eexists.
    split; [vm_compute; reflexivity|]. split; [vm_compute; reflexivity|].
    split; [vm_compute; reflexivity|]. split; [vm_compute; reflexivity|].
    split; [vm_compute; reflexivity|]. split; [vm_compute; discriminate|].
    eexists. vm_compute. reflexivity.
Qed.

(** ** Group tags that name a member of [Object.prototype] *)

Lemma prototype_names_nonempty g : g ∈ Js.objectPrototype → g ≠ EmptyString.
Proof.
  intros Hin ->. revert Hin. unfold Js.objectPrototype.
  repeat (apply not_elem_of_cons; split; [discriminate|]).
  apply not_elem_of_nil.
Qed.

(** X26. A group tag that names a member of [Object.prototype] (such as
    [constructor] or [toString]) breaks the first pass: when every member of
    the group has a lookahead target, what the record holds for the tag is
    not a finite number, and the envelope of every member raises an error
    instead of giving a value. *)
Theorem prototype_named_group_throws anim g i ei frame fps :
  anim !! i = Some ei → group ei = Some g →
  g ∈ Js.objectPrototype →
  (∀ k ek, anim !! k = Some ek → group ek = Some g →
           is_Some (computeFadeOutStart anim k ek)) →
  fadeOutStartOf anim ei i = NotFinite
  ∧ ∃ msg, eventEnvelope frame fps anim ei i = Throw msg.
Proof.
  intros Hi Hg Hin Hall.
  pose proof (prototype_names_nonempty g Hin) as Hne.
  assert (Hm : member anim g i ei)
    by (split; [exact Hi | apply groupOf_Some; assumption]).
  assert (Hf : fadeOutStartOf anim ei i = NotFinite).
  { destruct (fadeOutStartOf_member _ _ _ _ Hm)
      as [[_ Hf] | (_ & T & _ & Hset & Hf)]; [exact Hf|].
    rewrite Hf. destruct T as [t| |]; cbn in Hset; [| |reflexivity].
    - destruct Hset as [Hout _]. contradiction.
    - destruct Hset as (k & ek & [Hk Hgk] & Hnone).
      destruct (Hall k ek Hk (groupOf_group _ _ Hgk)) as [tk Htk].
      congruence. }
  split; [exact Hf|]. unfold eventEnvelope. rewrite Hf. eauto.
Qed.

Lemma prototype_named_group_throws_witness :
  let anim := animEventsOf (flattenTimeline 30 constructorTagged) in
  ∃ ei, anim !! 0%nat = Some ei
    ∧ computeFadeOutStart anim 0 ei = Some 96%Z
    ∧ (∃ msg, eventEnvelope 10 30 anim ei 0 = Throw msg)
    ∧ ∃ msg, useTimeline constructorTagged [plainNode "a" 0 0] [] [] 10 30
             = Throw msg.
Proof.
  intros anim.
  assert (H0 : ∃ ei, anim !! 0%nat = Some ei
                     ∧ group ei = Some "constructor"
                     ∧ computeFadeOutStart anim 0 ei = Some 96%Z)
    by (eexists; vm_compute; auto).
  destruct H0 as (ei & H0 & Hg & Hown).
  destruct (prototype_named_group_throws anim "constructor" 0 ei 10 30 H0 Hg)
    as [_ [msg Hmsg]].
  - unfold Js.objectPrototype. left.
  - intros k ek Hk Hgk.
    assert (Hk0 : k = 0%nat).
    { destruct k as [|[|[|[|k]]]]; [reflexivity | exfalso ..].
      - revert Hk Hgk. vm_compute. intros [= <-]. discriminate.
      - revert Hk Hgk. vm_compute. intros [= <-]. discriminate.
      - revert Hk Hgk. vm_compute. intros [= <-]. discriminate.
      - revert Hk. vm_compute. destruct k; discriminate. }
    subst k. rewrite H0 in Hk. injection Hk as <-. rewrite Hown. eauto.
  - exists ei. split; [exact H0|]. split; [exact Hown|].
    split; [exists msg; exact Hmsg|].
    eexists. vm_compute. reflexivity.
Defined.

(** ** Flattening *)

(** Structural induction over the step tree. *)
Lemma AnimationStep_tree_ind (P : AnimationStep → Prop) :
  (∀ a tgt d l g, P (StepAct a tgt d l g)) →
  (∀ d, P (StepHold d)) →
  (∀ steps g, Forall P steps → P (StepParallel steps g)) →
  ∀ st, P st.
Proof.
  intros Hact Hhold Hpar.
  fix IH 1. intros [a tgt d l g | d | steps g].
  - apply Hact.
  - apply Hhold.
  - apply Hpar. induction steps as [|st steps IHs]; constructor.
    + apply IH.
    + exact IHs.
Qed.

Lemma round_nonneg x : 0 <= x → (0 <= Js.round x)%Z.
Proof.
  intros Hx. unfold Js.round.
  change 0%Z with (Qfloor 0). apply Qfloor_resp_le. lra.
Qed.

Lemma foldl_max_ge (l : list Z) m : (m <= foldl Z.max m l)%Z.
Proof.
  revert m. induction l as [|d l IH]; intros m; cbn; [lia|].
  specialize (IH (Z.max m d)). lia.
Qed.

Lemma foldl_max_upper (l : list Z) m d :
  d ∈ l → (d <= foldl Z.max m l)%Z.
Proof.
  revert m. induction l as [|x l IH]; intros m Hd; cbn.
  - inversion Hd.
  - apply list_elem_of_In in Hd. destruct Hd as [->|Hd].
    + pose proof (foldl_max_ge l (Z.max m d)). lia.
    + apply IH. apply list_elem_of_In. exact Hd.
Qed.

Lemma foldl_max_attained (l : list Z) m :
  foldl Z.max m l = m ∨ foldl Z.max m l ∈ l.
Proof.
  revert m. induction l as [|x l IH]; intros m; cbn; [left; reflexivity|].
  destruct (IH (Z.max m x)) as [H|H].
  - rewrite H. destruct (Z.max_spec m x) as [[_ ->] | [_ ->]];
      [right; left | left; reflexivity].
  - right. right. exact H.
Qed.

Section FlattenFacts.
Variable fps : Q.

(** What the children loop does, given what flattening a child does. *)
Lemma forChildren_spec group c (steps : list AnimationStep) :
  Forall (fun st => ∀ pg s,
            events (flattenStep fps st pg s)
            = events s ++ newEvents fps st pg (cursor s)
            ∧ cursor (flattenStep fps st pg s)
              = (cursor s + stepFrames fps st)%Z) steps →
  ∀ s m,
    let r := forChildren (fun child => flattenStep fps child group) c
               steps s m in
    events r.1
    = events s ++ mjoin (map (fun child => newEvents fps child group c) steps)
    ∧ r.2 = foldl Z.max m (map (stepFrames fps) steps).
Proof.
  induction 1 as [|st steps Hst _ IH]; intros s m; cbn.
  - rewrite app_nil_r. auto.
  - destruct (Hst group (setCursor c s)) as [He Hc]. cbn in He, Hc.
    destruct (IH (flattenStep fps st group (setCursor c s))
                 (Z.max m (cursor (flattenStep fps st group (setCursor c s))
                           - c))) as [IHe IHm].
    split.
    + rewrite IHe, He, <- app_assoc. reflexivity.
    + rewrite IHm, Hc. f_equal. f_equal. lia.
Qed.

(** Flattening a step appends its events and moves the cursor by its
    frames. *)
Lemma flattenStep_spec st :
  ∀ pg s,
    events (flattenStep fps st pg s)
    = events s ++ newEvents fps st pg (cursor s)
    ∧ cursor (flattenStep fps st pg s) = (cursor s + stepFrames fps st)%Z.
Proof.
  induction st as [a tgt d l g | d | steps g IH] using AnimationStep_tree_ind;
    intros pg s.
  - split; reflexivity.
  - split; reflexivity.
  - unfold newEvents. cbn.
    pose proof (forChildren_spec (Js.nullish g pg) (cursor s) steps IH s 0%Z)
      as [He Hm].
    pose proof (forChildren_spec (Js.nullish g pg) (cursor s) steps IH
                  {| events := []; cursor := cursor s |} 0%Z) as [He' _].
    destruct (forChildren _ _ steps s 0%Z) as [s1 m1].
    destruct (forChildren _ _ steps {| events := []; cursor := cursor s |} 0%Z)
      as [s2 m2].
    cbn in *. subst m1. split; [|reflexivity].
    rewrite He, He'. reflexivity.
Qed.

Lemma newEvents_parallel steps g pg c :
  newEvents fps (StepParallel steps g) pg c
  = mjoin (map (fun child => newEvents fps child (Js.nullish g pg) c) steps).
Proof.
  unfold newEvents at 1. cbn.
  pose proof (forChildren_spec (Js.nullish g pg) c steps
                (proj2 (Forall_forall _ _) (fun st _ => flattenStep_spec st))
                {| events := []; cursor := c |} 0%Z) as [He _].
  destruct (forChildren _ _ steps _ 0%Z) as [s2 m2]. cbn in *. exact He.
Qed.

(** Every event of a step starts at the cursor the step is flattened from,
    and ends within the frames of the step. *)
Lemma newEvents_window st :
  ∀ pg c e, e ∈ newEvents fps st pg c →
            startFrame e = c ∧ (endFrame e <= c + stepFrames fps st)%Z.
Proof.
  induction st as [a tgt d l g | d | steps g IH] using AnimationStep_tree_ind;
    intros pg c e He.
  - apply list_elem_of_singleton in He as ->. unfold endFrame. cbn. lia.
  - apply list_elem_of_singleton in He as ->. unfold endFrame. cbn. lia.
  - rewrite newEvents_parallel in He.
    apply list_elem_of_join in He as (evs & He & Hevs).
    apply list_elem_of_fmap in Hevs as (child & -> & Hchild).
    rewrite Forall_forall in IH.
    destruct (IH child Hchild _ _ _ He) as [H1 H2]. split; [exact H1|].
    assert (stepFrames fps child <= stepFrames fps (StepParallel steps g))%Z.
    { cbn. apply foldl_max_upper. apply list_elem_of_fmap. eauto. }
    lia.
Qed.

Lemma stepFrames_nonneg st : 0 <= fps → nonnegStep st → (0 <= stepFrames fps st)%Z.
Proof.
  intros Hfps.
  destruct st as [a tgt d l g | d | steps g]; cbn [stepFrames nonnegStep].
  - intros Hd. apply round_nonneg.
    assert (0 <= default (getDefaultDuration a) d).
    { destruct d as [d|]; cbn in *; [exact Hd|]. destruct a; vm_compute; discriminate. }
    nra.
  - intros Hd. apply round_nonneg. nra.
  - intros _. apply foldl_max_ge.
Qed.
End FlattenFacts.

Section Sequential.
Variable fps : Q.
Hypothesis fps_nonneg : 0 <= fps.

Lemma flattenStep_advances st pg s :
  nonnegStep st → (cursor s <= cursor (flattenStep fps st pg s))%Z.
Proof.
  intros Hst. destruct (flattenStep_spec fps st pg s) as [_ ->].
  pose proof (stepFrames_nonneg fps st fps_nonneg Hst). lia.
Qed.

Lemma flattenStep_within st pg s :
  within (cursor s) (cursor (flattenStep fps st pg s))
         (newEvents fps st pg (cursor s)).
Proof.
  intros e He. destruct (flattenStep_spec fps st pg s) as [_ ->].
  destruct (newEvents_window fps st pg (cursor s) e He) as [-> H].
  split; [lia | exact H].
Qed.

Lemma flattenSteps_frame steps s :
  events (flattenSteps fps s steps)
  = events s ++ events (flattenSteps fps (fresh (cursor s)) steps)
  ∧ cursor (flattenSteps fps s steps)
    = cursor (flattenSteps fps (fresh (cursor s)) steps).
Proof.
  revert s. induction steps as [|st steps IH]; intros s; cbn.
  - rewrite app_nil_r. auto.
  - destruct (flattenStep_spec fps st None s) as [He Hc].
    destruct (flattenStep_spec fps st None (fresh (cursor s))) as [He' Hc'].
    cbn [fresh events cursor app] in He', Hc'.
    destruct (IH (flattenStep fps st None s)) as [IHe IHc].
    destruct (IH (flattenStep fps st None (fresh (cursor s)))) as [IHe' IHc'].
    fold (flattenSteps fps (flattenStep fps st None s) steps).
    fold (flattenSteps fps (flattenStep fps st None (fresh (cursor s))) steps).
    rewrite IHe, IHe', IHc, IHc', He, He', Hc, Hc', <- app_assoc. auto.
Qed.

Lemma flattenSteps_within steps :
  Forall nonnegStep steps →
  ∀ s, (cursor s <= cursor (flattenSteps fps s steps))%Z
       ∧ within (cursor s) (cursor (flattenSteps fps s steps))
                (events (flattenSteps fps (fresh (cursor s)) steps)).
Proof.
  induction 1 as [|st steps Hst _ IH]; intros s.
  - cbn. split; [lia|]. intros e He. inversion He.
  - pose proof (flattenStep_advances st None s Hst) as Hadv.
    pose proof (flattenStep_within st None s) as Hw.
    destruct (flattenStep_spec fps st None s) as [_ Hc].
    destruct (flattenStep_spec fps st None (fresh (cursor s))) as [He' Hc'].
    cbn [fresh events cursor app] in He', Hc'.
    destruct (IH (flattenStep fps st None s)) as [Hle Hwn].
    change (flattenSteps fps s (st :: steps))
      with (flattenSteps fps (flattenStep fps st None s) steps).
    change (flattenSteps fps (fresh (cursor s)) (st :: steps))
      with (flattenSteps fps (flattenStep fps st None (fresh (cursor s))) steps).
    split; [lia|].
    destruct (flattenSteps_frame steps
                (flattenStep fps st None (fresh (cursor s)))) as [-> _].
    rewrite He', Hc', <- Hc.
    intros e Hin. apply elem_of_app in Hin as [Hin|Hin].
    + destruct (Hw e Hin). split; lia.
    + destruct (Hwn e Hin). split; lia.
Qed.

Lemma flattenPhase_spec p s :
  nonnegPhase p →
  (cursor s <= cursor (flattenPhase fps s p))%Z
  ∧ events (flattenPhase fps s p) = events s ++ phaseEvents fps p (cursor s)
  ∧ within (cursor s) (cursor (flattenPhase fps s p))
           (phaseEvents fps p (cursor s)).
Proof.
  assert (Hleaf : ∀ a d, 0 <= d →
    (cursor s <= cursor (phaseEvent fps a d s))%Z
    ∧ events (phaseEvent fps a d s)
      = events s ++ events (phaseEvent fps a d (fresh (cursor s)))
    ∧ within (cursor s) (cursor (phaseEvent fps a d s))
             (events (phaseEvent fps a d (fresh (cursor s))))).
  { intros a d Hd.
    assert (0 <= Js.round (d * fps))%Z by (apply round_nonneg; nra).
    unfold phaseEvent, push. cbn [fresh events cursor app].
    split; [lia|]. split; [reflexivity|].
    intros e He. apply list_elem_of_singleton in He as ->.
    unfold endFrame. cbn [startFrame durationFrames]. lia. }
  destruct p as [d | steps | d | d]; intros Hp; try (apply Hleaf; exact Hp).
  unfold phaseEvents. cbn [flattenPhase nonnegPhase] in *.
  change (foldl (fun s st => flattenStep fps st None s)) with (flattenSteps fps).
  destruct (flattenSteps_within steps Hp s) as [Hle Hw].
  destruct (flattenSteps_frame steps s) as [He _].
  split; [exact Hle|]. split; [exact He | exact Hw].
Qed.
End Sequential.

Lemma longest_attained (l : list Z) :
  l ≠ [] → Forall (fun d => (0 <= d)%Z) l → foldl Z.max 0%Z l ∈ l.
Proof.
  intros Hne Hpos. destruct (foldl_max_attained l 0%Z) as [H0|H]; [|exact H].
  destruct l as [|d l]; [contradiction|].
  assert (Hd : (d <= foldl Z.max 0%Z (d :: l))%Z)
    by (apply foldl_max_upper; left).
  apply Forall_cons in Hpos as [Hd0 _].
  replace (foldl Z.max 0%Z (d :: l)) with d by lia. left.
Qed.

(** C6 as stated fails on the group tag: a [hold] child carries no group even
    inside a grouped [parallel], and a child of a [parallel] without a group
    of its own inherits the group that was handed to that [parallel]. *)
Lemma parallel_flattening_counterexample :
  ¬ groupAsStated 30 [StepHold 1] (Some "g") None 0
  ∧ ¬ groupAsStated 30 [StepAct SFillBox "a" None None None] None
        (Some "outer") 0.
Proof.
  split; intros H.
  - specialize (H (StepHold 1)
                  {| action := AHold; source := SrcStep; target := None;
                     startFrame := 0; durationFrames := 30; step := None;
                     group := None |}
                  ltac:(left) ltac:(vm_compute; left)).
    discriminate H.
  - specialize (H (StepAct SFillBox "a" None None None)
                  {| action := AFillBox; source := SrcStep;
                     target := Some "a"; startFrame := 0;
                     durationFrames := 24; step := None;
                     group := Some "outer" |}
                  ltac:(left) ltac:(vm_compute; left)).
    discriminate H.
Qed.

(** C6, as the code has it.  Flattening a [parallel] step from cursor [c]
    appends the events of its children, each child flattened from [c] with
    the group handed down ([step.group ?? parentGroup]); every appended event
    starts at [c]; the cursor ends at [c] plus the longest child (the maximum
    of the children's frames, 0 without children).  An action child yields one
    event whose group is its own, else the handed-down one; a [hold] child
    yields one event without group.  No event of a step ends after an event
    of the step flattened next starts; with non-negative durations the cursor
    never moves back over a step or a phase, and the events of a step or
    phase lie between the cursor before and the cursor after it. *)
Theorem parallel_flattening fps steps g pg s :
  let c := cursor s in
  let handed := Js.nullish g pg in
  let s' := flattenStep fps (StepParallel steps g) pg s in
  let longest := foldl Z.max 0%Z (map (stepFrames fps) steps) in
  events s'
  = events s ++ mjoin (map (fun child => newEvents fps child handed c) steps)
  ∧ (∀ e, e ∈ newEvents fps (StepParallel steps g) pg c → startFrame e = c)
  ∧ cursor s' = (c + longest)%Z
  ∧ (∀ child, child ∈ steps →
       cursor (flattenStep fps child handed (setCursor c s))
       = (c + stepFrames fps child)%Z
       ∧ (stepFrames fps child <= longest)%Z)
  ∧ (0 <= fps → Forall nonnegStep steps → steps ≠ [] →
     ∃ child, child ∈ steps ∧ stepFrames fps child = longest)
  ∧ (∀ a tgt d l cg, StepAct a tgt d l cg ∈ steps →
       newEvents fps (StepAct a tgt d l cg) handed c
       = [{| action := actionOf a; source := SrcStep; target := Some tgt;
             startFrame := c;
             durationFrames :=
               Js.round (default (getDefaultDuration a) d * fps);
             step := l; group := Js.nullish cg handed |}])
  ∧ (∀ d, StepHold d ∈ steps →
       newEvents fps (StepHold d) handed c
       = [{| action := AHold; source := SrcStep; target := None;
             startFrame := c; durationFrames := Js.round (d * fps);
             step := None; group := None |}])
  ∧ (∀ st1 st2 pg1 pg2 s e1 e2,
       e1 ∈ newEvents fps st1 pg1 (cursor s) →
       e2 ∈ newEvents fps st2 pg2 (cursor (flattenStep fps st1 pg1 s)) →
       (endFrame e1 <= startFrame e2)%Z)
  ∧ (0 <= fps →
     (∀ st pg s, nonnegStep st →
        (cursor s <= cursor (flattenStep fps st pg s))%Z
        ∧ within (cursor s) (cursor (flattenStep fps st pg s))
                 (newEvents fps st pg (cursor s)))
     ∧ (∀ p s, nonnegPhase p →
          (cursor s <= cursor (flattenPhase fps s p))%Z
          ∧ within (cursor s) (cursor (flattenPhase fps s p))
                   (phaseEvents fps p (cursor s)))).
Proof.
  intros c handed s' longest.
  destruct (flattenStep_spec fps (StepParallel steps g) pg s) as [He Hc].
  split; [|split; [|split; [|split; [|split; [|split; [|split; [|split]]]]]]].
  - unfold s'. rewrite He, newEvents_parallel. reflexivity.
  - intros e Hin. apply (newEvents_window fps _ _ _ _ Hin).
  - exact Hc.
  - intros child Hchild. split.
    + destruct (flattenStep_spec fps child handed (setCursor c s)) as [_ ->].
      reflexivity.
    + apply foldl_max_upper. apply list_elem_of_fmap. eauto.
  - intros Hfps Hall Hne.
    assert (Hin : longest ∈ map (stepFrames fps) steps).
    { apply longest_attained.
      - destruct steps; [contradiction | discriminate].
      - apply Forall_fmap. eapply Forall_impl; [exact Hall|].
        intros st Hst. apply stepFrames_nonneg; assumption. }
    apply list_elem_of_fmap in Hin as (child & Heq & Hin). eauto.
  - intros. reflexivity.
  - intros. reflexivity.
  - intros st1 st2 pg1 pg2 s0 e1 e2 H1 H2.
    destruct (flattenStep_within fps st1 pg1 s0 e1 H1) as [_ Hend].
    destruct (newEvents_window fps st2 pg2 _ e2 H2) as [Hstart _]. lia.
  - intros Hfps. split.
    + intros st pg0 s0 Hst.
      split; [apply flattenStep_advances; assumption|].
      apply flattenStep_within.
    + intros p s0 Hp.
      destruct (flattenPhase_spec fps Hfps p s0 Hp) as (H1 & _ & H2). auto.
Qed.

Lemma parallel_flattening_witness :
  let par := StepParallel
               [ StepAct SFillBox "api" None None None;
                 StepAct SDrawLine "api->db" None None (Some "own");
                 StepHold 2 ] (Some "g") in
  cursor (flattenStep 30 par None (fresh 30)) = 90%Z
  ∧ ∃ child, child ∈ [ StepAct SFillBox "api" None None None;
                       StepAct SDrawLine "api->db" None None (Some "own");
                       StepHold 2 ]
             ∧ stepFrames 30 child = 60%Z.
Proof.
  intros par.
  destruct (parallel_flattening 30
              [ StepAct SFillBox "api" None None None;
                StepAct SDrawLine "api->db" None None (Some "own");
                StepHold 2 ] (Some "g") None (fresh 30))
    as (_ & _ & Hc & _ & Hmax & _).
  split; [exact Hc|].
  apply Hmax.
  - vm_compute. discriminate.
  - repeat constructor; vm_compute; discriminate.
  - discriminate.
Defined.

(** ** Layout: which edge a connection uses *)

Lemma forEach_ok_elem {A B} (f : A → result B) (l : list A) acc out :
  forEach (fun x acc => y ← f x; Ok (acc ++ [y])) l acc = Ok out →
  ∃ ys, out = acc ++ ys
        ∧ Forall2 (fun x y => f x = Ok y) l ys.
Proof.
  revert acc. induction l as [|x l IH]; intros acc; cbn.
  - intros [= <-]. exists []. split; [rewrite app_nil_r; reflexivity|].
    constructor.
  - intros H. apply bind_Ok in H as (acc' & Hx & H).
    apply bind_Ok in Hx as (y & Hy & [= <-]).
    destruct (IH _ H) as (ys & -> & Hys).
    exists (y :: ys). split; [rewrite <- app_assoc; reflexivity|].
    constructor; assumption.
Qed.

Lemma forEach_throw {A St} (body : A → St → result St) l s msg :
  forEach body l s = Throw msg → ∃ x s', x ∈ l ∧ body x s' = Throw msg.
Proof.
  revert s. induction l as [|x l IH]; intros s; cbn; [discriminate|].
  destruct (body x s) as [s1|m] eqn:E; cbn.
  - intros H. destruct (IH _ H) as (y & s' & Hy & Hb).
    exists y, s'. split; [right; exact Hy | exact Hb].
  - intros [= <-]. exists x, s. split; [left | exact E].
Qed.

Lemma bind_Throw {A B} (r : result A) (k : A → result B) msg :
  r ≫= k = Throw msg → r = Throw msg ∨ ∃ a, r = Ok a ∧ k a = Throw msg.
Proof. destruct r as [a|m]; cbn; [eauto | intros [= <-]; auto]. Qed.

(** The edge [inferEdge] picks, by the dominant axis delta. *)
Lemma inferEdge_spec from to :
  let dx := px to - px from in
  let dy := py to - py from in
  (Qabs dy < Qabs dx → 0 < dx → Layout.inferEdge from to = ERight)
  ∧ (Qabs dy < Qabs dx → dx <= 0 → Layout.inferEdge from to = ELeft)
  ∧ (Qabs dx <= Qabs dy → 0 < dy → Layout.inferEdge from to = EBottom)
  ∧ (Qabs dx <= Qabs dy → dy <= 0 → Layout.inferEdge from to = ETop).
Proof.
  intros dx dy. unfold Layout.inferEdge. fold dx dy. unfold Js.abs.
  destruct (Js.gt (Qabs dx) (Qabs dy)) eqn:E1.
  - apply gt_true in E1. destruct (Js.gt dx 0) eqn:E2.
    + apply gt_true in E2.
      repeat split; intros; first [reflexivity | exfalso; lra].
    + apply gt_false in E2.
      repeat split; intros; first [reflexivity | exfalso; lra].
  - apply gt_false in E1. destruct (Js.gt dy 0) eqn:E2.
    + apply gt_true in E2.
      repeat split; intros; first [reflexivity | exfalso; lra].
    + apply gt_false in E2.
      repeat split; intros; first [reflexivity | exfalso; lra].
Qed.

Lemma autoRoute_ends from fromEdge to toEdge :
  head (Layout.autoRoute from fromEdge to toEdge) = Some from
  ∧ last (Layout.autoRoute from fromEdge to toEdge) = Some to.
Proof.
  unfold Layout.autoRoute.
  repeat match goal with
         | |- context [if ?b then _ else _] => destruct b
         end; split; reflexivity.
Qed.

(** An endpoint whose center is [undefined] has no anchor point. *)
Lemma getTargetCenter_undefined grid theme rc rn t :
  Layout.getTargetCenter grid theme rc rn t = Ok None →
  (∃ id, t = NodeRef id ∧ Js.get rn id = Js.Inherited)
  ∧ ∀ edge center,
      Layout.anchorPoint rc rn t edge center = Throw (Js.typeError "x").
Proof.
  destruct t as [id | cid e]; cbn.
  - destruct (Js.get rn id) eqn:E; try discriminate. intros _.
    split; [eauto|]. intros edge center. unfold Layout.nodeEdge.
    rewrite E. reflexivity.
  - unfold Layout.containerEdge. destruct (Js.get rc cid); discriminate.
Qed.

(** What a successfully resolved connection is made of. *)
Lemma resolveConnection_inv grid theme rc rn cdef r :
  Layout.resolveConnection grid theme rc rn cdef = Ok r →
  ∃ fromCenter toCenter fromEdge toEdge fromPoint toPoint,
    Layout.getTargetCenter grid theme rc rn (cn_from cdef)
    = Ok (Some fromCenter)
    ∧ Layout.getTargetCenter grid theme rc rn (cn_to cdef)
      = Ok (Some toCenter)
    ∧ Layout.endpointEdge (cn_fromEdge cdef) (cn_from cdef)
        (Some fromCenter) (Some toCenter) = Ok fromEdge
    ∧ Layout.endpointEdge (cn_toEdge cdef) (cn_to cdef)
        (Some toCenter) (Some fromCenter) = Ok toEdge
    ∧ Layout.anchorPoint rc rn (cn_from cdef) fromEdge (Some fromCenter)
      = Ok fromPoint
    ∧ Layout.anchorPoint rc rn (cn_to cdef) toEdge (Some toCenter)
      = Ok toPoint
    ∧ Layout.rx_def r = cdef
    ∧ Layout.rx_points r
      = match cn_waypoints cdef with
        | Some waypoints => [fromPoint] ++ waypoints ++ [toPoint]
        | None => Layout.autoRoute fromPoint fromEdge toPoint toEdge
        end.
Proof.
  unfold Layout.resolveConnection. intros H.
  apply bind_Ok in H as (fromCenter & Hf & H).
  apply bind_Ok in H as (toCenter & Ht & H).
  apply bind_Ok in H as (fromEdge & Hfe & H).
  apply bind_Ok in H as (toEdge & Hte & H).
  apply bind_Ok in H as (fromPoint & Hfp & H).
  apply bind_Ok in H as (toPoint & Htp & [= <-]).
  destruct fromCenter as [fromCenter|].
  2: { apply getTargetCenter_undefined in Hf as [_ Hf].
       rewrite Hf in Hfp. discriminate. }
  destruct toCenter as [toCenter|].
  2: { apply getTargetCenter_undefined in Ht as [_ Ht].
       rewrite Ht in Htp. discriminate. }
  exists fromCenter, toCenter, fromEdge, toEdge, fromPoint, toPoint.
  cbn. auto 10.
Qed.

Lemma resolveLayout_inv grid nodes containers connections theme layout :
  Layout.resolveLayout grid nodes containers connections theme = Ok layout →
  Layout.l_containers layout = Layout.resolveContainers grid theme containers
  ∧ Layout.resolveNodes grid theme (Layout.l_containers layout) nodes
    = Ok (Layout.l_nodes layout)
  ∧ Layout.resolveConnections grid theme (Layout.l_containers layout)
      (Layout.l_nodes layout) connections
    = Ok (Layout.l_connections layout).
Proof.
  unfold Layout.resolveLayout. intros H.
  apply bind_Ok in H as (rn & Hn & H).
  apply bind_Ok in H as (rx & Hx & [= <-]). cbn. auto.
Qed.

(** C7, as the code has it.  For every connection of a resolved layout the
    two anchor points are taken on the edges chosen as follows: an explicit
    [fromEdge]/[toEdge] is used as given; without one, a node endpoint gets
    the edge inferred from the dominant axis delta between the two resolved
    endpoint centers (towards the other endpoint), and a container endpoint
    gets the side named in its reference, whatever the deltas. *)
Theorem edge_inference grid nodes containers connections theme layout r :
  Layout.resolveLayout grid nodes containers connections theme = Ok layout →
  r ∈ Layout.l_connections layout →
  let cdef := Layout.rx_def r in
  let centerOf := Layout.getTargetCenter grid theme
                    (Layout.l_containers layout) (Layout.l_nodes layout) in
  let anchor := Layout.anchorPoint (Layout.l_containers layout)
                  (Layout.l_nodes layout) in
  cdef ∈ connections
  ∧ ∃ fromCenter toCenter fromEdge toEdge fromPoint toPoint,
      centerOf (cn_from cdef) = Ok (Some fromCenter)
      ∧ centerOf (cn_to cdef) = Ok (Some toCenter)
      ∧ anchor (cn_from cdef) fromEdge (Some fromCenter) = Ok fromPoint
      ∧ anchor (cn_to cdef) toEdge (Some toCenter) = Ok toPoint
      ∧ head (Layout.rx_points r) = Some fromPoint
      ∧ last (Layout.rx_points r) = Some toPoint
      ∧ (cn_waypoints cdef = None →
         Layout.rx_points r
         = Layout.autoRoute fromPoint fromEdge toPoint toEdge)
      ∧ (∀ e, cn_fromEdge cdef = Some e → fromEdge = e)
      ∧ (∀ e, cn_toEdge cdef = Some e → toEdge = e)
      ∧ (cn_fromEdge cdef = None →
         match cn_from cdef with
         | NodeRef _ => fromEdge = Layout.inferEdge fromCenter toCenter
         | ContainerRef _ side => fromEdge = Layout.sideEdge side
         end)
      ∧ (cn_toEdge cdef = None →
         match cn_to cdef with
         | NodeRef _ => toEdge = Layout.inferEdge toCenter fromCenter
         | ContainerRef _ side => toEdge = Layout.sideEdge side
         end)
      ∧ ∀ self other,
          let dx := px other - px self in
          let dy := py other - py self in
          (Qabs dy < Qabs dx → 0 < dx →
           Layout.inferEdge self other = ERight)
          ∧ (Qabs dy < Qabs dx → dx <= 0 →
             Layout.inferEdge self other = ELeft)
          ∧ (Qabs dx <= Qabs dy → 0 < dy →
             Layout.inferEdge self other = EBottom)
          ∧ (Qabs dx <= Qabs dy → dy <= 0 →
             Layout.inferEdge self other = ETop).
Proof.
  intros H Hr cdef centerOf anchor.
  apply resolveLayout_inv in H as (_ & _ & Hx).
  unfold Layout.resolveConnections in Hx.
  apply (forEach_ok_elem
           (Layout.resolveConnection grid theme (Layout.l_containers layout)
              (Layout.l_nodes layout))) in Hx as (ys & Hys & Hall).
  cbn in Hys. subst ys.
  assert (Hc : ∃ c, c ∈ connections
                    ∧ Layout.resolveConnection grid theme
                        (Layout.l_containers layout) (Layout.l_nodes layout) c
                      = Ok r).
  { clear -Hall Hr. induction Hall as [|c y l ys Hcy _ IH].
    - inversion Hr.
    - apply list_elem_of_In in Hr. destruct Hr as [<-|Hr].
      + exists c. split; [left | exact Hcy].
      + apply list_elem_of_In in Hr. destruct (IH Hr) as (c' & Hc' & Hres).
        exists c'. split; [right; exact Hc' | exact Hres]. }
  destruct Hc as (c & Hc & Hres).
  apply resolveConnection_inv in Hres
    as (fromCenter & toCenter & fromEdge & toEdge & fromPoint & toPoint
        & Hf & Ht & Hfe & Hte & Hfp & Htp & Hdef & Hpts).
  fold cdef in Hdef. subst c. split; [exact Hc|].
  exists fromCenter, toCenter, fromEdge, toEdge, fromPoint, toPoint.
  split; [exact Hf|]. split; [exact Ht|]. split; [exact Hfp|].
  split; [exact Htp|].
  assert (Hends : head (Layout.rx_points r) = Some fromPoint
                  ∧ last (Layout.rx_points r) = Some toPoint).
  { rewrite Hpts. destruct (cn_waypoints cdef) as [w|].
    - split; [reflexivity|]. cbn. rewrite app_comm_cons, last_snoc.
      reflexivity.
    - apply autoRoute_ends. }
  destruct Hends as [Hh Hl].
  split; [exact Hh|]. split; [exact Hl|].
  split; [intros Hw; rewrite Hpts, Hw; reflexivity|].
  unfold Layout.endpointEdge in Hfe, Hte.
  split; [intros e He; rewrite He in Hfe; congruence|].
  split; [intros e He; rewrite He in Hte; congruence|].
  split; [|split].
  - intros He. rewrite He in Hfe.
    destruct (cn_from cdef) as [id | cid [|]]; cbn in Hfe;
      injection Hfe as <-; reflexivity.
  - intros He. rewrite He in Hte.
    destruct (cn_to cdef) as [id | cid [|]]; cbn in Hte;
      injection Hte as <-; reflexivity.
  - intros self other. apply inferEdge_spec.
Qed.

Lemma edge_inference_witness :
  ∃ layout r, Layout.resolveLayout requestGrid requestNodes []
                [plainConnection (NodeRef "client") (NodeRef "api")]
                defaultTheme = Ok layout
    ∧ Layout.l_connections layout = [r]
    ∧ Layout.rx_def r ∈ [plainConnection (NodeRef "client") (NodeRef "api")].
Proof.
  assert (H : ∃ layout r,
            Layout.resolveLayout requestGrid requestNodes []
              [plainConnection (NodeRef "client") (NodeRef "api")]
              defaultTheme = Ok layout
            ∧ Layout.l_connections layout = [r])
    by (eexists; eexists; split; vm_compute; reflexivity).
  destruct H as (layout & r & H & Hr). exists layout, r.
  split; [exact H|]. split; [exact Hr|].
  refine (proj1 (edge_inference _ _ _ _ _ _ r H _)).
  rewrite Hr. left.
Defined.

(** C7 as stated fails for a container endpoint: the vertical delta
    dominates and points down, so inference would give [bottom]; the code
    uses the side of the reference, [left], and routes accordingly. *)
Lemma edge_inference_counterexample :
  ∃ layout r fromCenter toCenter fromPoint toPoint,
    Layout.resolveLayout tallGrid [plainNode "store" 2 0]
      [plainContainer "pipe" 0 1 2] [pipeToStore] defaultTheme = Ok layout
    ∧ Layout.l_connections layout = [r]
    ∧ Layout.getTargetCenter tallGrid defaultTheme
        (Layout.l_containers layout) (Layout.l_nodes layout)
        (cn_from pipeToStore) = Ok (Some fromCenter)
    ∧ Layout.getTargetCenter tallGrid defaultTheme
        (Layout.l_containers layout) (Layout.l_nodes layout)
        (cn_to pipeToStore) = Ok (Some toCenter)
    ∧ Layout.inferEdge fromCenter toCenter = EBottom
    ∧ Layout.endpointEdge (cn_fromEdge pipeToStore) (cn_from pipeToStore)
        (Some fromCenter) (Some toCenter) = Ok ELeft
    ∧ head (Layout.rx_points r) = Some fromPoint
    ∧ last (Layout.rx_points r) = Some toPoint
    ∧ Layout.rx_points r = Layout.autoRoute fromPoint ELeft toPoint ETop
    ∧ Layout.rx_points r ≠ Layout.autoRoute fromPoint EBottom toPoint ETop.
Proof.
  do 6 eexists.
  split; [vm_compute; reflexivity|].
  split; [vm_compute; reflexivity|].
  split; [vm_compute; reflexivity|].
  split; [vm_compute; reflexivity|].
  split; [vm_compute; reflexivity|].
  split; [vm_compute; reflexivity|].
  split; [vm_compute; reflexivity|].
  split; [vm_compute; reflexivity|].
  split; [vm_compute; reflexivity|].
  vm_compute. discriminate.
Qed.

(** ** Layout: dangling references *)

Lemma resolveContainers_lookup grid theme containers id :
  is_Some (Layout.resolveContainers grid theme containers !! id)
  ↔ id ∈ map cd_id containers.
Proof.
  unfold Layout.resolveContainers.
  assert (H : ∀ m : gmap string Layout.ResolvedContainer,
    is_Some (foldl (fun m cdef =>
                      <[cd_id cdef := Layout.resolveContainer grid theme cdef]>
                        m) m containers !! id)
    ↔ is_Some (m !! id) ∨ id ∈ map cd_id containers).
  { induction containers as [|c l IH]; intros m; cbn.
    - split; [auto | intros [H|H]; [exact H | inversion H]].
    - rewrite IH, lookup_insert_is_Some, elem_of_cons.
      destruct (decide (cd_id c = id)); intuition congruence. }
  rewrite H, lookup_empty. split; [intros [[? [=]]|?]; assumption | auto].
Qed.

Lemma resolveNodes_lookup grid theme rc nodes rn id :
  Layout.resolveNodes grid theme rc nodes = Ok rn →
  is_Some (rn !! id) ↔ id ∈ map nd_id nodes.
Proof.
  intros H. unfold Layout.resolveNodes in H. split.
  - intros [v Hv].
    destruct (assign_lookup nd_id (Layout.resolveNode grid theme rc)
                (Layout.placeNode grid theme rc) (fun _ _ => eq_refl)
                nodes ∅ rn H id v Hv) as [H0 | (n & Hn & <- & _)].
    + rewrite lookup_empty in H0. discriminate.
    + apply list_elem_of_fmap. eauto.
  - intros Hid. apply list_elem_of_fmap in Hid as (n & -> & Hn).
    destruct (assign_defined nd_id (Layout.resolveNode grid theme rc)
                (Layout.placeNode grid theme rc) (fun _ _ => eq_refl)
                nodes ∅ rn H n Hn) as (v & _ & Hv & _).
    eauto.
Qed.

Lemma get_cases {A} (m : gmap string A) k :
  (∃ v, m !! k = Some v ∧ Js.get m k = Js.Own v)
  ∨ (m !! k = None ∧ k ∈ Js.objectPrototype ∧ Js.get m k = Js.Inherited)
  ∨ (m !! k = None ∧ (k ∉ Js.objectPrototype)
     ∧ Js.get m k = Js.Undefined).
Proof.
  unfold Js.get. destruct (m !! k) as [v|]; [eauto|].
  destruct (bool_decide (k ∈ Js.objectPrototype)) eqn:E.
  - apply bool_decide_eq_true in E. auto.
  - apply bool_decide_eq_false in E. auto.
Qed.

Lemma get_own {A} (m : gmap string A) k v :
  m !! k = Some v → Js.get m k = Js.Own v.
Proof. intros H. unfold Js.get. rewrite H. reflexivity. Qed.

Lemma innerCellCenter_cases rc cid col :
  (rc !! cid = None
   ∧ ∃ msg, Layout.innerCellCenter rc cid col = Throw msg
            ∧ (cid ∉ Js.objectPrototype
               → msg = Layout.containerNotFound cid))
  ∨ (∃ c, rc !! cid = Some c ∧ Js.get rc cid = Js.Own c
          ∧ ∃ p, Layout.innerCellCenter rc cid col = Ok p).
Proof.
  unfold Layout.innerCellCenter.
  destruct (get_cases rc cid) as [(c & Hc & ->) | [(Hn & Hin & ->)
                                                  | (Hn & Hin & ->)]].
  - right. eauto 6.
  - left. split; [exact Hn|]. eexists. split; [reflexivity|].
    intros Hout. contradiction.
  - left. split; [exact Hn|]. eauto.
Qed.

Lemma resolveNode_cases grid theme rc ndef :
  match Layout.resolveNode grid theme rc ndef with
  | Ok _ => ∀ cid, nodeContainerRef ndef = Some cid → is_Some (rc !! cid)
  | Throw msg => ∃ cid, nodeContainerRef ndef = Some cid
                        ∧ rc !! cid = None
                        ∧ (cid ∉ Js.objectPrototype
                           → msg = Layout.containerNotFound cid)
  end.
Proof.
  unfold Layout.resolveNode, nodeContainerRef.
  destruct (Layout.innerPlacement ndef) as [[cid col]|].
  - destruct (innerCellCenter_cases rc cid col)
      as [[Hn (msg & -> & Hmsg)] | (c & Hc & Hget & p & ->)]; cbn.
    + eauto.
    + rewrite Hget. cbn. intros ? [= <-]. eauto.
  - destruct (nd_alignToInnerCol ndef) as [[cid col]|]; cbn.
    + destruct (innerCellCenter_cases rc cid col)
        as [[Hn (msg & -> & Hmsg)] | (c & Hc & Hget & p & ->)]; cbn.
      * eauto.
      * intros ? [= <-]. eauto.
    + intros ? [=].
Qed.

Section ConnectionCases.
Variables (grid : GridConfig) (theme : Layout.Theme).
Variables (rc : gmap string Layout.ResolvedContainer).
Variables (rn : gmap string Layout.ResolvedNode).

Lemma containerEdge_own cid e y c :
  Js.get rc cid = Js.Own c →
  ∃ p, Layout.containerEdge rc cid e y = Ok p.
Proof. intros H. unfold Layout.containerEdge. rewrite H. eauto. Qed.

Lemma getTargetCenter_cases t :
  match Layout.getTargetCenter grid theme rc rn t with
  | Ok (Some _) => present rc rn t
  | Ok None => ∀ msg, missing rc rn t msg
  | Throw msg => missing rc rn t msg
  end.
Proof.
  destruct t as [id | cid e]; cbn.
  - destruct (get_cases rn id) as [(c & Hc & ->) | [(Hn & Hin & ->)
                                                   | (Hn & Hin & ->)]].
    + eauto.
    + intros msg. split; [exact Hn | contradiction].
    + auto.
  - destruct (get_cases rc cid) as [(c & Hc & Hget) | [(Hn & Hin & ->)
                                                      | (Hn & Hin & ->)]].
    + unfold Layout.containerEdge. rewrite Hget. cbn. eauto.
    + split; [exact Hn | contradiction].
    + auto.
Qed.

Lemma anchorPoint_cases t edge center :
  match Layout.anchorPoint rc rn t edge (Some center) with
  | Ok _ => present rc rn t
  | Throw msg => missing rc rn t msg
  end.
Proof.
  destruct t as [id | cid e]; cbn.
  - unfold Layout.nodeEdge.
    destruct (get_cases rn id) as [(c & Hc & ->) | [(Hn & Hin & ->)
                                                   | (Hn & Hin & ->)]].
    + eauto.
    + split; [exact Hn | contradiction].
    + auto.
  - unfold Layout.containerEdge.
    destruct (get_cases rc cid) as [(c & Hc & ->) | [(Hn & Hin & ->)
                                                    | (Hn & Hin & ->)]].
    + eauto.
    + split; [exact Hn | contradiction].
    + auto.
Qed.

Lemma anchorPoint_present t edge center :
  present rc rn t → ∃ p, Layout.anchorPoint rc rn t edge (Some center) = Ok p.
Proof.
  intros Hp. pose proof (anchorPoint_cases t edge center) as H.
  destruct (Layout.anchorPoint rc rn t edge (Some center)) as [p|msg];
    [eauto|].
  exfalso. destruct t as [id | cid e]; cbn in *; destruct Hp as [v Hv];
    destruct H as [H _]; congruence.
Qed.

Lemma endpointEdge_throws override self selfCenter otherCenter msg :
  Layout.endpointEdge override self selfCenter otherCenter = Throw msg →
  selfCenter = None ∨ otherCenter = None.
Proof.
  destruct selfCenter, otherCenter; auto.
  unfold Layout.endpointEdge. destruct override, self; cbn; discriminate.
Qed.

Lemma resolveConnection_cases cdef :
  match Layout.resolveConnection grid theme rc rn cdef with
  | Ok _ => present rc rn (cn_from cdef) ∧ present rc rn (cn_to cdef)
  | Throw msg => missing rc rn (cn_from cdef) msg ∨ missing rc rn (cn_to cdef) msg
  end.
Proof.
  unfold Layout.resolveConnection.
  pose proof (getTargetCenter_cases (cn_from cdef)) as Hf.
  pose proof (getTargetCenter_cases (cn_to cdef)) as Ht.
  destruct (Layout.getTargetCenter grid theme rc rn (cn_from cdef))
    as [fc|m1] eqn:Ef; cbn; [|left; exact Hf].
  destruct (Layout.getTargetCenter grid theme rc rn (cn_to cdef))
    as [tc|m2] eqn:Et; cbn; [|right; exact Ht].
  assert (Hfn : fc = None → ∀ msg, missing rc rn (cn_from cdef) msg)
    by (intros ->; exact Hf).
  assert (Htn : tc = None → ∀ msg, missing rc rn (cn_to cdef) msg)
    by (intros ->; exact Ht).
  destruct (Layout.endpointEdge (cn_fromEdge cdef) (cn_from cdef) fc tc)
    as [fe|m] eqn:Efe; cbn.
  2: { destruct (endpointEdge_throws _ _ _ _ _ Efe) as [H|H];
         [left; apply Hfn | right; apply Htn]; exact H. }
  destruct (Layout.endpointEdge (cn_toEdge cdef) (cn_to cdef) tc fc)
    as [te|m] eqn:Ete; cbn.
  2: { destruct (endpointEdge_throws _ _ _ _ _ Ete) as [H|H];
         [right; apply Htn | left; apply Hfn]; exact H. }
  destruct fc as [fc|].
  2: { apply getTargetCenter_undefined in Ef as [_ Ha]. rewrite Ha. cbn.
       left. apply Hf. }
  pose proof (anchorPoint_cases (cn_from cdef) fe fc) as Hfp.
  destruct (Layout.anchorPoint rc rn (cn_from cdef) fe (Some fc))
    as [fp|m]; cbn; [|left; exact Hfp].
  destruct tc as [tc|].
  2: { apply getTargetCenter_undefined in Et as [_ Ha]. rewrite Ha. cbn.
       right. apply Ht. }
  pose proof (anchorPoint_cases (cn_to cdef) te tc) as Htp.
  destruct (Layout.anchorPoint rc rn (cn_to cdef) te (Some tc))
    as [tp|m]; cbn; [|right; exact Htp].
  auto.
Qed.
End ConnectionCases.

Lemma Forall2_ok_elem {A B} (f : A → result B) l ys x :
  Forall2 (fun x y => f x = Ok y) l ys → x ∈ l → ∃ y, f x = Ok y.
Proof.
  induction 1 as [|a y l ys Hay _ IH]; intros Hx.
  - inversion Hx.
  - apply list_elem_of_In in Hx. destruct Hx as [<-|Hx]; [eauto|].
    apply IH. apply list_elem_of_In. exact Hx.
Qed.

(** A resolution either succeeds, and then no reference dangles, or throws,
    and then it has met a dangling reference. *)
Lemma resolveLayout_cases grid nodes containers connections theme :
  match Layout.resolveLayout grid nodes containers connections theme with
  | Ok _ =>
      (∀ n cid, n ∈ nodes → nodeContainerRef n = Some cid →
                cid ∈ map cd_id containers)
      ∧ (∀ c, c ∈ connections →
              targetPresent (map nd_id nodes) (map cd_id containers)
                (cn_from c)
              ∧ targetPresent (map nd_id nodes) (map cd_id containers)
                  (cn_to c))
  | Throw msg => namesDangling nodes containers connections msg
  end.
Proof.
  unfold Layout.resolveLayout.
  set (rc := Layout.resolveContainers grid theme containers).
  assert (Hrc : ∀ cid, is_Some (rc !! cid) ↔ cid ∈ map cd_id containers)
    by (intros; apply resolveContainers_lookup).
  assert (Hrc' : ∀ cid, rc !! cid = None → cid ∉ map cd_id containers).
  { intros cid Hn Hin. apply Hrc in Hin as [v Hv]. congruence. }
  destruct (Layout.resolveNodes grid theme rc nodes) as [rn|msg] eqn:En; cbn.
  2: { left. unfold Layout.resolveNodes in En.
       apply forEach_throw in En as (n & s' & Hn & Hb).
       unfold Layout.placeNode in Hb.
       apply bind_Throw in Hb as [Hb | (v & _ & [=])].
       pose proof (resolveNode_cases grid theme rc n) as Hc.
       rewrite Hb in Hc. destruct Hc as (cid & Href & Hnone & Hmsg).
       exists n, cid. auto. }
  assert (Hrn : ∀ id, is_Some (rn !! id) ↔ id ∈ map nd_id nodes)
    by (intros; eapply resolveNodes_lookup; exact En).
  assert (Hrn' : ∀ id, rn !! id = None → id ∉ map nd_id nodes).
  { intros id Hn Hin. apply Hrn in Hin as [v Hv]. congruence. }
  destruct (Layout.resolveConnections grid theme rc rn connections)
    as [rx|msg] eqn:Ex; cbn.
  - split.
    + intros n cid Hn Href. unfold Layout.resolveNodes in En.
      destruct (assign_all nd_id (Layout.resolveNode grid theme rc)
                  (Layout.placeNode grid theme rc) (fun _ _ => eq_refl)
                  nodes ∅ rn En n Hn) as [v Hv].
      pose proof (resolveNode_cases grid theme rc n) as Hc.
      rewrite Hv in Hc. apply Hrc. apply Hc. exact Href.
    + intros c Hc. unfold Layout.resolveConnections in Ex.
      apply (forEach_ok_elem (Layout.resolveConnection grid theme rc rn))
        in Ex as (ys & _ & Hall).
      destruct (Forall2_ok_elem _ _ _ c Hall Hc) as [y Hy].
      pose proof (resolveConnection_cases grid theme rc rn c) as Hcases.
      rewrite Hy in Hcases. destruct Hcases as [Hf Ht].
      split.
      * destruct (cn_from c); cbn in *; [apply Hrn | apply Hrc]; assumption.
      * destruct (cn_to c); cbn in *; [apply Hrn | apply Hrc]; assumption.
  - right. unfold Layout.resolveConnections in Ex.
    apply forEach_throw in Ex as (c & s' & Hc & Hb).
    unfold Layout.connectionStep in Hb.
    apply bind_Throw in Hb as [Hb | (v & _ & [=])].
    pose proof (resolveConnection_cases grid theme rc rn c) as Hcases.
    rewrite Hb in Hcases.
    destruct Hcases as [Hm | Hm].
    + exists c, (cn_from c). split; [exact Hc|]. split; [left; reflexivity|].
      destruct (cn_from c); cbn in *; destruct Hm as [Hn Hmsg]; auto.
    + exists c, (cn_to c). split; [exact Hc|]. split; [right; reflexivity|].
      destruct (cn_to c); cbn in *; destruct Hm as [Hn Hmsg]; auto.
Qed.

(** C8, as the code has it.  In a diagram with plain ids (nothing is
    declared under the id [__proto__], and no id that is looked up without
    being declared is the name of a member of [Object.prototype]): when a
    connection endpoint names a node or container that is not in the
    supplied collections, or a node is placed by a container that is not
    (the container it lives in; its alignment target when it does not live
    in one), resolution throws instead of returning a layout, and the
    message is [Node "<id>" not found in layout] or
    [Container "<id>" not found in layout] for a dangling id.  The alignment
    of a node that lives in a container is not looked at. *)
Theorem fatal_reference_errors grid nodes containers connections theme :
  plainIds nodes containers connections →
  (∃ c t, c ∈ connections ∧ (t = cn_from c ∨ t = cn_to c)
          ∧ ¬ targetPresent (map nd_id nodes) (map cd_id containers) t)
  ∨ (∃ n cid, n ∈ nodes ∧ nodeContainerRef n = Some cid
              ∧ cid ∉ map cd_id containers) →
  ∃ msg,
    Layout.resolveLayout grid nodes containers connections theme = Throw msg
    ∧ ((∃ n cid, n ∈ nodes ∧ nodeContainerRef n = Some cid
                 ∧ (cid ∉ map cd_id containers)
                 ∧ msg = "Container " +:+ Layout.quote +:+ cid
                         +:+ Layout.quote +:+ " not found in layout")
       ∨ (∃ c t, c ∈ connections ∧ (t = cn_from c ∨ t = cn_to c)
                 ∧ match t with
                   | NodeRef id =>
                       (id ∉ map nd_id nodes)
                       ∧ msg = "Node " +:+ Layout.quote +:+ id
                               +:+ Layout.quote +:+ " not found in layout"
                   | ContainerRef cid _ =>
                       (cid ∉ map cd_id containers)
                       ∧ msg = "Container " +:+ Layout.quote +:+ cid
                               +:+ Layout.quote +:+ " not found in layout"
                   end)).
Proof.
  intros (_ & _ & Hplain_n & Hplain_c) Hdangling.
  pose proof (resolveLayout_cases grid nodes containers connections theme)
    as Hcases.
  destruct (Layout.resolveLayout grid nodes containers connections theme)
    as [layout|msg].
  - exfalso. destruct Hcases as [Hnodes Hconns].
    destruct Hdangling as [(c & t & Hc & Ht & Habsent)
                          | (n & cid & Hn & Hr & Habsent)].
    + destruct (Hconns c Hc) as [Hf Hto].
      destruct Ht as [-> | ->]; contradiction.
    + apply Habsent. eapply Hnodes; eassumption.
  - exists msg. split; [reflexivity|].
    destruct Hcases as [(n & cid & Hn & Hr & Habsent & Hmsg)
                       | (c & t & Hc & Ht & Hmiss)].
    + left. exists n, cid. split; [exact Hn|]. split; [exact Hr|].
      split; [exact Habsent|]. apply Hmsg. eapply Hplain_n; eassumption.
    + right. exists c, t. split; [exact Hc|]. split; [exact Ht|].
      assert (Hid : ¬ targetPresent (map nd_id nodes) (map cd_id containers) t
                    → referencedId t ∉ Js.objectPrototype)
        by (apply (Hplain_c c t Hc Ht)).
      destruct t as [id | cid e]; cbn in *; destruct Hmiss as [Habsent Hmsg];
        (split; [exact Habsent | apply Hmsg, Hid, Habsent]).
Qed.

Lemma fatal_reference_errors_witness :
  ∃ msg, Layout.resolveLayout requestGrid requestNodes []
           [plainConnection (NodeRef "client") (NodeRef "cache")] defaultTheme
         = Throw msg
    ∧ msg = "Node " +:+ Layout.quote +:+ "cache" +:+ Layout.quote
            +:+ " not found in layout".
Proof.
  assert (Hcache : "cache" ∉ map nd_id requestNodes).
  { cbn. apply not_elem_of_cons. split; [discriminate|].
    apply not_elem_of_cons. split; [discriminate|].
    apply not_elem_of_cons. split; [discriminate|]. apply not_elem_of_nil. }
  destruct (fatal_reference_errors requestGrid requestNodes []
              [plainConnection (NodeRef "client") (NodeRef "cache")]
              defaultTheme) as (msg & Hmsg & _).
  - split; [|split; [|split]].
    + cbn. apply not_elem_of_cons. split; [discriminate|].
      apply not_elem_of_cons. split; [discriminate|].
      apply not_elem_of_cons. split; [discriminate|]. apply not_elem_of_nil.
    + apply not_elem_of_nil.
    + intros n cid Hn Href. exfalso. revert Href.
      apply (proj1 (Forall_forall
                      (fun n => nodeContainerRef n = Some cid → False)
                      requestNodes));
        [|exact Hn].
      unfold requestNodes.
      repeat (apply Forall_cons; split; [vm_compute; discriminate|]).
      apply Forall_nil_2.
    + intros c t Hc Ht Habsent. apply list_elem_of_singleton in Hc. subst c.
      destruct Ht as [-> | ->]; cbn in *.
      * exfalso. apply Habsent. left.
      * unfold Js.objectPrototype.
        repeat (apply not_elem_of_cons; split; [discriminate|]).
        apply not_elem_of_nil.
  - left. exists (plainConnection (NodeRef "client") (NodeRef "cache")),
                 (NodeRef "cache").
    split; [left|]. split; [right; reflexivity|]. exact Hcache.
  - exists msg. split; [exact Hmsg|].
    revert Hmsg. vm_compute. intros [= <-]. reflexivity.
Defined.

(** C8 as stated fails for an alignment: the alignment of a node that lives
    in a container is never looked at, so its unknown container id raises
    nothing and a layout is returned. *)
Lemma fatal_reference_errors_counterexample :
  nd_alignToInnerCol shadowedAlignment = Some ("ghost", 0)
  ∧ ("ghost" ∉ map cd_id [plainContainer "pipe" 0 1 2])
  ∧ ∃ layout, Layout.resolveLayout requestGrid [shadowedAlignment]
                [plainContainer "pipe" 0 1 2] [] defaultTheme = Ok layout
              ∧ is_Some (Layout.l_nodes layout !! "worker").
Proof.
  split; [reflexivity|]. split.
  - cbn. apply not_elem_of_cons. split; [discriminate | apply not_elem_of_nil].
  - eexists. split; [vm_compute; reflexivity|]. vm_compute. eauto.
Qed.

(** ** Ids that name a member of [Object.prototype] *)

(** X27. The not-found guard tests the looked-up value for truthiness, so an
    undeclared node id that names a member of [Object.prototype] (such as
    [toString]) passes it: the endpoint gets no center and no error naming
    the id; resolving a connection from it to a declared node still raises an
    error, but not the guard's. *)
Theorem inherited_name_escapes_guard grid theme rc rn cdef id other n :
  cn_from cdef = NodeRef id → cn_to cdef = NodeRef other →
  rn !! id = None → id ∈ Js.objectPrototype →
  rn !! other = Some n →
  Layout.getTargetCenter grid theme rc rn (NodeRef id) = Ok None
  ∧ ∃ msg, Layout.resolveConnection grid theme rc rn cdef = Throw msg
           ∧ msg ≠ Layout.nodeNotFound id.
Proof.
  intros Hfrom Hto Hid Hin Hother.
  assert (Hget : Js.get rn id = Js.Inherited).
  { unfold Js.get. rewrite Hid.
    rewrite bool_decide_eq_true_2 by exact Hin. reflexivity. }
  assert (Hc : Layout.getTargetCenter grid theme rc rn (NodeRef id) = Ok None)
    by (cbn; rewrite Hget; reflexivity).
  split; [exact Hc|].
  exists (Js.typeError "x"). split; [|discriminate].
  unfold Layout.resolveConnection. rewrite Hfrom, Hto, Hc.
  cbn [Layout.getTargetCenter]. rewrite (get_own _ _ _ Hother).
  cbn [mbind result_bind rbind].
  unfold Layout.endpointEdge, Layout.anchorPoint, Layout.nodeEdge.
  rewrite Hget.
  destruct (cn_fromEdge cdef), (cn_toEdge cdef); reflexivity.
Qed.

Lemma inherited_name_escapes_guard_witness :
  ("toString" ∉ map nd_id requestNodes)
  ∧ ∃ msg, Layout.resolveLayout requestGrid requestNodes []
             [plainConnection (NodeRef "toString") (NodeRef "api")]
             defaultTheme = Throw msg
           ∧ msg ≠ Layout.nodeNotFound "toString".
Proof.
  split.
  { cbn. repeat (apply not_elem_of_cons; split; [discriminate|]).
    apply not_elem_of_nil. }
  assert (H : ∃ rn n,
            Layout.resolveNodes requestGrid defaultTheme
              (Layout.resolveContainers requestGrid defaultTheme [])
              requestNodes = Ok rn
            ∧ rn !! "toString" = None ∧ rn !! "api" = Some n)
    by (do 2 eexists; split; [|split]; vm_compute; reflexivity).
  destruct H as (rn & n & Hrn & Hid & Hother).
  destruct (inherited_name_escapes_guard requestGrid defaultTheme
              (Layout.resolveContainers requestGrid defaultTheme []) rn
              (plainConnection (NodeRef "toString") (NodeRef "api"))
              "toString" "api" n eq_refl eq_refl Hid
              ltac:(unfold Js.objectPrototype; do 8 right; left) Hother)
    as [_ (msg & Hmsg & Hne)].
  exists msg. split; [|exact Hne].
  unfold Layout.resolveLayout. rewrite Hrn. cbn [mbind result_bind rbind].
  unfold Layout.resolveConnections. cbn [forEach].
  unfold Layout.connectionStep. rewrite Hmsg. reflexivity.
Defined.

(** ** When an evaluation returns *)

Lemma forIndex_total {A St} (body : nat → A → St → result St) l :
  (∀ i x s, x ∈ l → ∃ s', body i x s = Ok s') →
  ∀ i s, ∃ s', forIndex body i l s = Ok s'.
Proof.
  induction l as [|x l IH]; intros Hbody i s; cbn; [eauto|].
  destruct (Hbody i x s) as [s1 ->]; [left|].
  apply IH. intros j y t Hy. apply Hbody. right. exact Hy.
Qed.

Lemma forEach_total {A St} (body : A → St → result St) l :
  (∀ x s, x ∈ l → ∃ s', body x s = Ok s') →
  ∀ s, ∃ s', forEach body l s = Ok s'.
Proof.
  induction l as [|x l IH]; intros Hbody s; cbn; [eauto|].
  destruct (Hbody x s) as [s1 ->]; [left|].
  apply IH. intros y t Hy. apply Hbody. right. exact Hy.
Qed.

Lemma interpolate2_total x a b o1 o2 :
  a < b → ∃ v, interpolate x [a; b] [o1; o2] = Ok v.
Proof.
  intros Hab. rewrite interpolate2. apply gt_true in Hab. rewrite Hab. eauto.
Qed.

(** Only a group tag that names a member of [Object.prototype] can make
    the fade-out start something else than an instant. *)
Lemma fadeOutStartOf_finite anim evt i :
  (∀ g, group evt = Some g → g ∉ Js.objectPrototype) →
  fadeOutStartOf anim evt i ≠ NotFinite.
Proof.
  intros Hplain. pose proof (PassInv_final anim) as [_ _ Hset].
  unfold fadeOutStartOf.
  destruct (groupOf evt) as [g|] eqn:Eg.
  2: { destruct (computeFadeOutStart anim i evt); discriminate. }
  pose proof (Hplain g (groupOf_group _ _ Eg)) as Hg.
  destruct (get_cases (groupLatestTriggerFrame anim) g)
    as [(T & HT & ->) | [(_ & Hin & _) | (_ & _ & ->)]].
  - destruct T as [t| |]; try discriminate.
    destruct (Hset _ _ HT) as [Hin _]. contradiction.
  - contradiction.
  - destruct (computeFadeOutStart anim i evt); discriminate.
Qed.

Section Returns.
Variables (frame fps : Q) (anim : list FlatEvent).
Hypothesis fade_frames : (0 < Js.round (FADE_OUT_S * fps))%Z.
Hypothesis durations : ∀ e, e ∈ anim → (0 < durationFrames e)%Z.
Hypothesis plain_groups :
  ∀ e g, e ∈ anim → group e = Some g → g ∉ Js.objectPrototype.

Lemma eventDrawProgress_total evt :
  evt ∈ anim → ∃ v, eventDrawProgress frame evt = Ok v.
Proof.
  intros He. apply interpolate2_total.
  apply (proj1 (Zlt_inj _ _)). pose proof (durations evt He). lia.
Qed.

Lemma eventEnvelope_total evt i :
  evt ∈ anim → ∃ v, eventEnvelope frame fps anim evt i = Ok v.
Proof.
  intros He. pose proof (durations evt He) as Hd.
  pose proof (fadeOutStartOf_finite anim evt i (fun g => plain_groups evt g He))
    as Hfin.
  unfold eventEnvelope.
  destruct (fadeOutStartOf anim evt i) as [|t|]; [| |contradiction].
  2: { rewrite interpolate4.
    set (fadeInEnd := (startFrame evt + durationFrames evt)%Z).
    set (adjusted := if (t <=? fadeInEnd)%Z then (fadeInEnd + 1)%Z else t).
    assert (H1 : (startFrame evt : Q) < fadeInEnd)
      by (apply (proj1 (Zlt_inj _ _)); unfold fadeInEnd; lia).
    assert (H2 : (fadeInEnd : Q) < adjusted).
    { apply (proj1 (Zlt_inj _ _)). unfold adjusted.
      destruct (Z.leb_spec t fadeInEnd); lia. }
    assert (H3 : (adjusted : Q)
                 < (adjusted + Js.round (FADE_OUT_S * fps))%Z)
      by (apply (proj1 (Zlt_inj _ _)); lia).
    apply gt_true in H1, H2, H3. rewrite H1, H2, H3. cbn [andb]. eauto. }
  apply interpolate2_total.
  apply (proj1 (Zlt_inj _ _)). lia.
Qed.

Lemma nodeBody_total id i evt a :
  evt ∈ anim → ∃ a', nodeBody frame fps anim id i evt a = Ok a'.
Proof.
  intros He. unfold nodeBody.
  destruct (eventEnvelope_total evt i He) as [b Hb].
  destruct (eventDrawProgress_total evt He) as [d Hd].
  destruct (isAction AFillBox evt && isTarget evt id);
    destruct (isAction ADimBox evt && isTarget evt id);
    rewrite ?Hb, ?Hd; cbn [mbind result_bind rbind]; rewrite ?Hd;
    cbn [mbind result_bind rbind]; eauto.
Qed.

Lemma connBody_total id i evt a :
  evt ∈ anim → ∃ a', connBody frame fps anim id i evt a = Ok a'.
Proof.
  intros He. unfold connBody.
  destruct (eventEnvelope_total evt i He) as [b Hb].
  destruct (eventDrawProgress_total evt He) as [d Hd].
  destruct (isAction ADrawLine evt && isTarget evt id);
    rewrite ?Hb, ?Hd; cbn [mbind result_bind rbind]; rewrite ?Hd;
    cbn [mbind result_bind rbind]; eauto.
Qed.

Lemma containerBody_total id i evt b :
  evt ∈ anim → ∃ b', containerBody frame fps anim id i evt b = Ok b'.
Proof.
  intros He. unfold containerBody.
  destruct (eventEnvelope_total evt i He) as [v Hv].
  destruct (isAction AShowContainer evt && isTarget evt id);
    rewrite ?Hv; cbn [mbind result_bind rbind]; eauto.
Qed.

Lemma nodeState_total floor ndef :
  ∃ s, nodeState frame fps anim floor ndef = Ok s.
Proof.
  unfold nodeState.
  destruct (forIndex_total (nodeBody frame fps anim (nd_id ndef)) anim
              (fun i x s Hx => nodeBody_total _ i x s Hx) 0%nat
              {| n_maxBright := 0; n_maxDraw := 0; n_dimAmount := 0 |})
    as [a ->].
  cbn [mbind result_bind rbind]. eauto.
Qed.

Lemma connState_total floor total id :
  ∃ s, connState frame fps anim floor total id = Ok s.
Proof.
  unfold connState.
  destruct (forIndex_total (connBody frame fps anim id) anim
              (fun i x s Hx => connBody_total _ i x s Hx) 0%nat
              {| c_maxBright := 0; c_maxDraw := 0 |}) as [a ->].
  cbn [mbind result_bind rbind].
  destruct (interpolate2_total frame
              (flowEnd fps anim total
               - Js.round (DEFAULT_DRAW_DURATION * fps))%Z
              (flowEnd fps anim total) 0 1) as [r ->].
  - apply (proj1 (Zlt_inj _ _)).
    change DEFAULT_DRAW_DURATION with FADE_OUT_S. lia.
  - cbn [mbind result_bind rbind]. eauto.
Qed.

Lemma containerState_total floor nodes nodeStates cdef :
  ∃ s, containerState frame fps anim floor nodes nodeStates cdef = Ok s.
Proof.
  unfold containerState.
  destruct (forIndex_total (containerBody frame fps anim (cd_id cdef)) anim
              (fun i x s Hx => containerBody_total _ i x s Hx) 0%nat 0)
    as [b ->].
  cbn [mbind result_bind rbind]. eauto.
Qed.

Lemma findCurrentStep_total : ∃ c, findCurrentStep frame anim = Ok c.
Proof.
  unfold findCurrentStep.
  destruct (List.find _ (rev anim)) as [evt|] eqn:E; [|eauto].
  apply find_some in E as [Hin _]. apply in_rev in Hin.
  apply list_elem_of_In in Hin.
  destruct (eventDrawProgress_total evt Hin) as [v Hv].
  unfold eventDrawProgress in Hv. rewrite Hv.
  cbn [mbind result_bind rbind]. eauto.
Qed.

Lemma indicator_total floor total :
  ∃ o, indicator frame fps anim floor total = Ok o.
Proof.
  unfold indicator. destruct (Js.ge frame (flowEnd fps anim total)).
  - cbn [mbind result_bind rbind]. eauto.
  - destruct (interpolate2_total frame
                (flowEnd fps anim total
                 - Js.round (FADE_OUT_S * fps) * 2)%Z
                (flowEnd fps anim total) 1 0) as [r ->].
    + apply (proj1 (Zlt_inj _ _)). lia.
    + cbn [mbind result_bind rbind]. eauto.
Qed.
End Returns.

(** X21. With at least one phase, more than one frame per second, a fade-out
    of at least one frame, animation events of at least one frame each and
    no group tag that names a member of [Object.prototype], [useTimeline]
    returns a state, at every frame and for any declared elements. *)
Lemma useTimeline_returns timeline nodes connections containers frame fps :
  timeline ≠ [] →
  1 < fps →
  (0 < Js.round (FADE_OUT_S * fps))%Z →
  (∀ e, e ∈ animEventsOf (flattenTimeline fps timeline) →
        (0 < durationFrames e)%Z) →
  (∀ e g, e ∈ animEventsOf (flattenTimeline fps timeline) →
          group e = Some g → g ∉ Js.objectPrototype) →
  ∃ st, useTimeline timeline nodes connections containers frame fps
        = Ok (Some st).
Proof.
  intros Hne Hfps Hfade Hdur Hplain. unfold useTimeline.
  destruct timeline as [|p tl]; [contradiction|].
  cbn [length Nat.eqb].
  apply (ge_false 1 fps) in Hfps. unfold Js.le. unfold Js.ge in Hfps.
  rewrite Hfps.
  set (events := flattenTimeline fps (p :: tl)) in *.
  set (anim := animEventsOf events) in *.
  destruct (computeGlobals_total events frame) as [g ->].
  cbn [mbind result_bind rbind].
  destruct (forEach_total (nodeStep frame fps anim (g_floor g)) nodes)
    with (s := (∅ : gmap string ElementAnimState)) as [ns ->].
  { intros n m _. unfold nodeStep.
    destruct (nodeState_total frame fps anim Hfade Hdur Hplain (g_floor g) n)
      as [s ->]. cbn [mbind result_bind rbind]. eauto. }
  cbn [mbind result_bind rbind].
  destruct (forEach_total (connStep frame fps anim (g_floor g)
                             (maxEnd events))
              (map getConnectionId connections))
    with (s := (∅ : gmap string ElementAnimState)) as [cs ->].
  { intros n m _. unfold connStep.
    destruct (connState_total frame fps anim Hfade Hdur Hplain (g_floor g)
                (maxEnd events) n) as [s ->].
    cbn [mbind result_bind rbind]. eauto. }
  cbn [mbind result_bind rbind].
  destruct (forEach_total (containerStep frame fps anim (g_floor g) nodes ns)
              containers)
    with (s := (∅ : gmap string ElementAnimState)) as [ks ->].
  { intros n m _. unfold containerStep.
    destruct (containerState_total frame fps anim Hfade Hdur Hplain (g_floor g)
                nodes ns n) as [s ->].
    cbn [mbind result_bind rbind]. eauto. }
  cbn [mbind result_bind rbind].
  destruct (findCurrentStep_total frame anim Hdur) as [c ->].
  cbn [mbind result_bind rbind].
  destruct (indicator_total frame fps anim Hfade (g_floor g) (maxEnd events))
    as [o ->].
  cbn [mbind result_bind rbind]. eauto.
Qed.

(** An animation event of zero frames makes the evaluation throw: its ramp
    has no strictly increasing breakpoints. *)
Lemma zero_duration_throws :
  ∃ msg, useTimeline zeroFrame [plainNode "a" 0 0] [] [] 0 30 = Throw msg.
Proof. eexists. vm_compute. reflexivity. Qed.

(** ** Flattened timelines with non-negative durations *)

Lemma nonnegStep_parallel steps g :
  nonnegStep (StepParallel steps g) ↔ Forall nonnegStep steps.
Proof.
  cbn [nonnegStep]. induction steps as [|st steps IH]; cbn [fold_right].
  - split; [constructor | trivial].
  - rewrite Forall_cons, IH. reflexivity.
Qed.

Section Nonneg.
Variable fps : Q.
Hypothesis fps_nonneg : 0 <= fps.

Lemma newEvents_nonneg st :
  nonnegStep st →
  ∀ pg c e, e ∈ newEvents fps st pg c → (0 <= durationFrames e)%Z.
Proof.
  induction st as [a tgt d l g | d | steps g IH] using AnimationStep_tree_ind;
    intros Hst pg c e He.
  - apply list_elem_of_singleton in He as ->. cbn [durationFrames].
    apply (stepFrames_nonneg fps (StepAct a tgt d l g) fps_nonneg Hst).
  - apply list_elem_of_singleton in He as ->. cbn [durationFrames].
    apply (stepFrames_nonneg fps (StepHold d) fps_nonneg Hst).
  - rewrite newEvents_parallel in He.
    apply list_elem_of_join in He as (evs & He & Hevs).
    apply list_elem_of_fmap in Hevs as (child & -> & Hchild).
    apply nonnegStep_parallel in Hst.
    rewrite Forall_forall in IH, Hst.
    exact (IH child Hchild (Hst child Hchild) _ _ _ He).
Qed.

Lemma flattenSteps_nonneg steps :
  Forall nonnegStep steps →
  ∀ s e, e ∈ events (flattenSteps fps s steps) →
         e ∈ events s ∨ (0 <= durationFrames e)%Z.
Proof.
  induction 1 as [|st steps Hst _ IH]; intros s e He; cbn in He; [auto|].
  apply IH in He as [He|He]; [|auto].
  destruct (flattenStep_spec fps st None s) as [Hev _]. rewrite Hev in He.
  apply elem_of_app in He as [He|He]; [auto|].
  right. eapply newEvents_nonneg; eassumption.
Qed.

Lemma phaseEvents_nonneg p :
  nonnegPhase p →
  ∀ c e, e ∈ phaseEvents fps p c → (0 <= durationFrames e)%Z.
Proof.
  assert (Hleaf : ∀ a d c e, 0 <= d →
            e ∈ events (phaseEvent fps a d (fresh c)) →
            (0 <= durationFrames e)%Z).
  { intros a d c e Hd He. unfold phaseEvent, push in He.
    cbn [fresh events app] in He.
    apply list_elem_of_singleton in He as ->. cbn [durationFrames].
    apply round_nonneg. nra. }
  destruct p as [d | steps | d | d]; intros Hp c e He;
    try (eapply Hleaf; [exact Hp | exact He]).
  unfold phaseEvents in He. cbn [flattenPhase] in He.
  apply (flattenSteps_nonneg steps Hp) in He as [He|He]; [|exact He].
  inversion He.
Qed.

(** Every event of a flattened timeline starts at a non-negative frame and
    lasts a non-negative number of frames. *)
Lemma flattenTimeline_nonneg timeline :
  Forall nonnegPhase timeline →
  ∀ e, e ∈ flattenTimeline fps timeline →
       (0 <= startFrame e)%Z ∧ (0 <= durationFrames e)%Z.
Proof.
  intros Htl. unfold flattenTimeline.
  assert (H : ∀ s, (0 <= cursor s)%Z →
            (∀ e, e ∈ events s →
                  (0 <= startFrame e)%Z ∧ (0 <= durationFrames e)%Z) →
            ∀ e, e ∈ events (foldl (flattenPhase fps) s timeline) →
                 (0 <= startFrame e)%Z ∧ (0 <= durationFrames e)%Z).
  { induction Htl as [|p tl Hp _ IH]; intros s Hc Hs e He; cbn in He;
      [auto|].
    destruct (flattenPhase_spec fps fps_nonneg p s Hp) as (Hle & Hev & Hw).
    eapply IH; [| |exact He]; [lia|].
    intros e' He'. rewrite Hev in He'.
    apply elem_of_app in He' as [He'|He']; [auto|].
    destruct (Hw e' He') as [Hstart _].
    split; [lia | eapply phaseEvents_nonneg; eassumption]. }
  apply (H {| events := []; cursor := 0 |}); [cbn; lia|].
  intros e He. inversion He.
Qed.

Lemma animEvents_ends_nonneg timeline :
  Forall nonnegPhase timeline →
  ∀ e, e ∈ animEventsOf (flattenTimeline fps timeline) → (0 <= endFrame e)%Z.
Proof.
  intros Htl e He. unfold animEventsOf in He.
  apply list_elem_of_filter in He as [_ He].
  destruct (flattenTimeline_nonneg timeline Htl e He). unfold endFrame. lia.
Qed.
End Nonneg.

(** * Further properties of the engine *)

(** ** Global floor and opacity *)

(** X1. [computeGlobals] returns for every event list and every frame, and
    both the floor and the opacity it returns lie in [[0,1]]. *)
Theorem globals_in_range events frame :
  ∃ g, computeGlobals events frame = Ok g
       ∧ 0 <= g_floor g ∧ g_floor g <= 1
       ∧ 0 <= g_opacity g ∧ g_opacity g <= 1.
Proof.
  destruct (computeGlobals_total events frame) as [g Hg].
  destruct (computeGlobals_unit events frame g Hg) as [[H1 H2] [H3 H4]].
  exists g. auto.
Qed.




(** ** Element states *)

(** X3. Every element state that [useTimeline] returns has brightness and
    draw progress in [[0,1]] and an opacity between the dim level of its kind
    (0.3 for nodes and containers, 0.15 for connections) and 1; the draw
    progress of a container is 1. *)
Theorem element_states_in_range timeline nodes connections containers frame
    fps st :
  useTimeline timeline nodes connections containers frame fps = Ok (Some st) →
  let inRange (dim : Q) (s : ElementAnimState) :=
    0 <= brightness s ∧ brightness s <= 1
    ∧ 0 <= drawProgress s ∧ drawProgress s <= 1
    ∧ dim <= opacity s ∧ opacity s <= 1 in
  (∀ id s, ts_nodes st !! id = Some s → inRange (3 # 10) s)
  ∧ (∀ id s, ts_connections st !! id = Some s → inRange (15 # 100) s)
  ∧ (∀ id s, ts_containers st !! id = Some s →
       inRange (3 # 10) s ∧ drawProgress s = 1).
Proof.
  intros H inRange.
  destruct (states_unit _ _ _ _ _ _ _ H) as (Hn & Hc & Hk).
  apply useTimeline_stages in H.
  split; [|split]; intros id s Hs.
  - destruct (Hn id s Hs) as ([? ?] & [? ?] & [? ?]).
    eapply node_entry in Hs as (a & _ & _ & ->); [|exact H].
    cbn in *. unfold DIM_NODE in *. unfold inRange. cbn.
    repeat (split; [assumption|]). split; [|assumption]. unfold DIM_NODE. lra.
  - destruct (Hc id s Hs) as ([? ?] & [? ?] & [? ?]).
    eapply conn_entry in Hs as (a & r & _ & _ & _ & ->); [|exact H].
    cbn in *. unfold inRange. cbn.
    repeat (split; [assumption|]). split; [|assumption]. unfold DIM_ARROW. lra.
  - destruct (Hk id s Hs) as ([? ?] & [? ?] & [? ?]).
    eapply container_entry in Hs as (b & _ & ->); [|exact H].
    cbn in *. unfold inRange. cbn. split; [|reflexivity].
    repeat (split; [assumption|]). split; [|assumption].
    unfold DIM_CONTAINER. lra.
Qed.

Lemma element_states_in_range_witness :
  ∃ st s, useTimeline requestFlow requestNodes requestConnections [] 100 30
          = Ok (Some st)
    ∧ ts_connections st !! "api->db" = Some s
    ∧ 0 <= brightness s ∧ brightness s <= 1.
Proof.
  assert (H : ∃ st s, useTimeline requestFlow requestNodes requestConnections
                        [] 100 30 = Ok (Some st)
                      ∧ ts_connections st !! "api->db" = Some s)
    by (eexists; eexists; split; vm_compute; reflexivity).
  destruct H as (st & s & H & Hs). exists st, s.
  split; [exact H|]. split; [exact Hs|].
  destruct (element_states_in_range _ _ _ _ _ _ _ H) as (_ & Hc & _).
  destruct (Hc _ _ Hs) as (H1 & H2 & _). auto.
Defined.

(** ** Evaluations that return and evaluations that throw *)

Lemma useTimeline_returns_witness :
  ∃ st, useTimeline requestFlow requestNodes requestConnections [] 70 30
        = Ok (Some st).
Proof.
  apply useTimeline_returns.
  - discriminate.
  - vm_compute. reflexivity.
  - vm_compute. reflexivity.
  - apply Forall_forall. vm_compute. repeat constructor.
  - intros e g He. revert g.
    refine (proj1 (Forall_forall
                     (fun e => ∀ g, group e = Some g
                                    → g ∉ Js.objectPrototype) _) _ e He).
    vm_compute. repeat (constructor; [intros ?; discriminate|]). constructor.
Defined.

Lemma forIndex_ok_elem {A St} (body : nat → A → St → result St) l i s s' x :
  forIndex body i l s = Ok s' → x ∈ l → ∃ j a a', body j x a = Ok a'.
Proof.
  revert i s. induction l as [|y l IH]; intros i s H Hx; [inversion Hx|].
  cbn in H. apply bind_Ok in H as (s1 & Hy & H).
  apply list_elem_of_In in Hx. destruct Hx as [<-|Hx]; [eauto|].
  eapply IH; [exact H|]. apply list_elem_of_In. exact Hx.
Qed.

Lemma useTimeline_not_null timeline nodes connections containers frame fps :
  useTimeline timeline nodes connections containers frame fps = Ok None →
  timeline = [] ∨ fps <= 1.
Proof.
  unfold useTimeline. destruct timeline as [|p tl]; [auto|].
  cbn [length Nat.eqb].
  destruct (Js.le fps 1) eqn:E; [intros _; right; apply Qle_bool_iff; exact E|].
  intros H.
  apply bind_Ok in H as (g & _ & H).
  apply bind_Ok in H as (ns & _ & H).
  apply bind_Ok in H as (cs & _ & H).
  apply bind_Ok in H as (ks & _ & H).
  apply bind_Ok in H as (cur & _ & H).
  apply bind_Ok in H as (ind & _ & [=]).
Qed.

Lemma eventDrawProgress_ok frame evt d :
  eventDrawProgress frame evt = Ok d → (0 < durationFrames evt)%Z.
Proof.
  unfold eventDrawProgress. rewrite interpolate2.
  destruct (Js.gt _ _) eqn:E; [|discriminate]. intros _.
  apply gt_true in E. apply (proj2 (Zlt_inj _ _)) in E. lia.
Qed.

Lemma eventEnvelope_ok frame fps anim evt i b :
  eventEnvelope frame fps anim evt i = Ok b → (0 < durationFrames evt)%Z.
Proof.
  unfold eventEnvelope. destruct (fadeOutStartOf anim evt i) as [|t|].
  - rewrite interpolate2.
    destruct (Js.gt _ _) eqn:E; [|discriminate]. intros _.
    apply gt_true in E. apply (proj2 (Zlt_inj _ _)) in E. lia.
  - rewrite interpolate4.
    destruct (Js.gt (startFrame evt + durationFrames evt)%Z (startFrame evt))
      eqn:E; [|discriminate]. intros _.
    apply gt_true in E. apply (proj2 (Zlt_inj _ _)) in E. lia.
  - discriminate.
Qed.

Lemma round_below_one x : 0 <= x → x < 1 # 2 → Js.round x = 0%Z.
Proof.
  intros H0 H1. unfold Js.round.
  pose proof (Qfloor_le (x + (1 # 2))) as Hle.
  pose proof (Qlt_floor (x + (1 # 2))) as Hlt.
  rewrite inject_Z_plus in Hlt.
  change (inject_Z 1) with 1 in Hlt.
  set (z := Qfloor (x + (1 # 2))) in *.
  assert (Hz1 : inject_Z z < inject_Z 1).
  { change (inject_Z 1) with 1. generalize dependent (inject_Z z).
    intros q ? ?. lra. }
  assert (Hz0 : inject_Z (-1) < inject_Z z).
  { change (inject_Z (-1)) with (-1 # 1). generalize dependent (inject_Z z).
    intros q ? ? ?. lra. }
  apply (proj2 (Zlt_inj _ _)) in Hz1, Hz0. lia.
Qed.

(** X4. An evaluation that is not in still mode throws, instead of
    returning a state, when an animation event with no frames is ramped for
    a declared element (its breakpoints are not strictly increasing), and
    also when the frame rate is below 1.25 and a connection is declared (the
    final ramp of a connection then has no frames). *)
Theorem degenerate_ramp_throws timeline nodes connections containers frame
    fps :
  timeline ≠ [] → 1 < fps →
  (∃ evt, evt ∈ animEventsOf (flattenTimeline fps timeline)
          ∧ (durationFrames evt <= 0)%Z
          ∧ evaluatedFor nodes connections containers evt)
  ∨ (fps < 5 # 4 ∧ connections ≠ []) →
  ∃ msg, useTimeline timeline nodes connections containers frame fps
         = Throw msg.
Proof.
  intros Hne Hfps Hbad.
  destruct (useTimeline timeline nodes connections containers frame fps)
    as [[st|]|msg] eqn:E; [exfalso | exfalso | eauto].
  2: { apply useTimeline_not_null in E as [E|E]; [contradiction | lra]. }
  apply useTimeline_stages in E.
  set (anim := animEventsOf (flattenTimeline fps timeline)) in *.
  destruct Hbad as [(evt & Hevt & Hdur & Hev) | [Hlow Hconn]].
  - destruct Hev as [(n & Hn & Hact & Htgt) | [(c & Hc & Hact & Htgt)
                                              | (k & Hk & Hact & Htgt)]].
    + destruct (assign_all nd_id (nodeState frame fps anim (globalFloor st))
                  (nodeStep frame fps anim (globalFloor st))
                  (fun _ _ => eq_refl) nodes ∅ (ts_nodes st)
                  (stage_nodes _ _ _ _ _ _ _ E) n Hn) as [s Hs].
      apply nodeState_inv in Hs as (a & Ha & _).
      destruct (forIndex_ok_elem _ _ _ _ _ evt Ha Hevt) as (j & a0 & a' & Hb).
      unfold nodeBody in Hb. apply bind_Ok in Hb as (a1 & H1 & H2).
      assert (Ht : isTarget evt (nd_id n) = true)
        by (unfold isTarget; apply bool_decide_eq_true; exact Htgt).
      rewrite Ht in H1, H2. unfold isAction in H1, H2.
      destruct Hact as [Hact|Hact]; rewrite Hact in H1, H2; cbn in H1, H2.
      * apply bind_Ok in H1 as (b & Hb & _).
        apply eventEnvelope_ok in Hb. lia.
      * apply bind_Ok in H2 as (d & Hd & _).
        apply eventDrawProgress_ok in Hd. lia.
    + assert (Hin : getConnectionId c ∈ map getConnectionId connections)
        by (apply list_elem_of_fmap; eauto).
      destruct (assign_all (fun x : string => x)
                  (connState frame fps anim (globalFloor st)
                     (maxEnd (flattenTimeline fps timeline)))
                  (connStep frame fps anim (globalFloor st)
                     (maxEnd (flattenTimeline fps timeline)))
                  (fun _ _ => eq_refl) (map getConnectionId connections) ∅
                  (ts_connections st)
                  (stage_connections _ _ _ _ _ _ _ E) _ Hin) as [s Hs].
      apply connState_inv in Hs as (a & r & Ha & _ & _).
      destruct (forIndex_ok_elem _ _ _ _ _ evt Ha Hevt) as (j & a0 & a' & Hb).
      unfold connBody in Hb.
      assert (Ht : isTarget evt (getConnectionId c) = true)
        by (unfold isTarget; apply bool_decide_eq_true; exact Htgt).
      rewrite Ht in Hb. unfold isAction in Hb. rewrite Hact in Hb. cbn in Hb.
      apply bind_Ok in Hb as (b & Hb & _).
      apply eventEnvelope_ok in Hb. lia.
    + destruct (assign_all cd_id
                  (containerState frame fps anim (globalFloor st) nodes
                     (ts_nodes st))
                  (containerStep frame fps anim (globalFloor st) nodes
                     (ts_nodes st))
                  (fun _ _ => eq_refl) containers ∅ (ts_containers st)
                  (stage_containers _ _ _ _ _ _ _ E) k Hk) as [s Hs].
      apply containerState_inv in Hs as (b & Hb & _).
      destruct (forIndex_ok_elem _ _ _ _ _ evt Hb Hevt) as (j & a0 & a' & Hc).
      unfold containerBody in Hc.
      assert (Ht : isTarget evt (cd_id k) = true)
        by (unfold isTarget; apply bool_decide_eq_true; exact Htgt).
      rewrite Ht in Hc. unfold isAction in Hc. rewrite Hact in Hc. cbn in Hc.
      apply bind_Ok in Hc as (v & Hv & _).
      apply eventEnvelope_ok in Hv. lia.
  - destruct connections as [|c cs]; [contradiction|].
    assert (Hin : getConnectionId c ∈ map getConnectionId (c :: cs))
      by (cbn; left).
    destruct (assign_all (fun x : string => x)
                (connState frame fps anim (globalFloor st)
                   (maxEnd (flattenTimeline fps timeline)))
                (connStep frame fps anim (globalFloor st)
                   (maxEnd (flattenTimeline fps timeline)))
                (fun _ _ => eq_refl) (map getConnectionId (c :: cs)) ∅
                (ts_connections st)
                (stage_connections _ _ _ _ _ _ _ E) _ Hin) as [s Hs].
    apply connState_inv in Hs as (a & r & _ & Hr & _).
    rewrite interpolate2 in Hr.
    destruct (Js.gt _ _) eqn:Egt; [|discriminate].
    apply gt_true in Egt. apply (proj2 (Zlt_inj _ _)) in Egt.
    assert (Hround : Js.round (DEFAULT_DRAW_DURATION * fps) = 0%Z).
    { apply round_below_one; unfold DEFAULT_DRAW_DURATION; nra. }
    lia.
Qed.

Lemma degenerate_ramp_throws_witness :
  ∃ msg, useTimeline
           [PhaseSequence [StepAct SFillBox "a" (Some 0) None None]]
           [plainNode "a" 0 0] [] [] 0 30 = Throw msg.
Proof.
  apply degenerate_ramp_throws.
  - discriminate.
  - vm_compute. reflexivity.
  - left. eexists. split; [vm_compute; left|].
    split; [vm_compute; discriminate|].
    left. exists (plainNode "a" 0 0). split; [left|]. split; [left|];
      reflexivity.
Defined.

(** ** Layout: what a resolved layout holds *)

Lemma resolveContainers_entry grid theme containers id rc :
  Layout.resolveContainers grid theme containers !! id = Some rc →
  ∃ cdef, cdef ∈ containers ∧ cd_id cdef = id
          ∧ rc = Layout.resolveContainer grid theme cdef.
Proof.
  unfold Layout.resolveContainers.
  assert (H : ∀ m : gmap string Layout.ResolvedContainer,
    foldl (fun m cdef =>
             <[cd_id cdef := Layout.resolveContainer grid theme cdef]> m)
          m containers !! id = Some rc →
    m !! id = Some rc
    ∨ ∃ cdef, cdef ∈ containers ∧ cd_id cdef = id
              ∧ rc = Layout.resolveContainer grid theme cdef).
  { induction containers as [|c l IH]; intros m; cbn; [auto|].
    intros H. destruct (IH _ H) as [H0 | (cdef & Hin & Hid & Hrc)].
    - destruct (decide (cd_id c = id)) as [Heq|Hne].
      + subst id. rewrite lookup_insert_eq in H0. injection H0 as <-.
        right. exists c. split; [left | auto].
      + rewrite lookup_insert_ne in H0 by assumption. auto.
    - right. exists cdef. split; [right; exact Hin | auto]. }
  intros Hl. destruct (H ∅ Hl) as [H0|H0]; [|exact H0].
  rewrite lookup_empty in H0. discriminate.
Qed.

Lemma resolveNode_inv grid theme rc ndef rn :
  Layout.resolveNode grid theme rc ndef = Ok rn →
  Layout.rn_def rn = ndef
  ∧ Layout.rn_isInner rn = bool_decide (is_Some (nd_container ndef)).
Proof.
  unfold Layout.resolveNode. intros H.
  apply bind_Ok in H as ([[c w] h] & _ & [= <-]). cbn. auto.
Qed.




(** X5. When every reference exists (each connection endpoint names a
    declared node or container, and each node placed by a container names a
    declared one), layout resolution returns a layout: dangling references
    are the only thing it throws on. *)
Theorem layout_resolves grid nodes containers connections theme :
  (∀ n cid, n ∈ nodes → nodeContainerRef n = Some cid →
            cid ∈ map cd_id containers) →
  (∀ c, c ∈ connections →
        targetPresent (map nd_id nodes) (map cd_id containers) (cn_from c)
        ∧ targetPresent (map nd_id nodes) (map cd_id containers) (cn_to c)) →
  ∃ layout,
    Layout.resolveLayout grid nodes containers connections theme = Ok layout.
Proof.
  intros Hnodes Hconns.
  pose proof (resolveLayout_cases grid nodes containers connections theme)
    as H.
  destruct (Layout.resolveLayout grid nodes containers connections theme)
    as [layout|msg]; [eauto|]. exfalso.
  destruct H as [(n & cid & Hin & Href & Habs & _) | (c & t & Hin & Ht & Hm)].
  - apply Habs. eauto.
  - destruct (Hconns c Hin) as [Hf Hto].
    destruct Ht as [-> | ->];
      [destruct (cn_from c) | destruct (cn_to c)]; cbn in *;
      destruct Hm as [Hm _]; contradiction.
Qed.

Lemma layout_resolves_witness :
  ∃ layout,
    Layout.resolveLayout tallGrid [plainNode "store" 2 0]
      [plainContainer "pipe" 0 1 2] [pipeToStore] defaultTheme = Ok layout.
Proof.
  apply layout_resolves.
  - intros n cid Hn. apply list_elem_of_In in Hn as [<-|[]]. discriminate.
  - intros c Hc. apply list_elem_of_In in Hc as [<-|[]].
    split; cbn; left.
Defined.



(** X7. An automatic route is either the straight segment between the two
    anchors or a jog of three axis-parallel segments.  It is straight when
    the anchors are less than a pixel apart vertically or horizontally, or
    when both edges are top/bottom edges (whatever the offset, so this
    segment may be diagonal); otherwise it jogs at the mid abscissa when both
    edges are left/right edges and at the mid ordinate when the edges are
    mixed. *)
Theorem autoRoute_shape from fromEdge to toEdge :
  let route := Layout.autoRoute from fromEdge to toEdge in
  let near := Qabs (py from - py to) < 1 ∨ Qabs (px from - px to) < 1 in
  let vertical := Layout.isHorizontal fromEdge = false
                  ∧ Layout.isHorizontal toEdge = false in
  (near ∨ vertical → route = [from; to])
  ∧ (¬ near → ¬ vertical →
     ∃ a b, route = [from; a; b; to]
            ∧ axisAligned from a ∧ axisAligned a b ∧ axisAligned b to
            ∧ if Layout.isHorizontal fromEdge && Layout.isHorizontal toEdge
              then py a = py from ∧ py b = py to
                   ∧ px a = (px from + px to) / 2 ∧ px b = px a
              else px a = px from ∧ px b = px to
                   ∧ py a = (py from + py to) / 2 ∧ py b = py a).
Proof.
  intros route near vertical. subst route near vertical.
  unfold Layout.autoRoute, Js.abs.
  destruct (Js.lt (Qabs (py from - py to)) 1) eqn:E1.
  { apply lt_true in E1. split; [reflexivity|]. intros Hn. exfalso. auto. }
  destruct (Js.lt (Qabs (px from - px to)) 1) eqn:E2.
  { apply lt_true in E2. split; [reflexivity|]. intros Hn. exfalso. auto. }
  apply lt_false in E1. apply lt_false in E2.
  destruct (Layout.isHorizontal fromEdge) eqn:Ef;
    destruct (Layout.isHorizontal toEdge) eqn:Et; cbn [andb negb].
  - split.
    + intros [[H|H] | [[=] _]]; exfalso; lra.
    + intros _ _. eexists _, _. split; [reflexivity|].
      unfold axisAligned. cbn. auto 10.
  - split.
    + intros [[H|H] | [[=] _]]; exfalso; lra.
    + intros _ _. eexists _, _. split; [reflexivity|].
      unfold axisAligned. cbn. auto 10.
  - split.
    + intros [[H|H] | [_ [=]]]; exfalso; lra.
    + intros _ _. eexists _, _. split; [reflexivity|].
      unfold axisAligned. cbn. auto 10.
  - split; [reflexivity|]. intros _ Hv. exfalso. auto.
Qed.

(** ** Layout: where nodes and paths end up *)

Lemma NoDup_key_inj {A} (key : A → string) l x y :
  NoDup (map key l) → x ∈ l → y ∈ l → key x = key y → x = y.
Proof.
  induction l as [|a l IH]; cbn; intros Hnd Hx Hy Hk; [inversion Hx|].
  apply NoDup_cons in Hnd as [Ha Hnd].
  apply list_elem_of_In in Hx. apply list_elem_of_In in Hy.
  destruct Hx as [<-|Hx], Hy as [<-|Hy].
  - reflexivity.
  - exfalso. apply Ha. rewrite Hk. apply list_elem_of_fmap.
    exists y. split; [reflexivity | apply list_elem_of_In; exact Hy].
  - exfalso. apply Ha. rewrite <- Hk. apply list_elem_of_fmap.
    exists x. split; [reflexivity | apply list_elem_of_In; exact Hx].
  - apply IH; [exact Hnd | apply list_elem_of_In; exact Hx
               | apply list_elem_of_In; exact Hy | exact Hk].
Qed.

(** With distinct ids, the entry of a declared node is its own resolution. *)
Lemma resolveNodes_own grid theme rc nodes rn n :
  Layout.resolveNodes grid theme rc nodes = Ok rn →
  NoDup (map nd_id nodes) → n ∈ nodes →
  ∃ v, rn !! nd_id n = Some v ∧ Layout.resolveNode grid theme rc n = Ok v.
Proof.
  intros H Hnd Hn. unfold Layout.resolveNodes in H.
  destruct (assign_defined nd_id (Layout.resolveNode grid theme rc)
              (Layout.placeNode grid theme rc) (fun _ _ => eq_refl)
              nodes ∅ rn H n Hn) as (v & y & Hv & Hy & Hky & Hfy).
  assert (y = n) by (eapply NoDup_key_inj; eauto). subst y. eauto.
Qed.

(** X8. A node aligned to an inner column of a container gets the abscissa
    of that inner cell, the one a node living in that cell has, and the
    ordinate of its own outer grid cell; it is not flagged inner unless it
    names a container of its own. *)
Theorem aligned_node_shares_column grid nodes containers connections theme
    layout n m cid col :
  Layout.resolveLayout grid nodes containers connections theme = Ok layout →
  NoDup (map nd_id nodes) →
  n ∈ nodes → m ∈ nodes →
  Layout.innerPlacement n = None →
  nd_alignToInnerCol n = Some (cid, col) →
  Layout.innerPlacement m = Some (cid, col) →
  ∃ rn rm,
    Layout.l_nodes layout !! nd_id n = Some rn
    ∧ Layout.l_nodes layout !! nd_id m = Some rm
    ∧ px (Layout.rn_center rn) = px (Layout.rn_center rm)
    ∧ py (Layout.rn_center rn)
      = py (Layout.outerCellCenter grid theme (nd_row n) (nd_col n))
    ∧ Layout.rn_width rn
      = Layout.cellW grid theme * Layout.OUTER_BOX_W_FRAC.
Proof.
  intros H Hnd Hn Hm Hpn Han Hpm.
  apply resolveLayout_inv in H as (_ & Hrn & _).
  destruct (resolveNodes_own _ _ _ _ _ n Hrn Hnd Hn) as (rn & Hln & Hresn).
  destruct (resolveNodes_own _ _ _ _ _ m Hrn Hnd Hm) as (rm & Hlm & Hresm).
  exists rn, rm. split; [exact Hln|]. split; [exact Hlm|].
  unfold Layout.resolveNode in Hresn, Hresm.
  rewrite Hpn, Han in Hresn. rewrite Hpm in Hresm.
  apply bind_Ok in Hresn as ([[c w] h] & Hn1 & [= <-]).
  apply bind_Ok in Hresm as ([[c' w'] h'] & Hm1 & [= <-]).
  apply bind_Ok in Hn1 as (p & Hp & [= <- <- <-]).
  apply bind_Ok in Hm1 as (p' & Hp' & Hm2).
  rewrite Hp in Hp'. injection Hp' as <-.
  destruct (Js.get (Layout.l_containers layout) cid); try discriminate.
  injection Hm2 as <- <- <-. cbn. auto.
Qed.

Lemma aligned_node_shares_column_witness :
  ∃ layout rn rm,
    Layout.resolveLayout tallGrid [feedNode; stageNode]
      [plainContainer "pipe" 0 1 2] [] defaultTheme = Ok layout
    ∧ Layout.l_nodes layout !! "feed" = Some rn
    ∧ Layout.l_nodes layout !! "stage" = Some rm
    ∧ px (Layout.rn_center rn) = px (Layout.rn_center rm).
Proof.
  assert (H : ∃ layout,
    Layout.resolveLayout tallGrid [feedNode; stageNode]
      [plainContainer "pipe" 0 1 2] [] defaultTheme = Ok layout)
    by (eexists; vm_compute; reflexivity).
  destruct H as (layout & H).
  destruct (aligned_node_shares_column _ _ _ _ _ _ feedNode stageNode
              "pipe" 1 H) as (rn & rm & Hn & Hm & Hx & _).
  - cbn. apply NoDup_cons. split.
    + apply not_elem_of_cons. split; [discriminate | apply not_elem_of_nil].
    + apply NoDup_singleton.
  - left.
  - right. left.
  - reflexivity.
  - reflexivity.
  - reflexivity.
  - exists layout, rn, rm. auto.
Defined.

Lemma resolved_connection_of grid nodes containers connections theme layout
    r :
  Layout.resolveLayout grid nodes containers connections theme = Ok layout →
  r ∈ Layout.l_connections layout →
  Layout.resolveConnection grid theme (Layout.l_containers layout)
    (Layout.l_nodes layout) (Layout.rx_def r) = Ok r.
Proof.
  intros H Hr. apply resolveLayout_inv in H as (_ & _ & Hx).
  unfold Layout.resolveConnections in Hx.
  apply (forEach_ok_elem
           (Layout.resolveConnection grid theme (Layout.l_containers layout)
              (Layout.l_nodes layout))) in Hx as (ys & Hys & Hall).
  cbn in Hys. subst ys.
  induction Hall as [|c y l ys Hcy _ IH]; [inversion Hr|].
  apply list_elem_of_In in Hr. destruct Hr as [<-|Hr].
  - pose proof Hcy as Hd. apply resolveConnection_inv in Hd.
    destruct Hd as (? & ? & ? & ? & ? & ? & _ & _ & _ & _ & _ & _ & -> & _).
    exact Hcy.
  - apply IH. apply list_elem_of_In. exact Hr.
Qed.

(** X9. Two nodes resolved at the same height and at different abscissas,
    joined by a connection without edge overrides or waypoints, get the
    straight horizontal segment between their facing vertical edges: from
    the right edge of the left one to the left edge of the right one, in
    the direction of the connection. *)
Theorem level_nodes_joined_straight grid nodes containers connections theme
    layout r a b ra rb :
  Layout.resolveLayout grid nodes containers connections theme = Ok layout →
  r ∈ Layout.l_connections layout →
  cn_from (Layout.rx_def r) = NodeRef a →
  cn_to (Layout.rx_def r) = NodeRef b →
  cn_fromEdge (Layout.rx_def r) = None →
  cn_toEdge (Layout.rx_def r) = None →
  cn_waypoints (Layout.rx_def r) = None →
  Layout.l_nodes layout !! a = Some ra →
  Layout.l_nodes layout !! b = Some rb →
  py (Layout.rn_center ra) = py (Layout.rn_center rb) →
  let ca := Layout.rn_center ra in
  let cb := Layout.rn_center rb in
  (px ca < px cb →
   Layout.rx_points r
   = [ {| px := px ca + Layout.rn_width ra / 2; py := py ca |};
       {| px := px cb - Layout.rn_width rb / 2; py := py cb |} ])
  ∧ (px cb < px ca →
     Layout.rx_points r
     = [ {| px := px ca - Layout.rn_width ra / 2; py := py ca |};
         {| px := px cb + Layout.rn_width rb / 2; py := py cb |} ]).
Proof.
  intros H Hr Hfrom Hto Hfe Hte Hw Hla Hlb Hy ca cb.
  apply (resolved_connection_of _ _ _ _ _ _ _ H) in Hr.
  apply resolveConnection_inv in Hr
    as (fc & tc & fe & te & fp & tp & Hfc & Htc & Hfe' & Hte' & Hfp & Htp
        & _ & Hpts).
  rewrite Hfrom, Hto in *. rewrite Hfe in Hfe'. rewrite Hte in Hte'.
  rewrite Hw in Hpts.
  cbn [Layout.getTargetCenter] in Hfc, Htc.
  rewrite (get_own _ _ _ Hla) in Hfc. rewrite (get_own _ _ _ Hlb) in Htc.
  injection Hfc as <-. injection Htc as <-.
  cbn [Layout.endpointEdge Layout.inferEdgeOf] in Hfe', Hte'.
  injection Hfe' as <-. injection Hte' as <-.
  fold ca cb in Hfp, Htp, Hpts.
  cbn [Layout.anchorPoint] in Hfp, Htp.
  unfold Layout.nodeEdge in Hfp, Htp.
  rewrite (get_own _ _ _ Hla) in Hfp. rewrite (get_own _ _ _ Hlb) in Htp.
  fold ca cb in Hfp, Htp. fold ca cb in Hy.
  assert (Hdy : Qabs (py cb - py ca) <= 0).
  { apply Qabs_Qle_condition. rewrite Hy. lra. }
  assert (Hdy' : Qabs (py ca - py cb) <= 0).
  { apply Qabs_Qle_condition. rewrite Hy. lra. }
  assert (Hstraight : ∀ e1 e2, Layout.isHorizontal e1 = true →
            Layout.isHorizontal e2 = true → ∀ p q,
            Layout.nodeEdge (Layout.l_nodes layout) a e1 = Ok p →
            Layout.nodeEdge (Layout.l_nodes layout) b e2 = Ok q →
            Layout.autoRoute p e1 q e2 = [p; q]).
  { intros e1 e2 H1 H2 p q Hp Hq. unfold Layout.nodeEdge in Hp, Hq.
    rewrite (get_own _ _ _ Hla) in Hp. rewrite (get_own _ _ _ Hlb) in Hq.
    fold ca in Hp. fold cb in Hq.
    unfold Layout.autoRoute, Js.abs.
    assert (E : Js.lt (Qabs (py p - py q)) 1 = true).
    { apply lt_true. injection Hp as <-. injection Hq as <-.
      destruct e1, e2; try discriminate; cbn [py]; lra. }
    rewrite E. reflexivity. }
  split; intros Hx.
  - assert (E1 : Layout.inferEdge ca cb = ERight).
    { apply inferEdge_spec; [|lra].
      assert (Qabs (px cb - px ca) == px cb - px ca)
        by (apply Qabs_pos; lra). lra. }
    assert (E2 : Layout.inferEdge cb ca = ELeft).
    { apply inferEdge_spec; [|lra].
      assert (Qabs (px ca - px cb) == - (px ca - px cb))
        by (apply Qabs_neg; lra). lra. }
    rewrite E1 in Hfp, Hpts. rewrite E2 in Htp, Hpts.
    rewrite Hpts.
    rewrite (Hstraight ERight ELeft eq_refl eq_refl fp tp).
    + injection Hfp as <-. injection Htp as <-. reflexivity.
    + unfold Layout.nodeEdge. rewrite (get_own _ _ _ Hla). exact Hfp.
    + unfold Layout.nodeEdge. rewrite (get_own _ _ _ Hlb). exact Htp.
  - assert (E1 : Layout.inferEdge ca cb = ELeft).
    { apply inferEdge_spec; [|lra].
      assert (Qabs (px cb - px ca) == - (px cb - px ca))
        by (apply Qabs_neg; lra). lra. }
    assert (E2 : Layout.inferEdge cb ca = ERight).
    { apply inferEdge_spec; [|lra].
      assert (Qabs (px ca - px cb) == px ca - px cb)
        by (apply Qabs_pos; lra). lra. }
    rewrite E1 in Hfp, Hpts. rewrite E2 in Htp, Hpts.
    rewrite Hpts.
    rewrite (Hstraight ELeft ERight eq_refl eq_refl fp tp).
    + injection Hfp as <-. injection Htp as <-. reflexivity.
    + unfold Layout.nodeEdge. rewrite (get_own _ _ _ Hla). exact Hfp.
    + unfold Layout.nodeEdge. rewrite (get_own _ _ _ Hlb). exact Htp.
Qed.

Lemma level_nodes_joined_straight_witness :
  ∃ layout r ra rb,
    Layout.resolveLayout requestGrid requestNodes [] requestConnections
      defaultTheme = Ok layout
    ∧ head (Layout.l_connections layout) = Some r
    ∧ Layout.l_nodes layout !! "client" = Some ra
    ∧ Layout.l_nodes layout !! "api" = Some rb
    ∧ Layout.rx_points r
      = [ {| px := px (Layout.rn_center ra) + Layout.rn_width ra / 2;
             py := py (Layout.rn_center ra) |};
          {| px := px (Layout.rn_center rb) - Layout.rn_width rb / 2;
             py := py (Layout.rn_center rb) |} ].
Proof.
  assert (H : ∃ layout r r2 ra rb,
    Layout.resolveLayout requestGrid requestNodes [] requestConnections
      defaultTheme = Ok layout
    ∧ Layout.l_connections layout = [r; r2]
    ∧ Layout.rx_def r = plainConnection (NodeRef "client") (NodeRef "api")
    ∧ Layout.l_nodes layout !! "client" = Some ra
    ∧ Layout.l_nodes layout !! "api" = Some rb
    ∧ py (Layout.rn_center ra) = py (Layout.rn_center rb)
    ∧ px (Layout.rn_center ra) < px (Layout.rn_center rb)).
  { do 5 eexists.
    split; [vm_compute; reflexivity|]. split; [vm_compute; reflexivity|].
    split; [vm_compute; reflexivity|]. split; [vm_compute; reflexivity|].
    split; [vm_compute; reflexivity|]. split; vm_compute; reflexivity. }
  destruct H as (layout & r & r2 & ra & rb & H & Hrs & Hdef & Hla & Hlb & Hy
                 & Hx).
  exists layout, r, ra, rb. split; [exact H|].
  split; [rewrite Hrs; reflexivity|]. split; [exact Hla|]. split; [exact Hlb|].
  refine (proj1 (level_nodes_joined_straight _ _ _ _ _ _ r "client" "api"
                   ra rb H _ _ _ _ _ _ Hla Hlb Hy) Hx);
    try (rewrite Hdef; reflexivity).
  rewrite Hrs. left.
Defined.

(** ** Layout: nodes inside a container *)

Lemma resolveContainer_inner grid theme cdef :
  let c := Layout.resolveContainer grid theme cdef in
  let g := Layout.rc_innerGrid c in
  let p := Layout.spacing_element theme in
  Layout.rc_def c = cdef
  ∧ Layout.ig_left g == Layout.rc_left c + p
  ∧ Layout.ig_top g == Layout.rc_top c + p + 24
  ∧ Layout.ig_cellHeight g == Layout.rc_height c - 2 * p - 24
  ∧ (¬ cd_innerCols cdef == 0 →
     Layout.ig_cellWidth g * cd_innerCols cdef
     == Layout.rc_width c - 2 * p).
Proof.
  cbn zeta. unfold Layout.resolveContainer.
  cbn [Layout.rc_def Layout.rc_innerGrid Layout.ig_left Layout.ig_top
       Layout.ig_cellHeight Layout.ig_cellWidth Layout.rc_left Layout.rc_top
       Layout.rc_width Layout.rc_height].
  unfold Layout.CONTAINER_LABEL_H.
  split; [reflexivity|]. split; [ring|]. split; [ring|]. split; [ring|].
  intros Hn. field. exact Hn.
Qed.

(** X10. A node placed in an inner column of a container lies inside that
    container: when the container has room for its padding and label (its
    inner cells have non-negative size), the padding is non-negative and the
    column index is between 0 and [innerCols - 1], the node's box is within
    the container's rectangle. *)
Theorem inner_node_inside_container grid nodes containers connections theme
    layout id rn cid col :
  Layout.resolveLayout grid nodes containers connections theme = Ok layout →
  Layout.l_nodes layout !! id = Some rn →
  Layout.innerPlacement (Layout.rn_def rn) = Some (cid, col) →
  ∃ c, Layout.l_containers layout !! cid = Some c
       ∧ (0 <= Layout.spacing_element theme →
          0 <= Layout.ig_cellWidth (Layout.rc_innerGrid c) →
          0 <= Layout.ig_cellHeight (Layout.rc_innerGrid c) →
          0 <= col → col <= cd_innerCols (Layout.rc_def c) - 1 →
          let center := Layout.rn_center rn in
          Layout.rc_left c <= px center - Layout.rn_width rn / 2
          ∧ px center + Layout.rn_width rn / 2
            <= Layout.rc_left c + Layout.rc_width c
          ∧ Layout.rc_top c <= py center - Layout.rn_height rn / 2
          ∧ py center + Layout.rn_height rn / 2
            <= Layout.rc_top c + Layout.rc_height c).
Proof.
  intros H Hl Hp. apply resolveLayout_inv in H as (Hrc & Hrn & _).
  unfold Layout.resolveNodes in Hrn.
  destruct (assign_lookup nd_id
              (Layout.resolveNode grid theme (Layout.l_containers layout))
              (Layout.placeNode grid theme (Layout.l_containers layout))
              (fun _ _ => eq_refl) nodes ∅ _ Hrn id rn Hl)
    as [H0 | (n & Hn & _ & Hres)].
  { rewrite lookup_empty in H0. discriminate. }
  pose proof (proj1 (resolveNode_inv _ _ _ _ _ Hres)) as Hdef.
  rewrite Hdef in Hp. unfold Layout.resolveNode in Hres. rewrite Hp in Hres.
  apply bind_Ok in Hres as ([[ctr w] h] & Hres & [= <-]).
  apply bind_Ok in Hres as (q & Hq & Hres).
  unfold Layout.innerCellCenter in Hq.
  destruct (get_cases (Layout.l_containers layout) cid)
    as [(c & Hc & Hget) | [(_ & _ & Hget) | (_ & _ & Hget)]];
    rewrite Hget in Hq, Hres; try discriminate.
  injection Hq as <-. injection Hres as <- <- <-.
  exists c. split; [exact Hc|].
  rewrite Hrc in Hc.
  apply resolveContainers_entry in Hc as (cdef & _ & _ & ->).
  destruct (resolveContainer_inner grid theme cdef)
    as (Hd & Hleft & Htop & Hh & Hw).
  cbn zeta in *. rewrite Hd.
  cbn [Layout.rn_center Layout.rn_width Layout.rn_height px py].
  unfold Layout.INNER_BOX_W_FRAC, Layout.INNER_BOX_H_FRAC.
  clear Hl Hdef Hn Hrn Hp.
  set (c := Layout.resolveContainer grid theme cdef) in *.
  generalize dependent (Layout.ig_left (Layout.rc_innerGrid c)).
  generalize dependent (Layout.ig_top (Layout.rc_innerGrid c)).
  generalize dependent (Layout.ig_cellWidth (Layout.rc_innerGrid c)).
  generalize dependent (Layout.ig_cellHeight (Layout.rc_innerGrid c)).
  generalize dependent (Layout.rc_left c).
  generalize dependent (Layout.rc_top c).
  generalize dependent (Layout.rc_width c).
  generalize dependent (Layout.rc_height c).
  generalize dependent (Layout.spacing_element theme).
  generalize dependent (cd_innerCols cdef).
  clear. intros N p H W T L ch Hh cw Hw it Hit il Hil Hp0 Hcw Hch Hcol0 Hcol1.
  assert (HN : ¬ N == 0) by (intros HN0; lra).
  specialize (Hw HN).
  assert (Hprod : 0 <= cw * (N - 1 - col)) by (apply Qmult_le_0_compat; lra).
  assert (Hprod0 : 0 <= cw * col) by (apply Qmult_le_0_compat; lra).
  unfold Qdiv. change (/ 2) with (1 # 2).
  split; [|split; [|split]]; lra.
Qed.

Lemma inner_node_inside_container_witness :
  ∃ layout rn c,
    Layout.resolveLayout tallGrid [feedNode; stageNode]
      [plainContainer "pipe" 0 1 2] [] defaultTheme = Ok layout
    ∧ Layout.l_nodes layout !! "stage" = Some rn
    ∧ Layout.l_containers layout !! "pipe" = Some c
    ∧ Layout.rc_left c
      <= px (Layout.rn_center rn) - Layout.rn_width rn / 2
    ∧ px (Layout.rn_center rn) + Layout.rn_width rn / 2
      <= Layout.rc_left c + Layout.rc_width c.
Proof.
  assert (H : ∃ layout rn c0,
    Layout.resolveLayout tallGrid [feedNode; stageNode]
      [plainContainer "pipe" 0 1 2] [] defaultTheme = Ok layout
    ∧ Layout.l_nodes layout !! "stage" = Some rn
    ∧ Layout.innerPlacement (Layout.rn_def rn) = Some ("pipe", 1)
    ∧ Layout.l_containers layout !! "pipe" = Some c0
    ∧ 0 <= Layout.ig_cellWidth (Layout.rc_innerGrid c0)
    ∧ 0 <= Layout.ig_cellHeight (Layout.rc_innerGrid c0)
    ∧ 1 <= cd_innerCols (Layout.rc_def c0) - 1).
  { do 3 eexists.
    split; [vm_compute; reflexivity|]. split; [vm_compute; reflexivity|].
    split; [vm_compute; reflexivity|]. split; [vm_compute; reflexivity|].
    split; [vm_compute; discriminate|]. split; vm_compute; discriminate. }
  destruct H as (layout & rn & c0 & H & Hl & Hp & Hc0 & Hw & Hh & Hcol).
  destruct (inner_node_inside_container _ _ _ _ _ _ _ _ _ _ H Hl Hp)
    as (c & Hc & Hin).
  rewrite Hc0 in Hc. injection Hc as <-.
  exists layout, rn, c0. split; [exact H|]. split; [exact Hl|].
  split; [exact Hc0|].
  destruct (Hin ltac:(vm_compute; discriminate) Hw Hh
              ltac:(vm_compute; discriminate) Hcol) as (H1 & H2 & _).
  split; [exact H1 | exact H2].
Defined.

(** ** The step indicator *)

Lemma useTimeline_indicator timeline nodes connections containers frame fps
    st :
  useTimeline timeline nodes connections containers frame fps = Ok (Some st) →
  let events := flattenTimeline fps timeline in
  let anim := animEventsOf events in
  ∃ cur ind,
    findCurrentStep frame anim = Ok cur
    ∧ indicator frame fps anim (globalFloor st) (maxEnd events) = Ok ind
    ∧ indicatorOpacity st = ind
    ∧ currentStep st = (if Js.gt ind (1 # 100) then cur else None)
    ∧ totalSteps st = length (filter (fun e => is_Some (step e)) anim).
Proof.
  unfold useTimeline.
  destruct (length timeline =? 0)%nat; [discriminate|].
  destruct (Js.le fps 1); [discriminate|].
  intros H.
  apply bind_Ok in H as (g & _ & H).
  apply bind_Ok in H as (ns & _ & H).
  apply bind_Ok in H as (cs & _ & H).
  apply bind_Ok in H as (ks & _ & H).
  apply bind_Ok in H as (cur & Hcur & H).
  apply bind_Ok in H as (ind & Hind & [= <-]).
  exists cur, ind. cbn. auto.
Qed.

Lemma indicator_inv frame fps anim floor total ind :
  indicator frame fps anim floor total = Ok ind →
  0 <= ind ∧ ind <= 1
  ∧ (1 # 100 < floor ∨ flowEnd fps anim total <= frame → ind = 0).
Proof.
  unfold indicator. intros H. apply bind_Ok in H as (seq & Hseq & [= <-]).
  assert (Hs : 0 <= seq ∧ seq <= 1
               ∧ (flowEnd fps anim total <= frame → seq = 0)).
  { destruct (Js.ge frame (flowEnd fps anim total)) eqn:E.
    - injection Hseq as <-. split; [lra|]. split; [lra | reflexivity].
    - apply ge_false in E. rewrite interpolate2 in Hseq.
      destruct (Js.gt _ _) eqn:Egt; [|discriminate]. injection Hseq as <-.
      apply gt_true in Egt.
      destruct (segment_down_range frame _ _ Egt) as [H0 H1].
      split; [exact H0|]. split; [exact H1 | intros; exfalso; lra]. }
  destruct Hs as (H0 & H1 & Hend).
  destruct (Js.gt floor (1 # 100)) eqn:E.
  - split; [lra|]. split; [lra | reflexivity].
  - apply gt_false in E. split; [exact H0|]. split; [exact H1|].
    intros [Hf|Hf]; [exfalso; lra | auto].
Qed.

(** X11. The step indicator is hidden outside the walkthrough: the returned
    indicator opacity is always within [0, 1], and it is 0, with no current
    step and nothing for the orchestrator to show, whenever the global floor
    exceeds 0.01 (bookend phases) or the frame has reached the end of the
    flow; a current step is reported only with an indicator opacity above
    0.01. *)
Theorem indicator_hidden_outside_flow timeline nodes connections containers
    frame fps st :
  useTimeline timeline nodes connections containers frame fps = Ok (Some st) →
  let events := flattenTimeline fps timeline in
  0 <= indicatorOpacity st ∧ indicatorOpacity st <= 1
  ∧ (1 # 100 < globalFloor st
     ∨ flowEnd fps (animEventsOf events) (maxEnd events) <= frame →
     indicatorOpacity st = 0 ∧ currentStep st = None
     ∧ indicatorShown (Some st) = false)
  ∧ (is_Some (currentStep st) → 1 # 100 < indicatorOpacity st).
Proof.
  intros H events. apply useTimeline_indicator in H
    as (cur & ind & _ & Hind & Hio & Hcs & _).
  apply indicator_inv in Hind as (H0 & H1 & Hz).
  rewrite Hio, Hcs. split; [exact H0|]. split; [exact H1|]. split.
  - intros Hout. specialize (Hz Hout). subst ind.
    unfold indicatorShown. rewrite Hio. split; [reflexivity|].
    split; reflexivity.
  - destruct (Js.gt ind (1 # 100)) eqn:E.
    + intros _. apply gt_true in E. exact E.
    + intros [? [=]].
Qed.

Lemma indicator_hidden_outside_flow_witness :
  ∃ st, useTimeline requestFlow requestNodes requestConnections [] 10 30
        = Ok (Some st)
        ∧ indicatorOpacity st = 0 ∧ currentStep st = None.
Proof.
  assert (H : ∃ st, useTimeline requestFlow requestNodes requestConnections
                      [] 10 30 = Ok (Some st)
                    ∧ 1 # 100 < globalFloor st)
    by (eexists; split; vm_compute; reflexivity).
  destruct H as (st & H & Hf). exists st. split; [exact H|].
  destruct (indicator_hidden_outside_flow _ _ _ _ _ _ _ H)
    as (_ & _ & Hh & _).
  destruct (Hh (or_introl Hf)) as (Ho & Hc & _). auto.
Defined.

Lemma find_app_split {A} (P : A → bool) l1 l2 :
  List.find P (l1 ++ l2)
  = match List.find P l1 with Some x => Some x | None => List.find P l2 end.
Proof.
  induction l1 as [|a l1 IH]; cbn; [reflexivity|].
  destruct (P a); [reflexivity | exact IH].
Qed.

(** What a backward search finds is the last match. *)
Lemma find_rev_last {A} (P : A → bool) l :
  match List.find P (rev l) with
  | Some x => ∃ pre post, l = pre ++ x :: post ∧ P x = true
                          ∧ Forall (fun e => P e = false) post
  | None => Forall (fun e => P e = false) l
  end.
Proof.
  induction l as [|a l IH]; cbn; [constructor|].
  rewrite find_app_split. destruct (List.find P (rev l)) as [x|].
  - destruct IH as (pre & post & -> & Hx & Hpost).
    exists (a :: pre), post. auto.
  - cbn. destruct (P a) eqn:Ea.
    + exists [], l. auto.
    + constructor; assumption.
Qed.

(** X12. While the indicator is visible (opacity above 0.01), the reported
    current step is the latest labelled animation event that has started:
    it carries that event's step number and text, its progress is within
    [0, 1] and is 1 once the event has ended, and no labelled event after
    it in the flattened order has started; no step is reported exactly when
    no labelled event has started. *)
Theorem current_step_is_latest timeline nodes connections containers frame
    fps st :
  useTimeline timeline nodes connections containers frame fps = Ok (Some st) →
  1 # 100 < indicatorOpacity st →
  let anim := animEventsOf (flattenTimeline fps timeline) in
  (∀ cs, currentStep st = Some cs →
     ∃ pre evt post l,
       anim = pre ++ evt :: post ∧ step evt = Some l
       ∧ startFrame evt <= frame
       ∧ (∀ e, e ∈ post → is_Some (step e) → frame < startFrame e)
       ∧ cs_num cs = sl_num l ∧ cs_text cs = sl_text l
       ∧ 0 <= cs_progress cs ∧ cs_progress cs <= 1
       ∧ (endFrame evt <= frame → cs_progress cs == 1))
  ∧ (currentStep st = None →
     ∀ e, e ∈ anim → is_Some (step e) → frame < startFrame e).
Proof.
  intros H Hvis anim. apply useTimeline_indicator in H
    as (cur & ind & Hcur & _ & Hio & Hcs & _).
  fold anim in Hcur. rewrite Hio in Hvis. apply gt_true in Hvis.
  rewrite Hvis in Hcs. rewrite Hcs. clear Hcs Hio Hvis.
  unfold findCurrentStep in Hcur.
  pose proof (find_rev_last
                (fun e => bool_decide (is_Some (step e))
                          && Js.ge frame (startFrame e)) anim) as Hfind.
  assert (Hnot : ∀ post : list FlatEvent,
            Forall (fun e => bool_decide (is_Some (step e))
                             && Js.ge frame (startFrame e) = false) post →
            ∀ e, e ∈ post → is_Some (step e) → frame < startFrame e).
  { intros post Hpost e He Hl. rewrite Forall_forall in Hpost.
    specialize (Hpost e He). apply andb_false_iff in Hpost as [Hb|Hb].
    - apply bool_decide_eq_false in Hb. contradiction.
    - apply ge_false in Hb. exact Hb. }
  destruct (List.find _ (rev anim)) as [evt|].
  - destruct Hfind as (pre & post & Hanim & Hevt & Hpost).
    apply andb_true_iff in Hevt as [Hl Hs].
    apply bool_decide_eq_true in Hl as [l Hl]. apply ge_true in Hs.
    apply bind_Ok in Hcur as (p & Hp & [= <-]). rewrite Hl. cbn. split.
    + intros cs [= <-]. exists pre, evt, post, l. cbn.
      destruct (interpolate_up_unit _ _ _ _ Hp) as [Hp0 Hp1].
      split; [exact Hanim|]. split; [exact Hl|]. split; [exact Hs|].
      split; [apply Hnot; exact Hpost|].
      split; [reflexivity|]. split; [reflexivity|].
      split; [exact Hp0|]. split; [exact Hp1|].
      intros Hend. eapply interpolate_up_end; [exact Hp|].
      unfold endFrame in Hend. exact Hend.
    + discriminate.
  - injection Hcur as <-. split; [discriminate|].
    intros _. apply Hnot. exact Hfind.
Qed.

Lemma current_step_is_latest_witness :
  ∃ st cs, useTimeline requestFlow requestNodes requestConnections [] 70 30
           = Ok (Some st)
           ∧ currentStep st = Some cs ∧ cs_num cs = 2%Z.
Proof.
  assert (H : ∃ st cs, useTimeline requestFlow requestNodes
                         requestConnections [] 70 30 = Ok (Some st)
                       ∧ 1 # 100 < indicatorOpacity st
                       ∧ currentStep st = Some cs ∧ cs_num cs = 2%Z).
  { do 2 eexists. split; [vm_compute; reflexivity|].
    split; [vm_compute; reflexivity|]. split; vm_compute; reflexivity. }
  destruct H as (st & cs & H & Hvis & Hcs & Hnum). exists st, cs.
  split; [exact H|]. split; [exact Hcs|].
  destruct (proj1 (current_step_is_latest _ _ _ _ _ _ _ H Hvis) cs Hcs)
    as (pre & evt & post & l & _ & _ & _ & _ & Hn & _).
  exact Hnum.
Defined.

(** ** Still mode and the orchestrator's fallback *)

(** X13. [useTimeline] returns no state exactly for an empty timeline or a
    frame rate of at most 1 (still compositions), whatever the frame and
    the elements; the orchestrator then renders every element with
    [STATIC_ANIM] (brightness 0, fully drawn, opacity 1), the content at
    opacity 1 and no step indicator. *)
Theorem still_mode timeline nodes connections containers frame fps :
  (useTimeline timeline nodes connections containers frame fps = Ok None
   ↔ timeline = [] ∨ fps <= 1)
  ∧ ∀ ts, useTimeline timeline nodes connections containers frame fps = Ok ts →
          timeline = [] ∨ fps <= 1 →
          (∀ node, nodeAnim ts node = STATIC_ANIM)
          ∧ (∀ conn, connectionAnim ts conn = STATIC_ANIM)
          ∧ (∀ container, containerAnim ts container = STATIC_ANIM)
          ∧ contentOpacity ts = 1 ∧ indicatorShown ts = false.
Proof.
  assert (Hstill : timeline = [] ∨ fps <= 1 →
            useTimeline timeline nodes connections containers frame fps
            = Ok None).
  { intros [-> | Hfps]; [reflexivity|]. unfold useTimeline.
    destruct (length timeline =? 0)%nat; [reflexivity|].
    apply Qle_bool_iff in Hfps. unfold Js.le, Js.ge. rewrite Hfps.
    reflexivity. }
  split.
  - split; [apply useTimeline_not_null | exact Hstill].
  - intros ts Hts Hs. rewrite (Hstill Hs) in Hts. injection Hts as <-.
    cbn. auto.
Qed.

(** ** The evaluator and the layout agree on the elements *)



(** ** The total duration *)

Lemma maxEnd_fold (l : list FlatEvent) m :
  foldl (fun m e => Z.max m (startFrame e + durationFrames e)) m l
  = foldl Z.max m (map endFrame l).
Proof.
  revert m. induction l as [|e l IH]; intros m; cbn; [reflexivity|].
  rewrite IH. reflexivity.
Qed.

Lemma maxEnd_eq evs m :
  (∀ e, e ∈ evs → (endFrame e <= m)%Z) →
  (∃ e, e ∈ evs ∧ endFrame e = m) →
  maxEnd evs = m.
Proof.
  intros Hle (e0 & He0 & Hm). destruct evs as [|e evs]; [inversion He0|].
  unfold maxEnd. rewrite maxEnd_fold. fold (endFrame e).
  assert (Hup : (m <= foldl Z.max (endFrame e) (map endFrame evs))%Z).
  { apply list_elem_of_In in He0. destruct He0 as [->|He0].
    - rewrite <- Hm. apply foldl_max_ge.
    - rewrite <- Hm. apply foldl_max_upper. apply list_elem_of_fmap.
      exists e0. split; [reflexivity | apply list_elem_of_In; exact He0]. }
  assert (Hdown : (foldl Z.max (endFrame e) (map endFrame evs) <= m)%Z).
  { destruct (foldl_max_attained (map endFrame evs) (endFrame e)) as [->|H].
    - apply Hle. left.
    - apply list_elem_of_fmap in H as (e1 & -> & He1). apply Hle. right.
      exact He1. }
  lia.
Qed.

Section Total.
Variable fps : Q.
Hypothesis fps_nonneg : 0 <= fps.

(** A step that takes frames has an event that ends with it. *)
Lemma step_attained st :
  nonnegStep st →
  ∀ pg c, stepFrames fps st = 0%Z
          ∨ ∃ e, e ∈ newEvents fps st pg c
                 ∧ endFrame e = (c + stepFrames fps st)%Z.
Proof.
  induction st as [a tgt d l g | d | steps g IH] using AnimationStep_tree_ind;
    intros Hst pg c.
  - right. eexists. split; [left|]. reflexivity.
  - right. eexists. split; [left|]. reflexivity.
  - apply nonnegStep_parallel in Hst. cbn [stepFrames].
    destruct (foldl_max_attained (map (stepFrames fps) steps) 0%Z)
      as [H0|Hin]; [left; exact H0|].
    apply list_elem_of_fmap in Hin as (child & Hchild & Hin).
    rewrite Forall_forall in IH, Hst.
    destruct (IH child Hin (Hst child Hin) (Js.nullish g pg) c)
      as [Hz | (e & He & Hend)].
    + left. rewrite Hchild. exact Hz.
    + right. exists e. split; [|rewrite Hchild; exact Hend].
      rewrite newEvents_parallel. apply list_elem_of_join.
      eexists. split; [exact He|]. apply list_elem_of_fmap. eauto.
Qed.

Lemma steps_attained steps :
  Forall nonnegStep steps →
  ∀ s, cursor (flattenSteps fps s steps)
       = (cursor s
          + fold_right (fun st n => (stepFrames fps st + n)%Z) 0%Z steps)%Z
       ∧ (cursor (flattenSteps fps s steps) = cursor s
          ∨ ∃ e, e ∈ events (flattenSteps fps (fresh (cursor s)) steps)
                 ∧ endFrame e = cursor (flattenSteps fps s steps)).
Proof.
  induction 1 as [|st steps Hst _ IH]; intros s.
  - cbn. split; [lia | left; reflexivity].
  - cbn [flattenSteps foldl fold_right].
    fold (flattenSteps fps (flattenStep fps st None s) steps).
    fold (flattenSteps fps (flattenStep fps st None (fresh (cursor s))) steps).
    destruct (flattenStep_spec fps st None s) as [_ Hc].
    destruct (flattenStep_spec fps st None (fresh (cursor s))) as [He' Hc'].
    cbn [fresh events cursor app] in He', Hc'.
    destruct (IH (flattenStep fps st None s)) as [IHc IHa].
    destruct (flattenSteps_frame fps steps
                (flattenStep fps st None (fresh (cursor s)))) as [Hev _].
    rewrite Hc', <- Hc in Hev. split; [lia|].
    destruct IHa as [Heq | (e & He & Hend)].
    + destruct (step_attained st Hst None (cursor s)) as [Hz | (e & He & Hend)].
      * left. lia.
      * right. exists e. split; [|lia].
        rewrite Hev, He'. apply elem_of_app. left. exact He.
    + right. exists e. split; [|exact Hend].
      rewrite Hev. apply elem_of_app. right. exact He.
Qed.

Lemma phase_attained p s :
  nonnegPhase p →
  cursor (flattenPhase fps s p) = (cursor s + phaseFrames fps p)%Z
  ∧ (cursor (flattenPhase fps s p) = cursor s
     ∨ ∃ e, e ∈ phaseEvents fps p (cursor s)
            ∧ endFrame e = cursor (flattenPhase fps s p)).
Proof.
  destruct p as [d | steps | d | d]; intros Hp;
    try (split; [reflexivity|]; right; eexists; split; [left | reflexivity]).
  apply (steps_attained steps Hp s).
Qed.

(** The cursor is the latest end: no event ends after it, and unless nothing
    has been emitted and it is still 0, some event ends at it. *)
Lemma timeline_settled timeline :
  Forall nonnegPhase timeline →
  ∀ s, (0 <= cursor s)%Z →
       (∀ e, e ∈ events s → (0 <= startFrame e)%Z
                            ∧ (endFrame e <= cursor s)%Z) →
       (events s = [] ∧ cursor s = 0%Z
        ∨ ∃ e, e ∈ events s ∧ endFrame e = cursor s) →
       let s' := foldl (flattenPhase fps) s timeline in
       cursor s' = (cursor s + timelineFrames fps timeline)%Z
       ∧ (∀ e, e ∈ events s' → (0 <= startFrame e)%Z
                               ∧ (endFrame e <= cursor s')%Z)
       ∧ (events s' = [] ∧ cursor s' = 0%Z
          ∨ ∃ e, e ∈ events s' ∧ endFrame e = cursor s').
Proof.
  induction 1 as [|p tl Hp _ IH]; intros s Hc Hin Hat.
  - cbn. split; [lia|]. split; assumption.
  - cbn [foldl timelineFrames fold_right].
    fold (timelineFrames fps tl).
    destruct (flattenPhase_spec fps fps_nonneg p s Hp) as (Hadv & Hev & Hw).
    destruct (phase_attained p s Hp) as [Hcur Hatt].
    destruct (IH (flattenPhase fps s p)) as (IHc & IHin & IHat).
    + lia.
    + intros e He. rewrite Hev in He. apply elem_of_app in He as [He|He].
      * destruct (Hin e He). split; [assumption | lia].
      * destruct (Hw e He). split; [lia | assumption].
    + destruct Hatt as [Heq | (e & He & Hend)].
      * destruct Hat as [[Hnil H0] | (e & He & Hend)].
        -- destruct (phaseEvents fps p (cursor s)) as [|e l] eqn:Epe.
           ++ left. rewrite Hev, Hnil. split; [reflexivity | lia].
           ++ right. exists e.
              assert (He : e ∈ phaseEvents fps p (cursor s))
                by (rewrite Epe; left).
              split; [rewrite Hev; apply elem_of_app; right; left|].
              destruct (Hw e ltac:(left)) as [Hs He'].
              pose proof (phaseEvents_nonneg fps fps_nonneg p Hp _ e He).
              unfold endFrame in *. lia.
        -- right. exists e. split; [|lia].
           rewrite Hev. apply elem_of_app. left. exact He.
      * right. exists e. split; [|exact Hend].
        rewrite Hev. apply elem_of_app. right. exact He.
    + split; [lia|]. split; assumption.
Qed.
End Total.

(** The total duration in closed form, over exact products. *)
Lemma total_duration_closed_form fps timeline :
  0 <= fps → Forall nonnegPhase timeline →
  calculateTotalDuration fps timeline = timelineFrames fps timeline
  ∧ ∀ e, e ∈ flattenTimeline fps timeline →
         (0 <= startFrame e)%Z
         ∧ (endFrame e <= calculateTotalDuration fps timeline)%Z.
Proof.
  intros Hfps Htl. unfold calculateTotalDuration, flattenTimeline.
  destruct (timeline_settled fps Hfps timeline Htl
              {| events := []; cursor := 0 |}) as (Hc & Hin & Hat).
  - cbn. lia.
  - intros e He. inversion He.
  - left. split; reflexivity.
  - cbn [cursor] in Hc.
    set (s' := foldl (flattenPhase fps) {| events := []; cursor := 0 |}
                 timeline) in *.
    assert (Hmax : maxEnd (events s') = cursor s').
    { destruct Hat as [[Hnil H0] | Hex].
      - rewrite Hnil, H0. reflexivity.
      - apply maxEnd_eq; [|exact Hex]. intros e He. apply (Hin e He). }
    rewrite Hmax. split; [lia | exact Hin].
Qed.

Lemma timelineFrames_app fps tl1 tl2 :
  timelineFrames fps (tl1 ++ tl2)
  = (timelineFrames fps tl1 + timelineFrames fps tl2)%Z.
Proof.
  unfold timelineFrames. induction tl1 as [|p tl1 IH]; cbn; [reflexivity|].
  rewrite IH. lia.
Qed.

Lemma sequenceFrames_app fps s1 s2 :
  phaseFrames fps (PhaseSequence (s1 ++ s2))
  = (phaseFrames fps (PhaseSequence s1)
     + phaseFrames fps (PhaseSequence s2))%Z.
Proof.
  cbn [phaseFrames]. induction s1 as [|st s1 IH]; cbn; [reflexivity|].
  rewrite IH. lia.
Qed.

(** X15. With a non-negative frame rate and non-negative durations, total
    durations add up: the total duration of a timeline (the latest end among
    its flattened events, 0 without events) is the sum of the total
    durations of its parts taken alone, that of a sequence is the sum of
    those of its parts taken alone, and that of a [parallel] step is the
    longest of those of its children taken alone; every flattened event lies
    between frame 0 and the total duration. *)
Theorem total_duration_additive fps :
  0 <= fps →
  let total := calculateTotalDuration fps in
  (∀ tl1 tl2, Forall nonnegPhase tl1 → Forall nonnegPhase tl2 →
              total (tl1 ++ tl2) = (total tl1 + total tl2)%Z)
  ∧ (∀ s1 s2, Forall nonnegStep s1 → Forall nonnegStep s2 →
              total [PhaseSequence (s1 ++ s2)]
              = (total [PhaseSequence s1] + total [PhaseSequence s2])%Z)
  ∧ (∀ steps g, Forall nonnegStep steps →
                total [PhaseSequence [StepParallel steps g]]
                = foldl Z.max 0%Z
                    (map (fun st => total [PhaseSequence [st]]) steps))
  ∧ (∀ timeline, Forall nonnegPhase timeline →
       ∀ e, e ∈ flattenTimeline fps timeline →
            (0 <= startFrame e)%Z ∧ (endFrame e <= total timeline)%Z).
Proof.
  intros Hfps total. subst total.
  assert (Hseq : ∀ steps, Forall nonnegStep steps →
            calculateTotalDuration fps [PhaseSequence steps]
            = phaseFrames fps (PhaseSequence steps)).
  { intros steps Hs.
    rewrite (proj1 (total_duration_closed_form fps [PhaseSequence steps]
                      Hfps ltac:(constructor; [exact Hs | constructor]))).
    unfold timelineFrames. cbn [fold_right]. lia. }
  split; [|split; [|split]].
  - intros tl1 tl2 H1 H2.
    rewrite (proj1 (total_duration_closed_form fps (tl1 ++ tl2) Hfps
                      ltac:(apply Forall_app; split; assumption))).
    rewrite (proj1 (total_duration_closed_form fps tl1 Hfps H1)).
    rewrite (proj1 (total_duration_closed_form fps tl2 Hfps H2)).
    apply timelineFrames_app.
  - intros s1 s2 H1 H2.
    rewrite (Hseq (s1 ++ s2)) by (apply Forall_app; split; assumption).
    rewrite (Hseq s1 H1), (Hseq s2 H2). apply sequenceFrames_app.
  - intros steps g Hs.
    rewrite Hseq
      by (constructor; [apply nonnegStep_parallel; exact Hs | constructor]).
    cbn [phaseFrames fold_right stepFrames]. rewrite Z.add_0_r.
    f_equal. apply map_ext_Forall.
    eapply Forall_impl; [exact Hs|]. intros st Hst. cbn beta.
    rewrite Hseq by (constructor; [exact Hst | constructor]).
    cbn [phaseFrames fold_right]. lia.
  - intros timeline Htl.
    apply (total_duration_closed_form fps timeline Hfps Htl).
Qed.

Lemma total_duration_additive_witness :
  calculateTotalDuration 30 ([PhaseHold 1] ++ requestFlow)
  = (calculateTotalDuration 30 [PhaseHold 1]
     + calculateTotalDuration 30 requestFlow)%Z.
Proof.
  apply (proj1 (total_duration_additive 30 ltac:(vm_compute; discriminate))).
  - repeat constructor. vm_compute. discriminate.
  - repeat constructor; vm_compute; discriminate.
Defined.

(** ** The number of steps *)

(** The labelled animation events of an event list. *)
Lemma labelled_anim_app (a b : list FlatEvent) :
  length (labelled (animEventsOf (a ++ b)))
  = (length (labelled (animEventsOf a))
     + length (labelled (animEventsOf b)))%nat.
Proof.
  unfold labelled, animEventsOf. rewrite !filter_app, length_app.
  reflexivity.
Qed.

Lemma labelled_newEvents fps st :
  ∀ pg c, length (labelled (animEventsOf (newEvents fps st pg c)))
          = labelledSteps st.
Proof.
  induction st as [a tgt d l g | d | steps g IH] using AnimationStep_tree_ind;
    intros pg c.
  - destruct a, l; reflexivity.
  - reflexivity.
  - rewrite newEvents_parallel. cbn [labelledSteps].
    induction IH as [|child steps Hchild _ IHsteps]; [reflexivity|].
    cbn [map mjoin list_join fold_right].
    rewrite labelled_anim_app, Hchild. f_equal. exact IHsteps.
Qed.

Lemma flattenPhase_events fps p s :
  events (flattenPhase fps s p) = events s ++ phaseEvents fps p (cursor s).
Proof.
  destruct p as [d | steps | d | d]; try reflexivity.
  apply (flattenSteps_frame fps steps s).
Qed.

Lemma labelled_steps fps steps :
  ∀ c, length (labelled (animEventsOf
                           (events (flattenSteps fps (fresh c) steps))))
       = fold_right (fun st n => (labelledSteps st + n)%nat) 0%nat steps.
Proof.
  induction steps as [|st steps IH]; intros c; [reflexivity|].
  cbn [flattenSteps foldl fold_right].
  fold (flattenSteps fps (flattenStep fps st None (fresh c)) steps).
  destruct (flattenSteps_frame fps steps (flattenStep fps st None (fresh c)))
    as [-> _].
  rewrite labelled_anim_app, IH.
  change (events (flattenStep fps st None (fresh c)))
    with (newEvents fps st None c).
  rewrite labelled_newEvents. reflexivity.
Qed.

Lemma labelled_phase fps p c :
  length (labelled (animEventsOf (phaseEvents fps p c))) = labelledOfPhase p.
Proof.
  destruct p as [d | steps | d | d]; try reflexivity.
  apply (labelled_steps fps steps c).
Qed.

Lemma labelled_timeline fps timeline :
  ∀ s, length (labelled (animEventsOf
                           (events (foldl (flattenPhase fps) s timeline))))
       = (length (labelled (animEventsOf (events s)))
          + labelledOfTimeline timeline)%nat.
Proof.
  induction timeline as [|p tl IH]; intros s; cbn [foldl]; [cbn; lia|].
  rewrite IH, flattenPhase_events, labelled_anim_app, labelled_phase.
  cbn [labelledOfTimeline fold_right]. fold (labelledOfTimeline tl). lia.
Qed.

(** X16. The [totalSteps] of a returned state is the number of labelled
    action steps written in the timeline, counted through nested [parallel]
    steps; it depends neither on the frame nor on the frame rate nor on the
    declared elements. *)
Theorem total_steps_counts_labels timeline nodes connections containers frame
    fps st :
  useTimeline timeline nodes connections containers frame fps = Ok (Some st) →
  totalSteps st = labelledOfTimeline timeline.
Proof.
  intros H. apply useTimeline_indicator in H as (_ & _ & _ & _ & _ & _ & ->).
  unfold flattenTimeline.
  apply (labelled_timeline fps timeline {| events := []; cursor := 0 |}).
Qed.

Lemma total_steps_counts_labels_witness :
  ∃ st, useTimeline requestFlow requestNodes requestConnections [] 70 30
        = Ok (Some st) ∧ totalSteps st = 3%nat.
Proof.
  assert (H : ∃ st, useTimeline requestFlow requestNodes requestConnections
                      [] 70 30 = Ok (Some st))
    by (eexists; vm_compute; reflexivity).
  destruct H as (st & H). exists st. split; [exact H|].
  rewrite (total_steps_counts_labels _ _ _ _ _ _ _ H). reflexivity.
Defined.

(** ** Elements that no event targets, and containers with inner nodes *)

Lemma forIndex_unchanged {A St} (body : nat → A → St → result St) l :
  ∀ i s, (∀ j x a, x ∈ l → body j x a = Ok a) → forIndex body i l s = Ok s.
Proof.
  induction l as [|x l IH]; intros i s Hb; cbn; [reflexivity|].
  rewrite (Hb i x s) by left. cbn. apply IH.
  intros j y a Hy. apply Hb. right. exact Hy.
Qed.

Lemma isAction_false a e : action e ≠ a → isAction a e = false.
Proof. intros H. unfold isAction. apply bool_decide_eq_false. exact H. Qed.

Lemma isTarget_false e id : target e ≠ Some id → isTarget e id = false.
Proof. intros H. unfold isTarget. apply bool_decide_eq_false. exact H. Qed.

Lemma innerNodes_ge ns id l :
  ∀ b, b <= foldl (innerNodeStep ns id) b l.
Proof.
  induction l as [|n l IH]; intros b; cbn [foldl]; [lra|].
  eapply Qle_trans; [|apply IH]. unfold innerNodeStep.
  destruct (bool_decide (nd_container n = Some id)); [|lra].
  destruct (ns !! nd_id n); [apply Q.le_max_l | lra].
Qed.

Lemma innerNodes_member ns id l n sn :
  n ∈ l → nd_container n = Some id → ns !! nd_id n = Some sn →
  ∀ b, brightness sn <= foldl (innerNodeStep ns id) b l.
Proof.
  intros Hn Hc Hs. induction l as [|x l IH]; intros b; [inversion Hn|].
  cbn [foldl]. apply list_elem_of_In in Hn. destruct Hn as [->|Hn].
  - eapply Qle_trans; [|apply innerNodes_ge]. unfold innerNodeStep.
    rewrite bool_decide_eq_true_2 by exact Hc. rewrite Hs. apply Q.le_max_r.
  - apply IH. apply list_elem_of_In. exact Hn.
Qed.

Lemma innerNodes_none ns id l :
  (∀ n, n ∈ l → nd_container n ≠ Some id) →
  ∀ b, foldl (innerNodeStep ns id) b l = b.
Proof.
  induction l as [|x l IH]; intros Hno b; cbn [foldl]; [reflexivity|].
  rewrite IH by (intros n Hn; apply Hno; right; exact Hn).
  unfold innerNodeStep.
  rewrite bool_decide_eq_false_2 by (apply Hno; left). reflexivity.
Qed.

(** X17. An element that no animation event targets just follows the global
    floor: a node without [fillBox] or [dimBox] event has brightness and
    draw progress equal to the floor, and so has the brightness of a
    container without [showContainer] event and without inner node; a
    connection without [drawLine] event has equal brightness and draw
    progress, both at least the floor. *)
Theorem untargeted_elements_follow_floor timeline nodes connections
    containers frame fps st :
  useTimeline timeline nodes connections containers frame fps = Ok (Some st) →
  let anim := animEventsOf (flattenTimeline fps timeline) in
  let untargeted (a : Action) (id : string) :=
    ∀ e, e ∈ anim → action e = a → target e ≠ Some id in
  (∀ id s, ts_nodes st !! id = Some s →
           untargeted AFillBox id → untargeted ADimBox id →
           brightness s == globalFloor st ∧ drawProgress s == globalFloor st)
  ∧ (∀ id s, ts_containers st !! id = Some s →
             untargeted AShowContainer id →
             (∀ n, n ∈ nodes → nd_container n ≠ Some id) →
             brightness s == globalFloor st)
  ∧ (∀ id s, ts_connections st !! id = Some s →
             untargeted ADrawLine id →
             brightness s == drawProgress s
             ∧ globalFloor st <= brightness s).
Proof.
  intros H anim untargeted. apply useTimeline_stages in H.
  destruct (floor_unit _ _ _ _ _ _ _ H) as [Hf0 Hf1].
  assert (Hskip : ∀ a id e, untargeted a id → e ∈ anim →
                            isAction a e && isTarget e id = false).
  { intros a id e Hun He. destruct (decide (action e = a)) as [Ha|Ha].
    - rewrite (isTarget_false e id (Hun e He Ha)). apply andb_false_r.
    - rewrite (isAction_false a e Ha). reflexivity. }
  split; [|split].
  - intros id s Hs Hfill Hdim.
    apply (node_entry _ _ _ _ _ _ _ H) in Hs as (a & _ & Ha & ->).
    fold anim in Ha. rewrite forIndex_unchanged in Ha.
    + injection Ha as <-. cbn. split.
      * apply max_eq; [|lra|left].
        -- assert (Js.max 0 (globalFloor st) == globalFloor st)
             by (apply Q.max_r; exact Hf0). lra.
        -- assert (Js.max 0 (globalFloor st) == globalFloor st)
             by (apply Q.max_r; exact Hf0). lra.
      * apply Q.max_r. exact Hf0.
    + intros j e a0 He. unfold nodeBody.
      rewrite (Hskip _ _ _ Hfill He), (Hskip _ _ _ Hdim He). reflexivity.
  - intros id s Hs Hshow Hinner.
    destruct (assign_lookup cd_id _ _ (fun _ _ => eq_refl) containers ∅ _
                (stage_containers _ _ _ _ _ _ _ H) id s Hs)
      as [H0 | (k & _ & <- & Hk)].
    { rewrite lookup_empty in H0. discriminate. }
    apply containerState_inv in Hk as (b & Hb & ->).
    fold anim in Hb. rewrite forIndex_unchanged in Hb.
    + injection Hb as <-. cbn. rewrite (innerNodes_none _ _ _ Hinner).
      apply Q.max_r. exact Hf0.
    + intros j e a0 He. unfold containerBody.
      rewrite (Hskip _ _ _ Hshow He). reflexivity.
  - intros id s Hs Hdraw.
    destruct (assign_lookup (fun x : string => x) _ _ (fun _ _ => eq_refl)
                (map getConnectionId connections) ∅ _
                (stage_connections _ _ _ _ _ _ _ H) id s Hs)
      as [H0 | (k & _ & <- & Hk)].
    { rewrite lookup_empty in H0. discriminate. }
    apply connState_inv in Hk as (a & r & Ha & _ & ->).
    fold anim in Ha. rewrite forIndex_unchanged in Ha.
    + injection Ha as <-. cbn. unfold Js.max3, Js.max. split.
      * rewrite <- Q.max_assoc, (Q.max_comm r), Q.max_assoc. reflexivity.
      * apply Q.le_max_r.
    + intros j e a0 He. unfold connBody.
      rewrite (Hskip _ _ _ Hdraw He). reflexivity.
Qed.

Lemma untargeted_elements_follow_floor_witness :
  ∃ st s, useTimeline requestFlow (plainNode "idle" 1 0 :: requestNodes)
            requestConnections [] 70 30 = Ok (Some st)
          ∧ ts_nodes st !! "idle" = Some s
          ∧ brightness s == globalFloor st.
Proof.
  assert (H : ∃ st s,
    useTimeline requestFlow (plainNode "idle" 1 0 :: requestNodes)
      requestConnections [] 70 30 = Ok (Some st)
    ∧ ts_nodes st !! "idle" = Some s)
    by (do 2 eexists; split; vm_compute; reflexivity).
  destruct H as (st & s & H & Hs). exists st, s.
  split; [exact H|]. split; [exact Hs|].
  refine (proj1 (proj1 (untargeted_elements_follow_floor _ _ _ _ _ _ _ H)
                   "idle" s Hs _ _)).
  - apply (proj1 (Forall_forall
                    (fun e => action e = AFillBox → target e ≠ Some "idle")
                    _)).
    vm_compute.
    repeat (apply Forall_cons; split;
            [intros Ha; try discriminate Ha; intros Hb; discriminate Hb|]).
    apply Forall_nil. exact I.
  - apply (proj1 (Forall_forall
                    (fun e => action e = ADimBox → target e ≠ Some "idle")
                    _)).
    vm_compute.
    repeat (apply Forall_cons; split;
            [intros Ha; try discriminate Ha; intros Hb; discriminate Hb|]).
    apply Forall_nil. exact I.
Defined.

(** X18. A container is at least as bright, and at least as opaque, as each
    node declared inside it and as the global floor. *)
Theorem container_at_least_members timeline nodes connections containers
    frame fps st id sk :
  useTimeline timeline nodes connections containers frame fps = Ok (Some st) →
  ts_containers st !! id = Some sk →
  globalFloor st <= brightness sk
  ∧ ∀ n sn, n ∈ nodes → nd_container n = Some id →
            ts_nodes st !! nd_id n = Some sn →
            brightness sn <= brightness sk ∧ opacity sn <= opacity sk.
Proof.
  intros H Hs. apply useTimeline_stages in H.
  destruct (assign_lookup cd_id _ _ (fun _ _ => eq_refl) containers ∅ _
              (stage_containers _ _ _ _ _ _ _ H) id sk Hs)
    as [H0 | (k & _ & <- & Hk)].
  { rewrite lookup_empty in H0. discriminate. }
  apply containerState_inv in Hk as (b & _ & ->). cbn. split.
  - apply Q.le_max_r.
  - intros n sn Hn Hc Hsn.
    assert (Hb : brightness sn
                 <= Js.max (foldl (innerNodeStep (ts_nodes st) (cd_id k)) b
                              nodes) (globalFloor st)).
    { eapply Qle_trans; [|apply Q.le_max_l].
      eapply innerNodes_member; eassumption. }
    split; [exact Hb|].
    apply (node_entry _ _ _ _ _ _ _ H) in Hsn as (a & _ & _ & ->).
    cbn in *. unfold DIM_NODE, DIM_CONTAINER. lra.
Qed.

Lemma container_at_least_members_witness :
  ∃ st sk sn,
    useTimeline [PhaseSequence [StepAct SFillBox "stage" None None None]]
      [stageNode] [] [plainContainer "pipe" 0 1 2] 10 30 = Ok (Some st)
    ∧ ts_containers st !! "pipe" = Some sk
    ∧ ts_nodes st !! "stage" = Some sn
    ∧ brightness sn <= brightness sk.
Proof.
  assert (H : ∃ st sk sn,
    useTimeline [PhaseSequence [StepAct SFillBox "stage" None None None]]
      [stageNode] [] [plainContainer "pipe" 0 1 2] 10 30 = Ok (Some st)
    ∧ ts_containers st !! "pipe" = Some sk
    ∧ ts_nodes st !! "stage" = Some sn).
  { do 3 eexists. split; [vm_compute; reflexivity|].
    split; vm_compute; reflexivity. }
  destruct H as (st & sk & sn & H & Hk & Hn). exists st, sk, sn.
  split; [exact H|]. split; [exact Hk|]. split; [exact Hn|].
  refine (proj1 (proj2 (container_at_least_members _ _ _ _ _ _ _ _ _ H Hk)
                   stageNode sn _ _ Hn)).
  - left.
  - reflexivity.
Defined.

(** ** The life of an envelope that fades out *)

(** X19. An event with a fade-out start (its own lookahead trigger or its
    group's), at least one frame long and with a fade-out of at least one
    frame, has a complete one-shot envelope: 0 up to its start, 1 from its end
    until the fade-out starts, 0 again from the end of the fade-out on, and
    within [0, 1] throughout.  A fade-out start that is not after the event's
    end is moved to one frame after it, so the plateau is never empty. *)
Theorem envelope_lifecycle frame fps anim evt i t :
  fadeOutStartOf anim evt i = FadeOutAt t →
  (0 < durationFrames evt)%Z →
  (0 < Js.round (FADE_OUT_S * fps))%Z →
  let onset := startFrame evt in
  let fadeInEnd := endFrame evt in
  let start := if (t <=? fadeInEnd)%Z then (fadeInEnd + 1)%Z else t in
  let fadeOutEnd := (start + Js.round (FADE_OUT_S * fps))%Z in
  (fadeInEnd < start)%Z
  ∧ ∃ b, eventEnvelope frame fps anim evt i = Ok b
         ∧ 0 <= b ∧ b <= 1
         ∧ (frame <= onset → b == 0)
         ∧ (fadeInEnd <= frame → frame <= start → b == 1)
         ∧ (fadeOutEnd <= frame → b == 0).
Proof.
  intros Hfade Hdur Hfo onset fadeInEnd start fadeOutEnd.
  assert (H1z : (onset < fadeInEnd)%Z) by (unfold onset, fadeInEnd, endFrame; lia).
  assert (H2z : (fadeInEnd < start)%Z).
  { unfold start. destruct (Z.leb_spec t fadeInEnd); lia. }
  assert (H3z : (start < fadeOutEnd)%Z) by (unfold fadeOutEnd; lia).
  split; [exact H2z|].
  pose proof (proj1 (Zlt_inj _ _) H1z) as H1.
  pose proof (proj1 (Zlt_inj _ _) H2z) as H2.
  pose proof (proj1 (Zlt_inj _ _) H3z) as H3.
  unfold eventEnvelope. rewrite Hfade. cbn zeta.
  change (startFrame evt + durationFrames evt)%Z with fadeInEnd.
  fold onset start fadeOutEnd.
  rewrite interpolate4.
  rewrite (proj2 (gt_true _ _) H1), (proj2 (gt_true _ _) H2),
    (proj2 (gt_true _ _) H3). cbn [andb].
  eexists. split; [reflexivity|].
  destruct (Js.ge fadeInEnd frame) eqn:E1.
  - apply ge_true in E1.
    destruct (segment_up_range frame onset fadeInEnd H1) as [Hb0 Hb1].
    split; [exact Hb0|]. split; [exact Hb1|]. split; [|split].
    + intros Hx. apply segment_up_start; assumption.
    + intros Hx _. apply segment_up_end; assumption.
    + intros Hx. exfalso. lra.
  - apply ge_false in E1. destruct (Js.ge start frame) eqn:E2.
    + apply ge_true in E2. rewrite segment_flat.
      split; [lra|]. split; [lra|]. split; [|split].
      * intros Hx. exfalso. lra.
      * intros _ _. reflexivity.
      * intros Hx. exfalso. lra.
    + apply ge_false in E2.
      destruct (segment_down_range frame start fadeOutEnd H3) as [Hb0 Hb1].
      split; [exact Hb0|]. split; [exact Hb1|]. split; [|split].
      * intros Hx. exfalso. lra.
      * intros _ Hx. exfalso. lra.
      * intros Hx. apply segment_down_end; assumption.
Qed.

Lemma envelope_lifecycle_witness :
  ∃ evt t b,
    animEventsOf (flattenTimeline 30 requestFlow) !! 0%nat = Some evt
    ∧ fadeOutStartOf (animEventsOf (flattenTimeline 30 requestFlow)) evt 0
      = FadeOutAt t
    ∧ eventEnvelope 200 30 (animEventsOf (flattenTimeline 30 requestFlow))
        evt 0 = Ok b
    ∧ b == 0.
Proof.
  assert (H : ∃ evt t,
    animEventsOf (flattenTimeline 30 requestFlow) !! 0%nat = Some evt
    ∧ fadeOutStartOf (animEventsOf (flattenTimeline 30 requestFlow)) evt 0
      = FadeOutAt t
    ∧ (0 < durationFrames evt)%Z
    ∧ inject_Z ((if (t <=? endFrame evt)%Z then (endFrame evt + 1)%Z else t)
                + Js.round (FADE_OUT_S * 30))%Z <= 200).
  { do 2 eexists. split; [vm_compute; reflexivity|].
    split; [vm_compute; reflexivity|]. split; [vm_compute; reflexivity|].
    vm_compute. discriminate. }
  destruct H as (evt & t & Hevt & Ht & Hdur & Hlate).
  destruct (envelope_lifecycle 200 30 _ evt 0 t Ht Hdur
              ltac:(vm_compute; reflexivity))
    as (_ & b & Hb & _ & _ & _ & _ & Hend).
  exists evt, t, b. split; [exact Hevt|]. split; [exact Ht|].
  split; [exact Hb|]. apply Hend. exact Hlate.
Defined.

(** ** Layout: endpoints on a container *)

(** X20. A connection endpoint on a container is anchored on the border the
    reference names (left, or left + width), at the vertical middle of the
    container, and an edge override does not move it: the anchor is the
    endpoint's center whatever edge is used. *)
Theorem container_endpoint_anchor grid nodes containers connections theme
    layout cid side c :
  Layout.resolveLayout grid nodes containers connections theme = Ok layout →
  Layout.l_containers layout !! cid = Some c →
  ∃ center,
    Layout.getTargetCenter grid theme (Layout.l_containers layout)
      (Layout.l_nodes layout) (ContainerRef cid side) = Ok (Some center)
    ∧ (∀ edge, Layout.anchorPoint (Layout.l_containers layout)
                 (Layout.l_nodes layout) (ContainerRef cid side) edge
                 (Some center)
               = Ok center)
    ∧ px center = match side with
                  | SLeft => Layout.rc_left c
                  | SRight => Layout.rc_left c + Layout.rc_width c
                  end
    ∧ py center == Layout.rc_top c + Layout.rc_height c / 2.
Proof.
  intros H Hc. apply resolveLayout_inv in H as (Hrc & _ & _).
  cbn [Layout.getTargetCenter Layout.anchorPoint].
  unfold Layout.containerEdge. rewrite (get_own _ _ _ Hc).
  eexists. split; [reflexivity|].
  split; [intros edge; reflexivity|]. split; [reflexivity|].
  rewrite Hrc in Hc.
  apply resolveContainers_entry in Hc as (cdef & _ & _ & ->).
  cbn. field.
Qed.

Lemma container_endpoint_anchor_witness :
  ∃ layout c center,
    Layout.resolveLayout tallGrid [plainNode "store" 2 0]
      [plainContainer "pipe" 0 1 2] [pipeToStore] defaultTheme = Ok layout
    ∧ Layout.l_containers layout !! "pipe" = Some c
    ∧ Layout.getTargetCenter tallGrid defaultTheme
        (Layout.l_containers layout) (Layout.l_nodes layout)
        (ContainerRef "pipe" SLeft) = Ok (Some center)
    ∧ px center = Layout.rc_left c.
Proof.
  assert (H : ∃ layout c,
    Layout.resolveLayout tallGrid [plainNode "store" 2 0]
      [plainContainer "pipe" 0 1 2] [pipeToStore] defaultTheme = Ok layout
    ∧ Layout.l_containers layout !! "pipe" = Some c)
    by (do 2 eexists; split; vm_compute; reflexivity).
  destruct H as (layout & c & H & Hc).
  destruct (container_endpoint_anchor _ _ _ _ _ _ "pipe" SLeft c H Hc)
    as (center & Hcenter & _ & Hx & _).
  exists layout, c, center. auto.
Defined.

Lemma still_mode_witness :
  useTimeline requestFlow requestNodes requestConnections [] 10 1 = Ok None.
Proof.
  apply (proj2 (proj1 (still_mode requestFlow requestNodes requestConnections
                         [] 10 1))).
  right. vm_compute. discriminate.
Defined.

Lemma autoRoute_shape_witness :
  Layout.autoRoute {| px := 0; py := 0 |} ERight {| px := 100; py := 0 |}
    ELeft
  = [{| px := 0; py := 0 |}; {| px := 100; py := 0 |}].
Proof.
  apply (proj1 (autoRoute_shape {| px := 0; py := 0 |} ERight
                  {| px := 100; py := 0 |} ELeft)).
  left. left. vm_compute. reflexivity.
Defined.

(** ** Chronological order of the flattened events *)

Lemma same_start_chronological (l : list FlatEvent) c :
  (∀ e, e ∈ l → startFrame e = c) → chronological l.
Proof.
  induction l as [|x l IH]; intros H; [constructor|].
  apply StronglySorted_cons. split.
  - apply Forall_forall. intros e He.
    rewrite (H x) by left. rewrite (H e) by (right; exact He). lia.
  - apply IH. intros e He. apply H. right. exact He.
Qed.

Lemma chronological_filter (P : FlatEvent → Prop) `{∀ e, Decision (P e)}
    (l : list FlatEvent) :
  chronological l → chronological (filter P l).
Proof.
  induction l as [|x l IH]; intros Hl; [constructor|].
  apply StronglySorted_cons in Hl as [Hx Hl]. rewrite filter_cons.
  destruct (decide (P x)); [|apply IH; exact Hl].
  apply StronglySorted_cons. split; [|apply IH; exact Hl].
  apply Forall_forall. intros e He. apply list_elem_of_filter in He as [_ He].
  rewrite Forall_forall in Hx. apply Hx. exact He.
Qed.

Section Chronology.
Variable fps : Q.
Hypothesis fps_nonneg : 0 <= fps.

Lemma inOrder_append s s' new :
  inOrder s → events s' = events s ++ new → chronological new →
  (cursor s <= cursor s')%Z →
  (∀ e, e ∈ new → (cursor s <= startFrame e <= cursor s')%Z) →
  inOrder s'.
Proof.
  intros [Hs Hb] Hev Hnew Hadv Hw. split.
  - rewrite Hev. apply StronglySorted_app_2; [|exact Hs | exact Hnew].
    intros x1 x2 H1 H2. specialize (Hb x1 H1). specialize (Hw x2 H2). lia.
  - intros e He. rewrite Hev in He. apply elem_of_app in He as [He|He].
    + specialize (Hb e He). lia.
    + specialize (Hw e He). lia.
Qed.

Lemma step_inOrder st pg s :
  nonnegStep st → inOrder s → inOrder (flattenStep fps st pg s).
Proof.
  intros Hst Hs. destruct (flattenStep_spec fps st pg s) as [Hev Hc].
  pose proof (stepFrames_nonneg fps st fps_nonneg Hst) as Hf.
  apply (inOrder_append s _ (newEvents fps st pg (cursor s)) Hs Hev).
  - apply (same_start_chronological _ (cursor s)). intros e He.
    apply (newEvents_window fps st pg (cursor s) e He).
  - lia.
  - intros e He.
    destruct (newEvents_window fps st pg (cursor s) e He) as [-> _]. lia.
Qed.

Lemma steps_inOrder steps :
  Forall nonnegStep steps →
  ∀ s, inOrder s → inOrder (flattenSteps fps s steps).
Proof.
  induction 1 as [|st steps Hst _ IH]; intros s Hs; [exact Hs|].
  cbn [flattenSteps foldl]. apply IH. apply step_inOrder; assumption.
Qed.

Lemma phase_inOrder p s :
  nonnegPhase p → inOrder s → inOrder (flattenPhase fps s p).
Proof.
  intros Hp Hs.
  assert (Hleaf : ∀ a d, 0 <= d → inOrder (phaseEvent fps a d s)).
  { intros a d Hd.
    assert (Hr : (0 <= Js.round (d * fps))%Z) by (apply round_nonneg; nra).
    eapply (inOrder_append s _ _ Hs);
      [reflexivity | | unfold phaseEvent, push; cbn [cursor]; lia |].
    - apply (same_start_chronological _ (cursor s)).
      intros e He. apply list_elem_of_singleton in He as ->. reflexivity.
    - intros e He. apply list_elem_of_singleton in He as ->.
      unfold phaseEvent, push. cbn [startFrame cursor]. lia. }
  destruct p as [d | steps | d | d]; try (apply Hleaf; exact Hp).
  apply (steps_inOrder steps Hp s Hs).
Qed.

Lemma timeline_inOrder timeline :
  Forall nonnegPhase timeline →
  ∀ s, inOrder s → inOrder (foldl (flattenPhase fps) s timeline).
Proof.
  induction 1 as [|p tl Hp _ IH]; intros s Hs; [exact Hs|].
  cbn [foldl]. apply IH. apply phase_inOrder; assumption.
Qed.
End Chronology.

(** X22. With a non-negative frame rate and non-negative durations the
    flattened events are listed chronologically: start frames never decrease
    along the event list, and so along the animation-only list that the
    lookahead, the groups and the step indicator index into. *)
Theorem flattened_events_chronological fps timeline :
  0 <= fps → Forall nonnegPhase timeline →
  chronological (flattenTimeline fps timeline)
  ∧ chronological (animEventsOf (flattenTimeline fps timeline))
  ∧ ∀ pre e1 mid e2 post,
      animEventsOf (flattenTimeline fps timeline)
      = pre ++ e1 :: mid ++ e2 :: post →
      (startFrame e1 <= startFrame e2)%Z.
Proof.
  intros Hfps Htl.
  assert (Hall : chronological (flattenTimeline fps timeline)).
  { unfold flattenTimeline.
    apply (timeline_inOrder fps Hfps timeline Htl
             {| events := []; cursor := 0 |}).
    split; [constructor | intros e He; inversion He]. }
  assert (Hanim : chronological (animEventsOf (flattenTimeline fps timeline)))
    by (apply chronological_filter; exact Hall).
  split; [exact Hall|]. split; [exact Hanim|].
  intros pre e1 mid e2 post Heq. unfold chronological in Hanim.
  rewrite Heq in Hanim. apply StronglySorted_app_1_r in Hanim.
  apply StronglySorted_cons in Hanim as [Hfa _].
  rewrite Forall_forall in Hfa. apply Hfa.
  apply elem_of_app. right. left.
Qed.

Lemma flattened_events_chronological_witness :
  chronological (animEventsOf (flattenTimeline 30 requestFlow)).
Proof.
  apply (flattened_events_chronological 30 requestFlow).
  - vm_compute. discriminate.
  - repeat constructor; vm_compute; discriminate.
Defined.

(** ** What stays once an event has ended *)

(** A property that the body establishes at one element of the list and
    preserves at every other holds after the loop. *)
Lemma forIndex_reaches {A St} (P : St → Prop)
    (body : nat → A → St → result St) l e :
  e ∈ l →
  (∀ i a a', body i e a = Ok a' → P a') →
  (∀ i x a a', P a → body i x a = Ok a' → P a') →
  ∀ i s s', forIndex body i l s = Ok s' → P s'.
Proof.
  intros He Hat Hkeep. induction l as [|x l IH]; intros i s s' H;
    [inversion He|].
  cbn in H. apply bind_Ok in H as (s1 & Hx & H).
  apply list_elem_of_In in He. destruct He as [->|He].
  - eapply (forIndex_invariant P); [| |exact H].
    + intros j y t t' _. apply Hkeep.
    + eapply Hat. exact Hx.
  - eapply IH; [apply list_elem_of_In; exact He | exact H].
Qed.

Lemma eventDrawProgress_done frame evt d :
  eventDrawProgress frame evt = Ok d → endFrame evt <= frame → d == 1.
Proof.
  unfold eventDrawProgress, endFrame. intros H Hend.
  eapply interpolate_up_end; [exact H | exact Hend].
Qed.

Lemma nodeBody_inv frame fps anim id i evt a a' :
  nodeBody frame fps anim id i evt a = Ok a' →
  n_maxDraw a <= n_maxDraw a' ∧ n_dimAmount a <= n_dimAmount a'
  ∧ (isAction AFillBox evt && isTarget evt id = true →
     ∃ d, eventDrawProgress frame evt = Ok d ∧ d <= n_maxDraw a')
  ∧ (isAction ADimBox evt && isTarget evt id = true →
     ∃ d, eventDrawProgress frame evt = Ok d ∧ d <= n_dimAmount a').
Proof.
  unfold nodeBody. intros H. apply bind_Ok in H as (a1 & H1 & H2).
  assert (Hfill : n_maxDraw a <= n_maxDraw a1 ∧ n_dimAmount a1 = n_dimAmount a
            ∧ (isAction AFillBox evt && isTarget evt id = true →
               ∃ d, eventDrawProgress frame evt = Ok d ∧ d <= n_maxDraw a1)).
  { destruct (isAction AFillBox evt && isTarget evt id).
    - apply bind_Ok in H1 as (b & _ & H1).
      apply bind_Ok in H1 as (d & Hd & [= <-]). cbn.
      split; [apply Q.le_max_l|]. split; [reflexivity|].
      intros _. exists d. split; [exact Hd | apply Q.le_max_r].
    - injection H1 as <-. split; [lra|]. split; [reflexivity|].
      discriminate. }
  destruct Hfill as (Hd1 & Hm1 & Hf).
  destruct (isAction ADimBox evt && isTarget evt id).
  - apply bind_Ok in H2 as (d & Hd & [= <-]). cbn.
    split; [exact Hd1|]. split; [rewrite <- Hm1; apply Q.le_max_l|].
    split; [exact Hf|]. intros _. exists d.
    split; [exact Hd | apply Q.le_max_r].
  - injection H2 as <-. split; [exact Hd1|]. split; [rewrite Hm1; lra|].
    split; [exact Hf | discriminate].
Qed.

Lemma connBody_inv frame fps anim id i evt a a' :
  connBody frame fps anim id i evt a = Ok a' →
  c_maxDraw a <= c_maxDraw a'
  ∧ (isAction ADrawLine evt && isTarget evt id = true →
     ∃ d, eventDrawProgress frame evt = Ok d ∧ d <= c_maxDraw a').
Proof.
  unfold connBody. intros H.
  destruct (isAction ADrawLine evt && isTarget evt id).
  - apply bind_Ok in H as (b & _ & H).
    apply bind_Ok in H as (d & Hd & [= <-]). cbn.
    split; [apply Q.le_max_l|]. intros _. exists d.
    split; [exact Hd | apply Q.le_max_r].
  - injection H as <-. split; [lra | discriminate].
Qed.

Lemma targets_true a evt id :
  action evt = a → target evt = Some id →
  isAction a evt && isTarget evt id = true.
Proof.
  intros Ha Ht. unfold isAction, isTarget.
  rewrite !bool_decide_eq_true_2 by assumption. reflexivity.
Qed.

(** X23. A [dimBox] is permanent: once a [dimBox] event on a node has ended,
    the node's brightness is 0 and its opacity is the dim level 0.3 at every
    later frame, whatever the global floor and whatever [fillBox] events
    target the node. *)
Theorem dimmed_node_stays_dark timeline nodes connections containers frame
    fps st id s e :
  useTimeline timeline nodes connections containers frame fps = Ok (Some st) →
  ts_nodes st !! id = Some s →
  e ∈ animEventsOf (flattenTimeline fps timeline) →
  action e = ADimBox → target e = Some id →
  endFrame e <= frame →
  brightness s == 0 ∧ opacity s == 3 # 10.
Proof.
  intros H Hs He Ha Ht Hend. apply useTimeline_stages in H.
  destruct (floor_unit _ _ _ _ _ _ _ H) as [Hf0 Hf1].
  apply (node_entry _ _ _ _ _ _ _ H) in Hs
    as (a & ([Hb0 Hb1] & _ & [Hd0 Hd1]) & Ha' & ->).
  assert (Hdim : 1 <= n_dimAmount a).
  { revert Ha'.
    apply (forIndex_reaches (fun a => 1 <= n_dimAmount a) _ _ e He).
    - intros i a0 a1 Hb. apply nodeBody_inv in Hb as (_ & _ & _ & Hd).
      destruct (Hd (targets_true _ _ _ Ha Ht)) as (d & Hd' & Hle).
      apply eventDrawProgress_done in Hd'; [lra | exact Hend].
    - intros i x a0 a1 Hp Hb. apply nodeBody_inv in Hb as (_ & Hle & _). lra. }
  assert (Hbr : Js.max (Js.max (n_maxBright a) (globalFloor st)
                        - n_dimAmount a) 0 == 0).
  { apply Q.max_r.
    pose proof (max_le_1 (n_maxBright a) (globalFloor st) Hb1 Hf1). lra. }
  cbn. split; [exact Hbr|]. rewrite Hbr. unfold DIM_NODE. ring.
Qed.

Lemma dimmed_node_stays_dark_witness :
  ∃ st s, useTimeline dimmedThenRevealed [plainNode "cache" 0 0] [] [] 54 30
          = Ok (Some st)
          ∧ ts_nodes st !! "cache" = Some s ∧ brightness s == 0.
Proof.
  assert (H : ∃ st s e,
    useTimeline dimmedThenRevealed [plainNode "cache" 0 0] [] [] 54 30
    = Ok (Some st)
    ∧ ts_nodes st !! "cache" = Some s
    ∧ animEventsOf (flattenTimeline 30 dimmedThenRevealed) = [e]
    ∧ action e = ADimBox ∧ target e = Some "cache"
    ∧ endFrame e <= 54).
  { do 3 eexists. split; [vm_compute; reflexivity|].
    split; [vm_compute; reflexivity|]. split; [vm_compute; reflexivity|].
    split; [reflexivity|]. split; [reflexivity|]. vm_compute. discriminate. }
  destruct H as (st & s & e & H & Hs & He & Ha & Ht & Hend).
  exists st, s. split; [exact H|]. split; [exact Hs|].
  refine (proj1 (dimmed_node_stays_dark _ _ _ _ _ _ _ _ _ e H Hs _ Ha Ht
                   Hend)).
  rewrite He. left.
Defined.

(** X24. What has been drawn stays drawn: once a [fillBox] event on a node
    has ended the node's draw progress is 1 at every later frame, and once a
    [drawLine] event on a connection has ended so is the connection's; the
    fade-out only lowers brightness. *)
Theorem drawn_stays_drawn timeline nodes connections containers frame fps
    st :
  useTimeline timeline nodes connections containers frame fps = Ok (Some st) →
  let anim := animEventsOf (flattenTimeline fps timeline) in
  (∀ id s e, ts_nodes st !! id = Some s → e ∈ anim →
             action e = AFillBox → target e = Some id →
             endFrame e <= frame → drawProgress s == 1)
  ∧ (∀ id s e, ts_connections st !! id = Some s → e ∈ anim →
               action e = ADrawLine → target e = Some id →
               endFrame e <= frame → drawProgress s == 1).
Proof.
  intros H anim. apply useTimeline_stages in H.
  destruct (floor_unit _ _ _ _ _ _ _ H) as [Hf0 Hf1]. split.
  - intros id s e Hs He Ha Ht Hend.
    apply (node_entry _ _ _ _ _ _ _ H) in Hs
      as (a & (_ & [Hd0 Hd1] & _) & Ha' & ->).
    assert (Hdraw : 1 <= n_maxDraw a).
    { revert Ha'.
      apply (forIndex_reaches (fun a => 1 <= n_maxDraw a) _ _ e He).
      - intros i a0 a1 Hb. apply nodeBody_inv in Hb as (_ & _ & Hd & _).
        destruct (Hd (targets_true _ _ _ Ha Ht)) as (d & Hd' & Hle).
        apply eventDrawProgress_done in Hd'; [lra | exact Hend].
      - intros i x a0 a1 Hp Hb. apply nodeBody_inv in Hb as (Hle & _). lra. }
    cbn. apply max_eq; [lra | lra | left; lra].
  - intros id s e Hs He Ha Ht Hend.
    destruct (assign_lookup (fun x : string => x) _ _ (fun _ _ => eq_refl)
                (map getConnectionId connections) ∅ _
                (stage_connections _ _ _ _ _ _ _ H) id s Hs)
      as [H0 | (k & _ & <- & Hk)].
    { rewrite lookup_empty in H0. discriminate. }
    apply connState_inv in Hk as (a & r & Ha' & Hr & ->).
    destruct (connLoop_unit _ _ _ _ _ Ha') as [_ [Hd0 Hd1]].
    destruct (interpolate_up_unit _ _ _ _ Hr) as [Hr0 Hr1].
    assert (Hdraw : 1 <= c_maxDraw a).
    { revert Ha'.
      apply (forIndex_reaches (fun a => 1 <= c_maxDraw a) _ _ e He).
      - intros i a0 a1 Hb. apply connBody_inv in Hb as (_ & Hd).
        destruct (Hd (targets_true _ _ _ Ha Ht)) as (d & Hd' & Hle).
        apply eventDrawProgress_done in Hd'; [lra | exact Hend].
      - intros i x a0 a1 Hp Hb. apply connBody_inv in Hb as (Hle & _). lra. }
    cbn. unfold Js.max3. apply max_eq; [|lra|].
    + apply Q.max_lub; lra.
    + left. eapply Qle_trans; [|apply Q.le_max_l]. lra.
Qed.

Lemma drawn_stays_drawn_witness :
  ∃ st s, useTimeline requestFlow requestNodes requestConnections [] 200 30
          = Ok (Some st)
          ∧ ts_nodes st !! "client" = Some s ∧ drawProgress s == 1.
Proof.
  assert (H : ∃ st s e,
    useTimeline requestFlow requestNodes requestConnections [] 200 30
    = Ok (Some st)
    ∧ ts_nodes st !! "client" = Some s
    ∧ head (animEventsOf (flattenTimeline 30 requestFlow)) = Some e
    ∧ action e = AFillBox ∧ target e = Some "client"
    ∧ endFrame e <= 200).
  { do 3 eexists. split; [vm_compute; reflexivity|].
    split; [vm_compute; reflexivity|]. split; [vm_compute; reflexivity|].
    split; [reflexivity|]. split; [reflexivity|]. vm_compute. discriminate. }
  destruct H as (st & s & e & H & Hs & He & Ha & Ht & Hend).
  exists st, s. split; [exact H|]. split; [exact Hs|].
  refine (proj1 (drawn_stays_drawn _ _ _ _ _ _ _ H) "client" s e Hs _ Ha Ht
            Hend).
  apply head_Some_elem_of. exact He.
Defined.
